(** * record_data.py: extraction and averaging of benchmark timings

    A shallow embedding of [src/record_data.py] and the properties of its
    file locator, time extractor, aggregator and report emitter.

    Conventions of the embedding.
    - Python [int] is [Z]; [str(int)] is the decimal printer of the
      Standard Library.
    - Python [float] is IEEE-754 binary64, modelled by [spec_float] with
      precision 53 and maximal exponent 1024; [+] and [/] are [SFadd]
      and [SFdiv], both rounding to nearest, ties to even.
    - A text is a [string] whose characters are code points below 256.
    - The file system is a record: the directories, what [open] finds at
      the paths it reads (a text file, or something that cannot be opened
      or read as text), the tables that [to_csv] wrote, and the trace of
      the calls made so far.  The script reads only below [output/] and
      writes only below [data/].
    - Exceptions and the file system are threaded by a state-and-error
      monad [M]; a raised exception keeps the state reached so far. *)

From Stdlib Require Import ZArith Ascii String DecimalString.
From Stdlib Require Import Floats.SpecFloat.
From Stdlib Require DecimalPos DecimalZ.
From stdpp Require Import base option list gmap strings.

Local Open Scope Z_scope.

(** ** Strings *)

Module Str.

(** [strip_prefix p s] is the rest of [s] after its prefix [p], when [s]
    starts with [p]. *)
Fixpoint strip_prefix (p s : string) : option string :=
  match p with
  | EmptyString => Some s
  | String a p' =>
      match s with
      | EmptyString => None
      | String b s' => if decide (a = b) then strip_prefix p' s' else None
      end
  end.

(** The longest prefix of [s] whose characters satisfy [f], and the rest:
    what a greedy [f*] consumes. *)
Fixpoint span (f : ascii → bool) (s : string) : string * string :=
  match s with
  | EmptyString => (EmptyString, EmptyString)
  | String c r =>
      if f c then let '(a, b) := span f r in (String c a, b)
      else (EmptyString, s)
  end.

Fixpoint all (f : ascii → bool) (s : string) : bool :=
  match s with
  | EmptyString => true
  | String c r => f c && all f r
  end.

(** [s] is empty or its first character fails [f]. *)
Definition stops (f : ascii → bool) (s : string) : bool :=
  match s with
  | EmptyString => true
  | String c _ => negb (f c)
  end.

(** [occurs p s]: [p] is a substring of [s]. *)
Definition occurs (p s : string) : Prop := ∃ a b, s = a +:+ p +:+ b.

End Str.

(** ** Python integers and floats *)

(** [str(n)] for an [int]. *)
Definition str (n : Z) : string := NilZero.string_of_int (Z.to_int n).

Definition prec : Z := 53.
Definition emax : Z := 1024.

Abbreviation float := spec_float.

Definition fadd : float → float → float := SFadd prec emax.
Definition fdiv : float → float → float := SFdiv prec emax.

(** [float(n)] for an [int]. *)
Definition float_of_int (n : Z) : float := binary_normalize prec emax n 0 false.

(** The binary64 number nearest to [m / 10^k], for [0 <= m]: one division
    of the two integers, rounded once. *)
Definition float_of_decimal (m : Z) (k : nat) : float :=
  match m with
  | Zpos p => fdiv (S754_finite false p 0)
                   (S754_finite false (Z.to_pos (10 ^ Z.of_nat k)) 0)
  | _ => S754_zero false
  end.

(** [float_exact x num den]: the float [x] is finite and stands for
    exactly the rational [num / den]. *)
Definition float_exact (x : float) (num den : Z) : Prop :=
  match x with
  | S754_zero _ => num = 0
  | S754_finite s m e =>
      (if s then Z.neg m else Z.pos m) * 2 ^ (if e <? 0 then 0 else e) * den
      = num * 2 ^ (if e <? 0 then - e else 0)
  | _ => False
  end.

(** ** Exceptions *)

(** The exceptions the script can end with.  [open] raises the first
    four, each with the path; [read] raises [UnicodeDecodeError], which
    names neither the path nor the file; the search step and [float] raise
    [ValueError] with a message.  (In Python [UnicodeDecodeError] is a
    subclass of [ValueError]; the script catches nothing, so the classes
    are kept apart here.) *)
Inductive exn : Type :=
  | FileNotFoundError (path : string)
  | NotADirectoryError (path : string)
  | IsADirectoryError (path : string)
  | PermissionError (path : string)
  | UnicodeDecodeError
  | ValueError (msg : string).

Global Instance exn_eq_dec : EqDecision exn.
Proof. solve_decision. Defined.

(** ** The time extractor (lines 29-33, 59-63, 92-96) *)

Definition marker : string := "Total time taken:".

(** [\s] and [\d] of a text pattern, on the code points below 256. *)
Definition is_space (c : ascii) : bool :=
  match c with
  | "009" | "010" | "011" | "012" | "013" | "028" | "029" | "030" | "031"
  | " " | "133" | "160" => true
  | _ => false
  end%char.

Definition is_digit (c : ascii) : bool :=
  match c with
  | "0" | "1" | "2" | "3" | "4" | "5" | "6" | "7" | "8" | "9" => true
  | _ => false
  end%char.

Definition is_dot (c : ascii) : bool :=
  match c with "."%char => true | _ => false end.

(** A match object: [group0] is the whole match, [group1] the captured
    numeric token. *)
Record Match : Type := mkMatch { group0 : string; group1 : string }.

(** The optional decimal point of the pattern. *)
Definition opt_dot (s : string) : string * string :=
  match s with
  | String "."%char r => (".", r)
  | _ => ("", s)
  end.

(** The pattern after its look-behind, tried at the head of [s]: a greedy
    run of whitespace, then group 1, which is a greedy run of digits, an
    optional decimal point and a greedy run of digits.  Every piece may
    match the empty string, so the greedy attempt never fails and never
    backtracks. *)
Definition match_here (s : string) : Match :=
  let '(ws, s1) := Str.span is_space s in
  let '(d1, s2) := Str.span is_digit s1 in
  let '(dot, s3) := opt_dot s2 in
  let '(d2, _) := Str.span is_digit s3 in
  let tok := d1 +:+ dot +:+ d2 in
  {| group0 := ws +:+ tok; group1 := tok |}.

(** [re.search(pattern, text)] for the pattern of the script, whose
    look-behind is the marker.  The scan tries the start positions from
    left to right; the look-behind holds at a position exactly when the
    marker ends there. *)
Fixpoint re_search (text : string) : option Match :=
  match Str.strip_prefix marker text with
  | Some rest => Some (match_here rest)
  | None =>
      match text with
      | EmptyString => None
      | String _ t => re_search t
      end
  end.

Definition digit_value (c : ascii) : Z := Z.of_nat (nat_of_ascii c) - 48.

(** The number a string of decimal digits denotes, after [acc]. *)
Fixpoint digits_value (acc : Z) (s : string) : Z :=
  match s with
  | EmptyString => acc
  | String c r => digits_value (10 * acc + digit_value c) r
  end.

Definition float_error (s : string) : exn :=
  ValueError ("could not convert string to float: '" +:+ s +:+ "'").

(** [float(s)] on the strings [group(1)] can be: digits, an optional
    decimal point, digits.  At least one digit is needed; the value is the
    nearest binary64 number.  Any other string is rejected here (Python
    accepts signs, exponents and blanks, which a token never has). *)
Definition float_of_str (s : string) : exn + float :=
  let '(ip, r) := Str.span is_digit s in
  match r with
  | EmptyString =>
      if decide (ip = "") then inl (float_error s)
      else inr (float_of_decimal (digits_value 0 ip) 0)
  | String c fp =>
      if is_dot c && Str.all is_digit fp
         && negb (bool_decide (ip +:+ fp = ""))
      then inr (float_of_decimal (digits_value 0 (ip +:+ fp)) (String.length fp))
      else inl (float_error s)
  end.

Definition extract_error (file_name : string) : exn :=
  ValueError ("ERROR: Could not extract execution time for " +:+ file_name).

(** Lines 29-33 as a function of the text that was read: the duration,
    or the exception raised on the way. *)
Definition extract_time (file_name text : string) : exn + float :=
  match re_search text with
  | None => inl (extract_error file_name)
  | Some m => float_of_str (group1 m)
  end.

(** ** Tables *)

Inductive cell : Type :=
  | CInt (n : Z)
  | CFloat (x : float).

(** [pd.DataFrame({name: column, ...})]: the columns in the order of the
    dictionary. *)
Definition DataFrame : Type := list (string * list cell).

(** What [to_csv(index=False)] writes: the header row of column names and
    one row of fields per index. *)
Record Csv : Type := mkCsv { header : list string; rows : list (list cell) }.

Fixpoint zip_cons (col : list cell) (rs : list (list cell)) : list (list cell) :=
  match col, rs with
  | c :: col', r :: rs' => (c :: r) :: zip_cons col' rs'
  | _, _ => []
  end.

(** The rows of a frame whose columns have one length (pandas refuses to
    build any other frame). *)
Fixpoint rows_of (cols : list (list cell)) : list (list cell) :=
  match cols with
  | [] => []
  | [col] => (λ c, [c]) <$> col
  | col :: cols' => zip_cons col (rows_of cols')
  end.

Definition csv_of (df : DataFrame) : Csv :=
  {| header := df.*1; rows := rows_of df.*2 |}.

(** ** The file system and the monad *)

Inductive event : Type :=
  | EvMakedirs (path : string)
  | EvOpen (path : string)
  | EvPrint (df : DataFrame)
  | EvToCsv (path : string).

(** What [open] and [read] find at the path of a result file: a text
    file with its decoded contents, or something that cannot be opened or
    read as text: a path that leads through a regular file, a directory,
    a file the process may not read, a file whose bytes do not decode.  A
    path with no entry does not exist.  The result files lie below
    [output/]; the directories that the script makes lie below [data/]
    and are kept apart in [dirs]. *)
Inductive node : Type :=
  | Text (text : string)
  | BehindFile
  | Directory
  | Forbidden
  | Undecodable.

Global Instance node_eq_dec : EqDecision node.
Proof. solve_decision. Defined.

Record World : Type := mkWorld {
  dirs : gset string;
  files : gmap string node;
  tables : gmap string Csv;
  trace : list event
}.

(** The calls [evs] are appended to the trace. *)
Definition emit (evs : list event) (w : World) : World :=
  {| dirs := dirs w; files := files w; tables := tables w;
     trace := trace w ++ evs |}.

Definition log (ev : event) (w : World) : World := emit [ev] w.

Definition M (A : Type) : Type := World → World * (exn + A).

Global Instance M_ret : MRet M := λ A x w, (w, inr x).

Global Instance M_bind : MBind M := λ A B f m w,
  match m w with
  | (w', inr x) => f x w'
  | (w', inl e) => (w', inl e)
  end.

Definition raise {A : Type} (e : exn) : M A := λ w, (w, inl e).

Definition lift {A : Type} (r : exn + A) : M A := λ w, (w, r).

(** [for x in xs: body] *)
Fixpoint for_each {A : Type} (xs : list A) (body : A → M unit) : M unit :=
  match xs with
  | [] => mret tt
  | x :: xs' => body x;; for_each xs' body
  end.

(** [for x in xs: body], where the body updates one local variable. *)
Fixpoint for_fold {A S : Type} (xs : list A) (s : S) (body : S → A → M S) : M S :=
  match xs with
  | [] => mret s
  | x :: xs' => s' ← body s x; for_fold xs' s' body
  end.

(** The path itself and the directories above it, outermost first. *)
Fixpoint path_prefixes_from (acc s : string) : list string :=
  match s with
  | EmptyString => [acc]
  | String c r =>
      if decide (c = "/"%char) then acc :: path_prefixes_from (acc +:+ "/") r
      else path_prefixes_from (acc +:+ String c "") r
  end.

Definition path_prefixes (path : string) : list string :=
  path_prefixes_from "" path.

(** [os.makedirs(path, exist_ok=True)]: the directory and those above it
    exist afterwards; one that exists already is left alone.  (A regular
    file in the way, which would raise, is outside the model.) *)
Definition makedirs (path : string) : M unit := λ w,
  (log (EvMakedirs path)
     {| dirs := dirs w ∪ list_to_set (path_prefixes path); files := files w;
        tables := tables w; trace := trace w |},
   inr tt).

(** The text read from what is found at [path], or the exception of
    [open] or of [read]. *)
Definition read_node (path : string) (n : option node) : exn + string :=
  match n with
  | Some (Text text) => inr text
  | Some BehindFile => inl (NotADirectoryError path)
  | Some Directory => inl (IsADirectoryError path)
  | Some Forbidden => inl (PermissionError path)
  | Some Undecodable => inl UnicodeDecodeError
  | None => inl (FileNotFoundError path)
  end.

(** [with open(path, 'r') as f: text = f.read()]: a path that does not
    exist raises [FileNotFoundError]; a path through a regular file, a
    directory, a file that may not be read and a file that does not
    decode raise their own exceptions.  (Failures of the device and of
    the limits of the process are outside the model.) *)
Definition open_read (path : string) : M string := λ w,
  (log (EvOpen path) w, read_node path (files w !! path)).

(** [print(df)] *)
Definition print (df : DataFrame) : M unit := λ w, (log (EvPrint df) w, inr tt).

(** [df.to_csv(path, index=False)]: the file is created or replaced. *)
Definition to_csv (df : DataFrame) (path : string) : M unit := λ w,
  (log (EvToCsv path)
     {| dirs := dirs w; files := files w;
        tables := <[path := csv_of df]> (tables w); trace := trace w |},
   inr tt).

(** ** The script *)

Definition OUT_DIR : string := "data".

Definition sequence_lengths : list Z := [100; 1000; 10000].

Definition n_runs : Z := 8.

(** [range(lo, hi)] *)
Definition range (lo hi : Z) : list Z :=
  (λ i : nat, lo + Z.of_nat i) <$> seq 0%nat (Z.to_nat (hi - lo)).

(** [float(s)] *)
Definition float_ (s : string) : M float := lift (float_of_str s).

(** Lines 27-33 (and 57-63, 90-96), up to the accumulation: open and read
    the file, search, raise when there is no match, convert group 1. *)
Definition read_time (file_name input_path : string) : M float :=
  text ← open_read input_path;
  match re_search text with
  | None =>
      raise (ValueError
               ("ERROR: Could not extract execution time for " +:+ file_name))
  | Some m => float_ (group1 m)
  end.

(** [f"{in_dir}/L{sequence_length}/{file_name}"] *)
Definition input_path_of (in_dir : string) (sequence_length : Z)
    (file_name : string) : string :=
  in_dir +:+ "/L" +:+ str sequence_length +:+ "/" +:+ file_name.

(** [f"{OUT_DIR}/{algo}/L{sequence_length}"] *)
Definition out_dir_of (algo : string) (sequence_length : Z) : string :=
  OUT_DIR +:+ "/" +:+ algo +:+ "/L" +:+ str sequence_length.

(** [f"{out_dir}/{algo}-L{sequence_length}.csv"] *)
Definition out_path_of (algo : string) (sequence_length : Z) : string :=
  out_dir_of algo sequence_length +:+ "/" +:+ algo +:+ "-L"
    +:+ str sequence_length +:+ ".csv".

Module Serial.

Definition algo : string := "serial".
Definition in_dir : string := "output/" +:+ algo.

(** [f"{algo}-L{sequence_length}-R{run}.out"] *)
Definition file_name (sequence_length run : Z) : string :=
  algo +:+ "-L" +:+ str sequence_length +:+ "-R" +:+ str run +:+ ".out".

Definition input_path (sequence_length run : Z) : string :=
  input_path_of in_dir sequence_length (file_name sequence_length run).

(** The body of the loop over the runs (lines 25-33). *)
Definition run_body (sequence_length : Z) (execution_time : float)
    (run : Z) : M float :=
  t ← read_time (file_name sequence_length run)
                (input_path sequence_length run);
  mret (fadd execution_time t).

(** The body of the loop over the sequence lengths (lines 21-41). *)
Definition length_body (sequence_length : Z) : M unit :=
  makedirs (out_dir_of algo sequence_length);;
  execution_time ←
    for_fold (range 1 (n_runs + 1)) (S754_zero false) (run_body sequence_length);
  let avg_execution_time := fdiv execution_time (float_of_int n_runs) in
  let df := [("avg_execution_time", [CFloat avg_execution_time])] in
  print df;;
  to_csv df (out_path_of algo sequence_length).

End Serial.

Definition record_serial : M unit :=
  makedirs (OUT_DIR +:+ "/" +:+ Serial.algo);;
  for_each sequence_lengths Serial.length_body.

Module Parallel.

Definition algo : string := "parallel".
Definition in_dir : string := "output/" +:+ algo.
Definition thread_counts : list Z := [1; 2; 4; 8].

(** [f"{algo}-L{sequence_length}-T{n_threads}-R{run}.out"] *)
Definition file_name (sequence_length n_threads run : Z) : string :=
  algo +:+ "-L" +:+ str sequence_length +:+ "-T" +:+ str n_threads
    +:+ "-R" +:+ str run +:+ ".out".

Definition input_path (sequence_length n_threads run : Z) : string :=
  input_path_of in_dir sequence_length (file_name sequence_length n_threads run).

Definition run_body (sequence_length n_threads : Z) (execution_time : float)
    (run : Z) : M float :=
  t ← read_time (file_name sequence_length n_threads run)
                (input_path sequence_length n_threads run);
  mret (fadd execution_time t).

Definition count_body (sequence_length : Z) (avg_execution_times : list float)
    (n_threads : Z) : M (list float) :=
  execution_time ←
    for_fold (range 1 (n_runs + 1)) (S754_zero false)
             (run_body sequence_length n_threads);
  let avg_execution_time := fdiv execution_time (float_of_int n_runs) in
  mret (avg_execution_times ++ [avg_execution_time]).

Definition length_body (sequence_length : Z) : M unit :=
  makedirs (out_dir_of algo sequence_length);;
  avg_execution_times ← for_fold thread_counts [] (count_body sequence_length);
  let df := [("n_threads", CInt <$> thread_counts);
             ("avg_execution_time", CFloat <$> avg_execution_times)] in
  print df;;
  to_csv df (out_path_of algo sequence_length).

End Parallel.

Definition record_parallel : M unit :=
  makedirs (OUT_DIR +:+ "/" +:+ Parallel.algo);;
  for_each sequence_lengths Parallel.length_body.

Module Distributed.

Definition algo : string := "distributed".
Definition in_dir : string := "output/" +:+ algo.
Definition process_counts : list Z := [1; 2; 4; 8].

(** [f"{algo}-L{sequence_length}-P{n_processes}-R{run}.out"] *)
Definition file_name (sequence_length n_processes run : Z) : string :=
  algo +:+ "-L" +:+ str sequence_length +:+ "-P" +:+ str n_processes
    +:+ "-R" +:+ str run +:+ ".out".

Definition input_path (sequence_length n_processes run : Z) : string :=
  input_path_of in_dir sequence_length
                (file_name sequence_length n_processes run).

(** The body of the loop over the runs (lines 87-96). *)
Definition run_body (sequence_length n_processes : Z) (execution_time : float)
    (run : Z) : M float :=
  t ← read_time (file_name sequence_length n_processes run)
                (input_path sequence_length n_processes run);
  mret (fadd execution_time t).

(** The body of the loop over the process counts (lines 84-99). *)
Definition count_body (sequence_length : Z) (avg_execution_times : list float)
    (n_processes : Z) : M (list float) :=
  execution_time ←
    for_fold (range 1 (n_runs + 1)) (S754_zero false)
             (run_body sequence_length n_processes);
  let avg_execution_time := fdiv execution_time (float_of_int n_runs) in
  mret (avg_execution_times ++ [avg_execution_time]).

(** The body of the loop over the sequence lengths (lines 80-107). *)
Definition length_body (sequence_length : Z) : M unit :=
  makedirs (out_dir_of algo sequence_length);;
  avg_execution_times ← for_fold process_counts [] (count_body sequence_length);
  let df := [("n_processes", CInt <$> process_counts);
             ("avg_execution_time", CFloat <$> avg_execution_times)] in
  print df;;
  to_csv df (out_path_of algo sequence_length).

End Distributed.

Definition record_distributed : M unit :=
  makedirs (OUT_DIR +:+ "/" +:+ Distributed.algo);;
  for_each sequence_lengths Distributed.length_body.

(** [main]: the call of [record_parallel] is commented out. *)
Definition main : M unit :=
  record_serial;;
  record_distributed.

(** ** The runs as functions of the input files

    What the loops compute, written as functions of the text files alone.
    The facts below show that the script computes these and changes
    nothing else; the properties are then read off them. *)

(** Opening and reading [path], then extracting. *)
Definition read_result (fs : gmap string node) (file_name path : string)
    : exn + float :=
  match read_node path (fs !! path) with
  | inr text => extract_time file_name text
  | inl e => inl e
  end.

Section Runs.
Context (fs : gmap string node) (name path : Z → string).

(** The accumulated [execution_time] after the runs [rs]. *)
Fixpoint sum_times (rs : list Z) (acc : float) : exn + float :=
  match rs with
  | [] => inr acc
  | r :: rs' =>
      match read_result fs (name r) (path r) with
      | inr t => sum_times rs' (fadd acc t)
      | inl e => inl e
      end
  end.

(** The files opened on the way: up to the first that fails. *)
Fixpoint opened (rs : list Z) : list string :=
  match rs with
  | [] => []
  | r :: rs' =>
      path r ::
      match read_result fs (name r) (path r) with
      | inr _ => opened rs'
      | inl _ => []
      end
  end.

(** The durations of the runs [rs], when all are extracted. *)
Fixpoint durations (rs : list Z) : exn + list float :=
  match rs with
  | [] => inr []
  | r :: rs' =>
      match read_result fs (name r) (path r) with
      | inr t =>
          match durations rs' with
          | inr ts => inr (t :: ts)
          | inl e => inl e
          end
      | inl e => inl e
      end
  end.

Definition average (rs : list Z) : exn + float :=
  match sum_times rs (S754_zero false) with
  | inr t => inr (fdiv t (float_of_int n_runs))
  | inl e => inl e
  end.
End Runs.

(** The arithmetic mean as the script computes it: the durations added
    from left to right, starting from [0.0], then one division. *)
Definition mean (ds : list float) : float :=
  fdiv (foldl fadd (S754_zero false) ds) (float_of_int n_runs).

Definition runs : list Z := range 1 (n_runs + 1).

Module SerialPure.
Import Serial.

Definition average_of (fs : gmap string node) (s : Z) : exn + float :=
  average fs (file_name s) (input_path s) runs.

Definition frame (avg : float) : DataFrame :=
  [("avg_execution_time", [CFloat avg])].

Definition result (fs : gmap string node) (s : Z)
    : list string * (exn + DataFrame) :=
  (opened fs (file_name s) (input_path s) runs,
   match average_of fs s with
   | inr avg => inr (frame avg)
   | inl e => inl e
   end).

(** The required files, in the order the script reads them. *)
Definition required : list (string * string) :=
  s ← sequence_lengths; r ← runs; [(file_name s r, input_path s r)].
End SerialPure.

Module DistributedPure.
Import Distributed.

Definition average_of (fs : gmap string node) (s p : Z) : exn + float :=
  average fs (file_name s p) (input_path s p) runs.

(** The list [avg_execution_times] after the process counts [ps]. *)
Fixpoint averages (fs : gmap string node) (s : Z) (ps : list Z)
    (avgs : list float) : exn + list float :=
  match ps with
  | [] => inr avgs
  | p :: ps' =>
      match average_of fs s p with
      | inr avg => averages fs s ps' (avgs ++ [avg])
      | inl e => inl e
      end
  end.

Fixpoint opened_counts (fs : gmap string node) (s : Z) (ps : list Z)
    : list string :=
  match ps with
  | [] => []
  | p :: ps' =>
      opened fs (file_name s p) (input_path s p) runs ++
      match average_of fs s p with
      | inr _ => opened_counts fs s ps'
      | inl _ => []
      end
  end.

Definition frame (avgs : list float) : DataFrame :=
  [("n_processes", CInt <$> process_counts);
   ("avg_execution_time", CFloat <$> avgs)].

Definition result (fs : gmap string node) (s : Z)
    : list string * (exn + DataFrame) :=
  (opened_counts fs s process_counts,
   match averages fs s process_counts [] with
   | inr avgs => inr (frame avgs)
   | inl e => inl e
   end).

Definition required : list (string * string) :=
  s ← sequence_lengths; p ← process_counts; r ← runs;
  [(file_name s p r, input_path s p r)].
End DistributedPure.

(** The outcome of reading the required files [req] in order: the
    exception of the first that fails. *)
Fixpoint first_failure (fs : gmap string node) (req : list (string * string))
    : exn + unit :=
  match req with
  | [] => inr tt
  | (name, path) :: req' =>
      match read_result fs name path with
      | inr _ => first_failure fs req'
      | inl e => inl e
      end
  end.

(** The loop over the sequence lengths has one shape in every mode:
    make the output directory, compute the frame, print it, write it. *)
Section Lengths.
Context (algo : string) (compute : Z → M DataFrame).

Definition length_loop_body (sequence_length : Z) : M unit :=
  makedirs (out_dir_of algo sequence_length);;
  df ← compute sequence_length;
  print df;;
  to_csv df (out_path_of algo sequence_length).

Definition record_with : M unit :=
  makedirs (OUT_DIR +:+ "/" +:+ algo);;
  for_each sequence_lengths length_loop_body.
End Lengths.

Section LengthsPure.
Context (algo : string) (result : Z → list string * (exn + DataFrame)).

(** The sequence lengths whose summary is written. *)
Fixpoint completed (ls : list Z) : list Z :=
  match ls with
  | [] => []
  | s :: ls' =>
      match (result s).2 with
      | inr _ => s :: completed ls'
      | inl _ => []
      end
  end.

(** The sequence lengths whose processing starts. *)
Fixpoint attempted (ls : list Z) : list Z :=
  match ls with
  | [] => []
  | s :: ls' =>
      s :: match (result s).2 with
           | inr _ => attempted ls'
           | inl _ => []
           end
  end.

Fixpoint outcome (ls : list Z) : exn + unit :=
  match ls with
  | [] => inr tt
  | s :: ls' =>
      match (result s).2 with
      | inr _ => outcome ls'
      | inl e => inl e
      end
  end.

(** The calls made for one sequence length. *)
Definition body_trace (s : Z) : list event :=
  EvMakedirs (out_dir_of algo s) :: (EvOpen <$> (result s).1) ++
  match (result s).2 with
  | inr df => [EvPrint df; EvToCsv (out_path_of algo s)]
  | inl _ => []
  end.

Definition write_summary (s : Z) (t : gmap string Csv) : gmap string Csv :=
  match (result s).2 with
  | inr df => <[out_path_of algo s := csv_of df]> t
  | inl _ => t
  end.

(** The file system after the loop over [ls], started in [w]. *)
Definition after_loop (ls : list Z) (w : World) : World :=
  {| dirs := dirs w ∪
             list_to_set (s ← attempted ls; path_prefixes (out_dir_of algo s));
     files := files w;
     tables := foldl (λ t s, write_summary s t) (tables w) (completed ls);
     trace := trace w ++ (s ← attempted ls; body_trace s) |}.
End LengthsPure.

(** The frame of one sequence length, as each mode computes it. *)
Definition serial_compute (sequence_length : Z) : M DataFrame :=
  execution_time ←
    for_fold runs (S754_zero false) (Serial.run_body sequence_length);
  mret (SerialPure.frame (fdiv execution_time (float_of_int n_runs))).

Definition distributed_compute (sequence_length : Z) : M DataFrame :=
  avg_execution_times ←
    for_fold Distributed.process_counts []
             (Distributed.count_body sequence_length);
  mret (DistributedPure.frame avg_execution_times).

(** ** Vocabulary of the statements about the extractor *)

(** The ways in which the result file [name] at [path] is bad in [fs],
    each with the exception that processing it raises: the path does not
    exist; it leads through a regular file; it is a directory; it may not
    be read; its bytes do not decode; the text does not contain the
    marker; the token after the first marker has no digit. *)
Inductive bad_file (fs : gmap string node) (name path : string)
    : exn → Prop :=
  | bad_missing :
      fs !! path = None → bad_file fs name path (FileNotFoundError path)
  | bad_behind_file :
      fs !! path = Some BehindFile →
      bad_file fs name path (NotADirectoryError path)
  | bad_directory :
      fs !! path = Some Directory →
      bad_file fs name path (IsADirectoryError path)
  | bad_forbidden :
      fs !! path = Some Forbidden →
      bad_file fs name path (PermissionError path)
  | bad_undecodable :
      fs !! path = Some Undecodable → bad_file fs name path UnicodeDecodeError
  | bad_no_marker (text : string) :
      fs !! path = Some (Text text) → ¬ Str.occurs marker text →
      bad_file fs name path
        (ValueError ("ERROR: Could not extract execution time for " +:+ name))
  | bad_no_digit (text : string) (m : Match) :
      fs !! path = Some (Text text) → re_search text = Some m →
      group1 m = "" ∨ group1 m = "." →
      bad_file fs name path
        (ValueError ("could not convert string to float: '"
                     +:+ group1 m +:+ "'")).

(** The marker occurs in [pre +:+ marker] at its end only: in a text
    [pre +:+ marker +:+ rest] the first occurrence of the marker is the
    one after [pre]. *)
Definition first_marker (pre : string) : Prop :=
  ∀ a b, pre +:+ marker = a +:+ marker +:+ b → b = "".

(** A numeric token: the digits [ip], then, if [frac] is [Some d], a
    decimal point and the digits [d]. *)
Definition token (ip : string) (frac : option string) : string :=
  ip +:+ match frac with Some d => "." +:+ d | None => "" end.

Definition frac_digits (frac : option string) : string :=
  match frac with Some d => d | None => "" end.

(** The token cannot be extended by the text [rest] that follows it. *)
Definition token_ends (frac : option string) (rest : string) : bool :=
  match frac with
  | None => Str.stops (λ c, is_digit c || is_dot c) rest
  | Some _ => Str.stops is_digit rest
  end.

Definition not_digit (c : ascii) : bool := negb (is_digit c).

(** 12.5 as a binary64 number. *)
Definition f12_5 : float := S754_finite false 7036874417766400 (-49).

(** Does the marker start at one of the first [n] positions of [s]? *)
Fixpoint early_marker (s : string) (n : nat) {struct n} : bool :=
  match n with
  | O => false
  | S n' =>
      match Str.strip_prefix marker s with
      | Some _ => true
      | None =>
          match s with
          | EmptyString => false
          | String _ t => early_marker t n'
          end
      end
  end.

(** ** Vocabulary of the statements about the runs *)

(** 4.5 and 10.0 as binary64 numbers. *)
Definition f4_5 : float := S754_finite false 5066549580791808 (-50).
Definition f10 : float := S754_finite false 5629499534213120 (-49).

(** A result file as the benchmarked programs write it. *)
Definition timing_text (t : string) : string :=
  "LCS length: 42. Total time taken: " +:+ t +:+ " seconds".

(** A file system in which every required result file of the serial and
    the distributed mode is present: the serial runs took 2.0, the
    distributed runs 10.0. *)
Definition sample_files : gmap string node :=
  list_to_map
    (((λ f : string * string, (f.2, Text (timing_text "2.0")))
        <$> SerialPure.required) ++
     ((λ f : string * string, (f.2, Text "Total time taken: 10.0"))
        <$> DistributedPure.required)).

Definition sample_world : World :=
  {| dirs := ∅; files := sample_files; tables := ∅; trace := [] |}.

(** The same, except for the files of other configurations than
    (1000, 4 processes): one run with 2 processes was slower, and the
    serial runs of length 100 took 3.5. *)
Definition sample_world_other : World :=
  {| dirs := ∅;
     files := <[Distributed.input_path 1000 2 3 := Text (timing_text "99.5")]>
              (<[Serial.input_path 100 1 := Text (timing_text "3.5")]>
                 sample_files);
     tables := ∅; trace := [] |}.

(** ** The naming grammar of the result files, in the words of the
    specification *)

Inductive mode : Type := ModeSerial | ModeParallel | ModeDistributed.

Definition mode_name (m : mode) : string :=
  match m with
  | ModeSerial => "serial"
  | ModeParallel => "parallel"
  | ModeDistributed => "distributed"
  end.

(** The letter before the parallelism degree: [T] for threads, [P] for
    processes, none in serial mode. *)
Definition degree_letter (m : mode) : option string :=
  match m with
  | ModeSerial => None
  | ModeParallel => Some "T"
  | ModeDistributed => Some "P"
  end.

(** [<input_root>/<mode>/L<len>/<mode>-L<len>[-<letter><degree>]-R<run>.out] *)
Definition locator_grammar (input_root : string) (m : mode)
    (sequence_length : Z) (degree : option Z) (run : Z) : string :=
  input_root +:+ "/" +:+ mode_name m +:+ "/L" +:+ str sequence_length +:+ "/"
    +:+ mode_name m +:+ "-L" +:+ str sequence_length
    +:+ match degree_letter m, degree with
        | Some letter, Some d => "-" +:+ letter +:+ str d
        | _, _ => ""
        end
    +:+ "-R" +:+ str run +:+ ".out".

(** [sample_world] without the result file of run 5 of the configuration
    (1000, 4 processes). *)
Definition sample_world_missing : World :=
  {| dirs := ∅;
     files := delete (Distributed.input_path 1000 4 5) sample_files;
     tables := ∅; trace := [] |}.


(** A file system that holds the serial result files of sequence length
    100 only. *)
Definition sample_world_short : World :=
  {| dirs := ∅;
     files := list_to_map
                ((λ r, (Serial.input_path 100 r, Text (timing_text "2.0")))
                   <$> runs);
     tables := ∅; trace := [] |}.

(** The result files of one sequence length, per mode. *)
Definition serial_paths (s : Z) : list string := Serial.input_path s <$> runs.

Definition distributed_paths (s : Z) : list string :=
  p ← Distributed.process_counts; Distributed.input_path s p <$> runs.

(** ** Vocabulary of the statements about the directories *)

(** In the calls [tr] of a run of the mode [algo], every opening of a
    result file of a sequence length comes after the two calls that make
    the output directories of the mode and of that sequence length. *)
Definition reads_after_dirs (algo : string) (paths : Z → list string)
    (tr : list event) : Prop :=
  ∀ s p pre post,
    s ∈ sequence_lengths → p ∈ paths s →
    tr = pre ++ EvOpen p :: post →
    EvMakedirs (OUT_DIR +:+ "/" +:+ algo) ∈ pre
    ∧ EvMakedirs (out_dir_of algo s) ∈ pre.

(** The output directories of the mode and of the sequence length [s]
    exist in [w]. *)
Definition dirs_made (algo : string) (s : Z) (w : World) : Prop :=
  OUT_DIR +:+ "/" +:+ algo ∈ dirs w ∧ out_dir_of algo s ∈ dirs w.

(** ** Vocabulary of the further statements *)

(** A float that is zero, positive or plus infinity: not NaN, not
    negative, not the negative zero. *)
Definition nonneg_float (x : float) : bool :=
  match x with
  | S754_zero false | S754_finite false _ _ | S754_infinity false => true
  | _ => false
  end.

(** The characters of a printed integer. *)
Definition sign_or_digit (c : ascii) : bool :=
  is_digit c || Ascii.eqb c "-".

(** The character [c] does not occur in [s]. *)
Definition lacks (c : ascii) (s : string) : bool :=
  Str.all (λ k, negb (Ascii.eqb k c)) s.

(** The paths opened by the calls [tr], in order. *)
Definition opens (tr : list event) : list string :=
  omap (λ ev, match ev with EvOpen p => Some p | _ => None end) tr.

(** The paths of [req] up to and including the first file that fails. *)
Fixpoint read_prefix (fs : gmap string node) (req : list (string * string))
    : list string :=
  match req with
  | [] => []
  | (name, path) :: req' =>
      path :: match read_result fs name path with
              | inr _ => read_prefix fs req'
              | inl _ => []
              end
  end.

(** The files opened by a run that had to read [req] and ended with [r]:
    all of them in order, or those up to the file that raised. *)
Definition reads_until_failure (fs : gmap string node)
    (req : list (string * string)) (tr : list event) (r : exn + unit) : Prop :=
  match r with
  | inr _ => opens tr = req.*2
  | inl e =>
      ∃ before name path after,
        req = before ++ (name, path) :: after
        ∧ opens tr = before.*2 ++ [path]
        ∧ Forall (λ f, ∃ t, read_result fs f.1 f.2 = inr t) before
        ∧ read_result fs name path = inl e
  end.

(** ** The parallel mode as a function of the input files *)

Module ParallelPure.
Import Parallel.

Definition average_of (fs : gmap string node) (s p : Z) : exn + float :=
  average fs (file_name s p) (input_path s p) runs.

(** The list [avg_execution_times] after the thread counts [ps]. *)
Fixpoint averages (fs : gmap string node) (s : Z) (ps : list Z)
    (avgs : list float) : exn + list float :=
  match ps with
  | [] => inr avgs
  | p :: ps' =>
      match average_of fs s p with
      | inr avg => averages fs s ps' (avgs ++ [avg])
      | inl e => inl e
      end
  end.

Fixpoint opened_counts (fs : gmap string node) (s : Z) (ps : list Z)
    : list string :=
  match ps with
  | [] => []
  | p :: ps' =>
      opened fs (file_name s p) (input_path s p) runs ++
      match average_of fs s p with
      | inr _ => opened_counts fs s ps'
      | inl _ => []
      end
  end.

Definition frame (avgs : list float) : DataFrame :=
  [("n_threads", CInt <$> thread_counts);
   ("avg_execution_time", CFloat <$> avgs)].

Definition result (fs : gmap string node) (s : Z)
    : list string * (exn + DataFrame) :=
  (opened_counts fs s thread_counts,
   match averages fs s thread_counts [] with
   | inr avgs => inr (frame avgs)
   | inl e => inl e
   end).

Definition required : list (string * string) :=
  s ← sequence_lengths; p ← thread_counts; r ← runs;
  [(file_name s p r, input_path s p r)].
End ParallelPure.

Definition parallel_compute (sequence_length : Z) : M DataFrame :=
  avg_execution_times ←
    for_fold Parallel.thread_counts []
             (Parallel.count_body sequence_length);
  mret (ParallelPure.frame avg_execution_times).

(** What the loop over the sequence lengths adds to the file system: the
    summaries written and the directories made. *)
Definition summaries (algo : string)
    (result : Z → list string * (exn + DataFrame)) : gmap string Csv :=
  foldl (λ t s, write_summary algo result s t) ∅
        (completed result sequence_lengths).

Definition made_dirs (algo : string)
    (result : Z → list string * (exn + DataFrame)) : gset string :=
  list_to_set (path_prefixes (OUT_DIR +:+ "/" +:+ algo)) ∪
  list_to_set (s ← attempted result sequence_lengths;
               path_prefixes (out_dir_of algo s)).

(** On the file systems with the text files [fs], the computation [m]
    ends with [r], adds the directories [ds] and stores the tables [ts]
    over what was there. *)
Definition acts (m : M unit) (fs : gmap string node) (ds : gset string)
    (ts : gmap string Csv) (r : exn + unit) : Prop :=
  ∀ w, files w = fs →
    files (m w).1 = fs ∧ dirs (m w).1 = dirs w ∪ ds
    ∧ tables (m w).1 = ts ∪ tables w ∧ (m w).2 = r.

(** Running [m] again right after a run of [m] on [w] ends in the same
    way and leaves directories, tables and text files as they are. *)
Definition rerun_same (m : M unit) (w : World) : Prop :=
  (m (m w).1).2 = (m w).2
  ∧ dirs (m (m w).1).1 = dirs (m w).1
  ∧ tables (m (m w).1).1 = tables (m w).1
  ∧ files (m (m w).1).1 = files w.

(** A file system with every result file of the parallel mode; each run
    took 4.0. *)
Definition sample_world_parallel : World :=
  {| dirs := ∅;
     files := list_to_map
                ((λ f : string * string, (f.2, Text (timing_text "4.0")))
                   <$> ParallelPure.required);
     tables := ∅; trace := [] |}.

(** The footprint of a run of the mode [algo] that took [w] to [w']: the
    text files are as before, the only tables that can differ are the
    summaries of the mode, the only directories that can be new are the
    output directories of the mode, and the only files opened are among
    [inputs]. *)
Definition confined (algo : string) (inputs : list string) (w w' : World)
    : Prop :=
  files w' = files w
  ∧ (∀ p, (∀ s, s ∈ sequence_lengths → p ≠ out_path_of algo s) →
          tables w' !! p = tables w !! p)
  ∧ (∀ d, d ∈ dirs w' →
          d ∈ dirs w ∨ d = OUT_DIR ∨ d = OUT_DIR +:+ "/" +:+ algo
          ∨ ∃ s, s ∈ sequence_lengths ∧ d = out_dir_of algo s)
  ∧ ∃ tr, trace w' = trace w ++ tr ∧ ∀ p, p ∈ opens tr → p ∈ inputs.

(** In the calls of a run of the mode [algo] that took [w] to [w'], a
    summary is written right after it has been printed, to the path of one
    of the sequence lengths, whose directory has been made before; the
    table stored at the end is the printed one.  Nothing is printed
    without being written next. *)
Definition written_after_print (algo : string) (w w' : World) : Prop :=
  ∃ tr, trace w' = trace w ++ tr
    ∧ (∀ pre p post, tr = pre ++ EvToCsv p :: post →
         ∃ pre' df s,
           pre = pre' ++ [EvPrint df] ∧ s ∈ sequence_lengths
           ∧ p = out_path_of algo s
           ∧ EvMakedirs (out_dir_of algo s) ∈ pre'
           ∧ tables w' !! p = Some (csv_of df))
    ∧ (∀ pre df post, tr = pre ++ EvPrint df :: post →
         ∃ p post', post = EvToCsv p :: post').

(** The calls a computation makes when it is started in [w]: what it
    appends to the trace. *)
Definition calls (m : M unit) (w : World) : list event :=
  drop (length (trace w)) (trace (m w).1).

(** [sample_world] without the result file of run 1 of the configuration
    (1000, 2 processes). *)
Definition sample_world_gap : World :=
  {| dirs := ∅;
     files := delete (Distributed.input_path 1000 2 1) sample_files;
     tables := ∅; trace := [] |}.

(** * Facts *)

(** ** Strings *)

Module StrFacts.
Import Str.

Lemma app_nil_l (a : string) : "" +:+ a = a.
Proof. reflexivity. Qed.

Lemma app_cons (x : ascii) (a b : string) :
  String x a +:+ b = String x (a +:+ b).
Proof. reflexivity. Qed.

Lemma app_assoc (a b c : string) : (a +:+ b) +:+ c = a +:+ (b +:+ c).
Proof.
  induction a as [|x a IH]; [done|]. rewrite !app_cons. by rewrite IH.
Qed.

Lemma app_nil_r (a : string) : a +:+ "" = a.
Proof.
  induction a as [|x a IH]; [done|]. rewrite app_cons. by rewrite IH.
Qed.

Lemma app_length (a b : string) :
  String.length (a +:+ b) = (String.length a + String.length b)%nat.
Proof.
  induction a as [|x a IH]; [done|]. rewrite app_cons. cbn. by rewrite IH.
Qed.

Lemma strip_prefix_Some (p s r : string) :
  strip_prefix p s = Some r ↔ s = p +:+ r.
Proof.
  revert s. induction p as [|a p IH]; intros s; cbn.
  - split; [by intros [= ->]|by intros ->].
  - destruct s as [|b s]; [done|]. case_decide as Hab.
    + subst b. rewrite IH, app_cons. split; [by intros ->|by intros [= ->]].
    + split; [done|]. rewrite app_cons. intros [= ? ?]. congruence.
Qed.

Lemma strip_prefix_app (p r : string) : strip_prefix p (p +:+ r) = Some r.
Proof. by apply strip_prefix_Some. Qed.

Lemma span_app (f : ascii → bool) (a r : string) :
  all f a = true → stops f r = true → span f (a +:+ r) = (a, r).
Proof.
  intros Ha Hr. induction a as [|c a IH].
  - rewrite app_nil_l. destruct r as [|c r]; [done|]. cbn in *.
    by destruct (f c).
  - cbn in Ha. apply andb_true_iff in Ha as [Hc Ha].
    rewrite app_cons. cbn. by rewrite Hc, (IH Ha).
Qed.

Lemma span_stops (f : ascii → bool) (s : string) :
  stops f s = true → span f s = ("", s).
Proof. intros H. by apply (span_app f "" s). Qed.

Lemma span_spec (f : ascii → bool) (s : string) :
  s = (span f s).1 +:+ (span f s).2 ∧
  all f (span f s).1 = true ∧ stops f (span f s).2 = true.
Proof.
  induction s as [|c s (IH1 & IH2 & IH3)]; [done|]. cbn.
  destruct (f c) eqn:Hc.
  - destruct (span f s) as [a b]; cbn in *. rewrite app_cons, Hc, IH2.
    by rewrite <- IH1.
  - cbn. by rewrite Hc.
Qed.

End StrFacts.

(** ** The monad *)

Lemma bind_run {A B : Type} (m : M A) (f : A → M B) (w : World) :
  (m ≫= f) w =
  match m w with
  | (w', inr x) => f x w'
  | (w', inl e) => (w', inl e)
  end.
Proof. reflexivity. Qed.

Lemma emit_nil (w : World) : emit [] w = w.
Proof. destruct w. unfold emit. cbn. by rewrite app_nil_r. Qed.

Lemma emit_emit (a b : list event) (w : World) :
  emit b (emit a w) = emit (a ++ b) w.
Proof. unfold emit. cbn. by rewrite app_assoc. Qed.

Lemma read_time_run (file_name path : string) (w : World) :
  read_time file_name path w =
  (emit [EvOpen path] w, read_result (files w) file_name path).
Proof.
  unfold read_time, read_result, extract_time, extract_error.
  rewrite bind_run. unfold open_read, float_, raise, lift, log.
  destruct (files w !! path) as [[text| | | |]|]; try done.
  cbn. by destruct (re_search text).
Qed.

Section RunsFacts.
Context (name path : Z → string).

Let body : float → Z → M float :=
  λ execution_time run,
    t ← read_time (name run) (path run); mret (fadd execution_time t).

Lemma for_fold_runs (rs : list Z) (acc : float) (w : World) :
  for_fold rs acc body w =
  (emit (EvOpen <$> opened (files w) name path rs) w,
   sum_times (files w) name path rs acc).
Proof.
  revert acc w. induction rs as [|r rs IH]; intros acc w; cbn.
  - by rewrite emit_nil.
  - rewrite bind_run. unfold body at 1. rewrite bind_run, read_time_run.
    destruct (read_result (files w) (name r) (path r)) as [e|t]; [done|].
    cbn. rewrite IH. cbn. by rewrite emit_emit.
Qed.
End RunsFacts.

Section LengthsFacts.
Context (algo : string) (compute : Z → M DataFrame).
Context (den : gmap string node → Z → list string * (exn + DataFrame)).
Hypothesis compute_run : ∀ s w,
  compute s w = (emit (EvOpen <$> (den (files w) s).1) w, (den (files w) s).2).

Lemma length_loop_body_run (s : Z) (w : World) :
  length_loop_body algo compute s w =
  (after_loop algo (den (files w)) [s] w, outcome (den (files w)) [s]).
Proof.
  unfold length_loop_body. rewrite bind_run. cbn [makedirs].
  rewrite bind_run, compute_run.
  unfold after_loop, body_trace, write_summary, print, to_csv, log, emit.
  unfold mbind, M_bind. cbn -[path_prefixes].
  destruct (den (files w) s) as [ps [e|df]] eqn:Hd;
    cbn -[path_prefixes]; rewrite ?Hd; cbn -[path_prefixes];
    rewrite !app_nil_r, <- !app_assoc; reflexivity.
Qed.

Lemma for_each_lengths_run (ls : list Z) (w : World) :
  for_each ls (length_loop_body algo compute) w =
  (after_loop algo (den (files w)) ls w, outcome (den (files w)) ls).
Proof.
  revert w. induction ls as [|s ls IH]; intros w.
  - cbn. unfold after_loop. cbn. destruct w; cbn.
    by rewrite app_nil_r, union_empty_r_L.
  - cbn [for_each]. rewrite bind_run, length_loop_body_run.
    cbn [outcome attempted completed].
    destruct ((den (files w) s).2) as [e|df] eqn:Hs.
    { unfold after_loop. cbn [attempted completed]. by rewrite Hs. }
    rewrite IH. cbn [files after_loop]. f_equal.
    unfold after_loop. cbn [dirs files tables trace attempted completed].
    rewrite Hs. cbn [foldl].
    rewrite !bind_cons. cbn [mbind list_bind]. rewrite ?app_nil_r, list_to_set_app_L.
    by rewrite <- (assoc_L (∪)), <- app_assoc.
Qed.

Lemma record_with_run (w : World) :
  record_with algo compute w =
  (after_loop algo (den (files w)) sequence_lengths
     (makedirs (OUT_DIR +:+ "/" +:+ algo) w).1,
   outcome (den (files w)) sequence_lengths).
Proof.
  unfold record_with. rewrite bind_run. cbn [makedirs].
  by rewrite for_each_lengths_run.
Qed.
End LengthsFacts.

Lemma for_each_ext {A : Type} (f g : A → M unit) (xs : list A) (w : World) :
  (∀ x w', f x w' = g x w') → for_each xs f w = for_each xs g w.
Proof.
  intros Hfg. revert w. induction xs as [|x xs IH]; intros w; [done|].
  cbn. rewrite !bind_run, Hfg. by destruct (g x w) as [w' [e|[]]].
Qed.

(** ** The serial mode computes [SerialPure.result] *)

Lemma serial_compute_run (s : Z) (w : World) :
  serial_compute s w =
  (emit (EvOpen <$> (SerialPure.result (files w) s).1) w,
   (SerialPure.result (files w) s).2).
Proof.
  unfold serial_compute, Serial.run_body. rewrite bind_run, for_fold_runs.
  unfold SerialPure.result, SerialPure.average_of, average. cbn [fst snd].
  by destruct (sum_times _ _ _ _ _).
Qed.

Lemma serial_length_body_eq (s : Z) (w : World) :
  Serial.length_body s w = length_loop_body Serial.algo serial_compute s w.
Proof.
  unfold Serial.length_body, length_loop_body, serial_compute.
  rewrite !bind_run. destruct (makedirs _ w) as [w1 [e|[]]]; [done|].
  rewrite !bind_run. fold runs.
  by destruct (for_fold runs _ _ w1) as [w2 [e|t]].
Qed.

Lemma record_serial_run (w : World) :
  record_serial w =
  (after_loop Serial.algo (SerialPure.result (files w)) sequence_lengths
     (makedirs (OUT_DIR +:+ "/" +:+ Serial.algo) w).1,
   outcome (SerialPure.result (files w)) sequence_lengths).
Proof.
  rewrite <- (record_with_run _ _ _ serial_compute_run).
  unfold record_serial, record_with. rewrite !bind_run.
  destruct (makedirs _ w) as [w1 [e|[]]]; [done|].
  apply for_each_ext, serial_length_body_eq.
Qed.

(** ** The distributed mode computes [DistributedPure.result] *)

Lemma distributed_count_body_run (s p : Z) (avgs : list float) (w : World) :
  Distributed.count_body s avgs p w =
  (emit (EvOpen <$> opened (files w) (Distributed.file_name s p)
                           (Distributed.input_path s p) runs) w,
   match DistributedPure.average_of (files w) s p with
   | inr avg => inr (avgs ++ [avg])
   | inl e => inl e
   end).
Proof.
  unfold Distributed.count_body, Distributed.run_body.
  rewrite bind_run, for_fold_runs.
  unfold DistributedPure.average_of, average. fold runs.
  by destruct (sum_times _ _ _ _ _).
Qed.

Lemma distributed_counts_run (s : Z) (ps : list Z) (avgs : list float)
    (w : World) :
  for_fold ps avgs (Distributed.count_body s) w =
  (emit (EvOpen <$> DistributedPure.opened_counts (files w) s ps) w,
   DistributedPure.averages (files w) s ps avgs).
Proof.
  revert avgs w. induction ps as [|p ps IH]; intros avgs w; cbn.
  - by rewrite emit_nil.
  - rewrite bind_run, distributed_count_body_run.
    destruct (DistributedPure.average_of (files w) s p) as [e|avg].
    + by rewrite app_nil_r.
    + rewrite IH. cbn. by rewrite emit_emit, fmap_app.
Qed.

Lemma distributed_compute_run (s : Z) (w : World) :
  distributed_compute s w =
  (emit (EvOpen <$> (DistributedPure.result (files w) s).1) w,
   (DistributedPure.result (files w) s).2).
Proof.
  unfold distributed_compute. rewrite bind_run, distributed_counts_run.
  unfold DistributedPure.result. cbn [fst snd].
  by destruct (DistributedPure.averages _ _ _ _).
Qed.

Lemma distributed_length_body_eq (s : Z) (w : World) :
  Distributed.length_body s w =
  length_loop_body Distributed.algo distributed_compute s w.
Proof.
  unfold Distributed.length_body, length_loop_body, distributed_compute.
  rewrite !bind_run. destruct (makedirs _ w) as [w1 [e|[]]]; [done|].
  rewrite !bind_run.
  by destruct (for_fold _ _ _ w1) as [w2 [e|t]].
Qed.

Lemma record_distributed_run (w : World) :
  record_distributed w =
  (after_loop Distributed.algo (DistributedPure.result (files w))
     sequence_lengths
     (makedirs (OUT_DIR +:+ "/" +:+ Distributed.algo) w).1,
   outcome (DistributedPure.result (files w)) sequence_lengths).
Proof.
  rewrite <- (record_with_run _ _ _ distributed_compute_run).
  unfold record_distributed, record_with. rewrite !bind_run.
  destruct (makedirs _ w) as [w1 [e|[]]]; [done|].
  apply for_each_ext, distributed_length_body_eq.
Qed.

(** ** The time extractor *)

Section ExtractorFacts.
Import Str StrFacts.

Lemma digit_not_space (c : ascii) : is_digit c = true → is_space c = false.
Proof. by destruct c as [[] [] [] [] [] [] [] []]. Qed.

Lemma is_dot_eq (c : ascii) : is_dot c = true ↔ c = "."%char.
Proof. split; [|by intros ->]. by destruct c as [[] [] [] [] [] [] [] []]. Qed.

Lemma opt_dot_stops (s : string) :
  stops is_dot s = true → opt_dot s = ("", s).
Proof.
  destruct s as [|c s]; [done|]. cbn. intros Hc.
  destruct (is_dot c) eqn:Hd; [done|].
  unfold opt_dot. destruct c as [[] [] [] [] [] [] [] []]; done.
Qed.

Lemma stops_or_l (f g : ascii → bool) (s : string) :
  stops (λ c, f c || g c) s = true → stops f s = true ∧ stops g s = true.
Proof.
  destruct s as [|c s]; [done|]. cbn.
  destruct (f c), (g c); done.
Qed.

Lemma stops_head (f g : ascii → bool) (a r : string) :
  (∀ c, g c = true → f c = false) → a ≠ "" → all g a = true →
  stops f (a +:+ r) = true.
Proof.
  intros Hgf Ha Hg. destruct a as [|c a]; [done|].
  rewrite app_cons. cbn in *.
  apply andb_true_iff in Hg as [Hc _]. by rewrite (Hgf _ Hc).
Qed.

(** The pattern at the head of a maximal token. *)
Lemma match_here_token (ws ip : string) (frac : option string) (rest : string) :
  all is_space ws = true → all is_digit ip = true →
  all is_digit (frac_digits frac) = true →
  stops is_space (token ip frac +:+ rest) = true →
  token_ends frac rest = true →
  match_here (ws +:+ token ip frac +:+ rest) =
  {| group0 := ws +:+ token ip frac; group1 := token ip frac |}.
Proof.
  intros Hws Hip Hd Hsp Hend. unfold match_here.
  rewrite (span_app _ _ _ Hws Hsp). unfold token in *.
  rewrite app_assoc. destruct frac as [d|]; cbn in Hd, Hend.
  - rewrite (span_app is_digit ip); [|done|by rewrite app_assoc].
    rewrite !app_assoc. cbn [opt_dot append].
    rewrite app_cons, app_nil_l. cbn [opt_dot].
    by rewrite (span_app _ _ _ Hd Hend).
  - apply stops_or_l in Hend as [Hdig Hdot].
    rewrite app_nil_l, (span_app _ _ _ Hip Hdig), (opt_dot_stops _ Hdot).
    replace (span is_digit rest) with (("", rest) : string * string); [done|].
    symmetry. by apply (span_app is_digit "" rest).
Qed.

Lemma float_of_str_token (ip : string) (frac : option string) :
  all is_digit ip = true → all is_digit (frac_digits frac) = true →
  ip +:+ frac_digits frac ≠ "" →
  float_of_str (token ip frac) =
  inr (float_of_decimal (digits_value 0 (ip +:+ frac_digits frac))
                        (String.length (frac_digits frac))).
Proof.
  intros Hip Hd Hne. unfold float_of_str, token.
  destruct frac as [d|]; cbn [frac_digits] in *.
  - rewrite (span_app is_digit ip ("." +:+ d)) by done.
    rewrite app_cons, app_nil_l. cbn [is_dot andb]. rewrite Hd.
    by rewrite bool_decide_eq_false_2.
  - rewrite app_nil_r in *. rewrite <- (app_nil_r ip) at 1.
    rewrite (span_app is_digit ip "") by done.
    by rewrite decide_False.
Qed.

Lemma first_marker_tail (c : ascii) (pre : string) :
  first_marker (String c pre) → first_marker pre.
Proof.
  intros H a b Hab. apply (H (String c a) b).
  by rewrite !app_cons, Hab.
Qed.

(** Two texts that share a beginning: the shorter head is a prefix of
    the longer. *)
Lemma app_eq_prefix (a x b y : string) :
  a +:+ x = b +:+ y → (String.length b ≤ String.length a)%nat →
  ∃ c, a = b +:+ c.
Proof.
  revert a. induction b as [|k b IH]; intros a Heq Hlen.
  - by exists a.
  - destruct a as [|k' a]; [cbn in Hlen; lia|].
    rewrite !app_cons in Heq. injection Heq as -> Heq.
    destruct (IH a Heq) as [c ->]; [cbn in Hlen; lia|]. by exists c.
Qed.

Lemma re_search_eq (text : string) :
  re_search text =
  match strip_prefix marker text with
  | Some rest => Some (match_here rest)
  | None =>
      match text with
      | EmptyString => None
      | String _ t => re_search t
      end
  end.
Proof. by destruct text. Qed.

Lemma re_search_first (pre rest : string) :
  first_marker pre →
  re_search (pre +:+ marker +:+ rest) = Some (match_here rest).
Proof.
  induction pre as [|c pre IH]; intros Hfirst.
  - by rewrite app_nil_l, re_search_eq, strip_prefix_app.
  - rewrite app_cons, re_search_eq.
    destruct (strip_prefix marker _) as [r|] eqn:Hr.
    + exfalso. apply strip_prefix_Some in Hr.
      rewrite <- app_cons, <- app_assoc in Hr.
      destruct (app_eq_prefix _ _ _ _ Hr) as [b Hb].
      { rewrite app_length. lia. }
      assert (b = "") as -> by (apply (Hfirst "" b); by rewrite app_nil_l).
      apply (f_equal String.length) in Hb.
      rewrite app_nil_r, app_length in Hb. cbn in Hb. lia.
    + apply IH. by eapply first_marker_tail.
Qed.

Lemma re_search_occurs (text : string) :
  occurs marker text ↔ ∃ m, re_search text = Some m.
Proof.
  split.
  - intros (a & b & ->). induction a as [|c a IH].
    + rewrite app_nil_l. exists (match_here b).
      by rewrite re_search_eq, strip_prefix_app.
    + rewrite app_cons, re_search_eq.
      destruct (strip_prefix marker _); eauto.
  - intros [m Hm]. induction text as [|c text IH].
    + cbn in Hm. done.
    + rewrite re_search_eq in Hm.
      destruct (strip_prefix marker (String c text)) as [r|] eqn:Hr.
      * apply strip_prefix_Some in Hr. exists "", r.
        by rewrite app_nil_l.
      * destruct (IH Hm) as (a & b & ->). exists (String c a), b.
        by rewrite app_cons.
Qed.

End ExtractorFacts.

Section ExtractorClaims.
Import Str StrFacts.

Lemma early_marker_S (s : string) (n : nat) :
  early_marker s (S n) =
  match strip_prefix marker s with
  | Some _ => true
  | None =>
      match s with
      | EmptyString => false
      | String _ t => early_marker t n
      end
  end.
Proof. reflexivity. Qed.

(** A test for [first_marker] that computes. *)
Lemma first_marker_test (pre : string) :
  early_marker (pre +:+ marker) (String.length pre) = false →
  first_marker pre.
Proof.
  intros Hem a. revert pre Hem. induction a as [|c a IH]; intros pre Hem b Hab.
  - rewrite app_nil_l in Hab. destruct pre as [|k pre].
    + apply (f_equal String.length) in Hab.
      rewrite app_nil_l, app_length in Hab. destruct b; [done|]. cbn in Hab. lia.
    + cbn [String.length] in Hem.
      by rewrite early_marker_S, Hab, strip_prefix_app in Hem.
  - destruct pre as [|k pre].
    + apply (f_equal String.length) in Hab.
      rewrite app_nil_l, app_cons in Hab. cbn [String.length] in Hab.
      rewrite !app_length in Hab. lia.
    + cbn [String.length] in Hem. rewrite early_marker_S in Hem.
      destruct (strip_prefix marker _); [done|].
      rewrite app_cons in Hem, Hab. rewrite app_cons in Hab.
      injection Hab as -> Hab. by apply (IH pre).
Qed.

Lemma token_stops_space (ip : string) (frac : option string) (rest : string) :
  all is_digit ip = true → ip +:+ frac_digits frac ≠ "" →
  stops is_space (token ip frac +:+ rest) = true.
Proof.
  intros Hip Hne. unfold token. destruct ip as [|c ip].
  - destruct frac as [d|]; [|done].
    by rewrite app_nil_l, app_cons.
  - rewrite !app_cons. cbn in *. apply andb_true_iff in Hip as [Hc _].
    by rewrite (digit_not_space _ Hc).
Qed.

(** C1 (amended).  When the first occurrence of the marker is followed
    by whitespace [ws] and a numeric token with at least one digit that
    the following text does not extend, the extractor returns the
    binary64 number nearest to the decimal the token denotes.  In
    particular a first marker followed by [" 12.5"] and no further digit
    yields 12.5, which is exactly 25/2. *)
Theorem extract_time_first_token (file_name pre ws ip : string)
    (frac : option string) (rest : string) :
  first_marker pre →
  all is_space ws = true →
  all is_digit ip = true →
  all is_digit (frac_digits frac) = true →
  ip +:+ frac_digits frac ≠ "" →
  token_ends frac rest = true →
  extract_time file_name (pre +:+ marker +:+ ws +:+ token ip frac +:+ rest) =
    inr (float_of_decimal (digits_value 0 (ip +:+ frac_digits frac))
                          (String.length (frac_digits frac)))
  ∧ (∀ rest', stops is_digit rest' = true →
       extract_time file_name (pre +:+ "Total time taken: 12.5" +:+ rest')
       = inr f12_5)
  ∧ float_exact f12_5 25 2.
Proof.
  intros Hfirst Hws Hip Hd Hne Hend.
  assert (∀ ws ip frac rest,
    all is_space ws = true → all is_digit ip = true →
    all is_digit (frac_digits frac) = true →
    ip +:+ frac_digits frac ≠ "" → token_ends frac rest = true →
    extract_time file_name (pre +:+ marker +:+ ws +:+ token ip frac +:+ rest) =
    inr (float_of_decimal (digits_value 0 (ip +:+ frac_digits frac))
                          (String.length (frac_digits frac)))) as Hgen.
  { clear - Hfirst. intros ws0 ip0 frac0 rest0 Hws Hip Hd Hne Hend.
    unfold extract_time. rewrite (re_search_first _ _ Hfirst).
    rewrite match_here_token; try done; [|by apply token_stops_space].
    cbn [group1]. by apply float_of_str_token. }
  split; [by apply Hgen|]. split; [|done].
  intros rest' Hrest.
  by apply (Hgen " " "12" (Some "5") rest').
Qed.

Lemma extract_time_first_token_witness :
  extract_time "serial-L100-R1.out"
    "LCS Total: 7. Total time taken: 0.25 seconds" =
  inr (S754_finite false 4503599627370496 (-54)).
Proof.
  refine (proj1 (extract_time_first_token "serial-L100-R1.out"
            "LCS Total: 7. " " " "0" (Some "25") " seconds" _ _ _ _ _ _)).
  - apply first_marker_test. vm_compute. reflexivity.
  - reflexivity.
  - reflexivity.
  - reflexivity.
  - discriminate.
  - reflexivity.
Defined.

(** C1 as stated fails, in two ways.  A text may contain the marker
    followed by [" 12.5"] and still have an earlier marker with no number
    after it: the extractor stops at the earlier one.  And a token that is
    not empty need not have a digit: after the first marker, a lone
    decimal point is captured and cannot be converted. *)
Lemma extract_time_later_marker_fails :
  ¬ (∀ file_name text,
       occurs "Total time taken: 12.5" text →
       extract_time file_name text = inr f12_5)
  ∧ ¬ (∀ file_name pre ws ip frac rest,
         first_marker pre →
         all is_space ws = true → all is_digit ip = true →
         all is_digit (frac_digits frac) = true →
         token ip frac ≠ "" →
         token_ends frac rest = true →
         ∃ v, extract_time file_name
                (pre +:+ marker +:+ ws +:+ token ip frac +:+ rest) = inr v).
Proof.
  split.
  - intros H.
    specialize (H "f" "Total time taken:Total time taken: 12.5").
    assert (extract_time "f" "Total time taken:Total time taken: 12.5"
            = inl (float_error "")) as Hrun by (vm_compute; reflexivity).
    rewrite Hrun in H. discriminate H.
    by exists "Total time taken:", "".
  - intros H.
    destruct (H "f" "" " " "" (Some "") " s") as [v Hv];
      [apply first_marker_test; vm_compute; reflexivity
      |reflexivity|reflexivity|reflexivity|discriminate|reflexivity|].
    vm_compute in Hv. discriminate Hv.
Qed.
End ExtractorClaims.

Section NoDigitClaims.
Import Str StrFacts.

Lemma all_app (f : ascii → bool) (a b : string) :
  all f (a +:+ b) = all f a && all f b.
Proof.
  induction a as [|c a IH]; [done|]. rewrite app_cons. cbn.
  by rewrite IH, andb_assoc.
Qed.

Lemma not_digit_stops (s : string) :
  all not_digit s = true → stops is_digit s = true.
Proof.
  destruct s as [|c s]; [done|]. cbn. unfold not_digit.
  by intros [? _]%andb_true_iff.
Qed.

Lemma span_not_digit (s : string) :
  all not_digit s = true → span is_digit s = ("", s).
Proof. intros H. by apply (span_app is_digit "" s), not_digit_stops. Qed.

(** C3 (amended).  When no digit follows the first occurrence of the
    marker, the search still succeeds.  The captured token is a lone
    decimal point exactly when a point follows the marker and its
    whitespace; otherwise it is the empty string.  The file then fails at
    the conversion to a float, with that function's message, and never
    with the message of the matching step. *)
Theorem search_without_digits (file_name pre after : string) :
  first_marker pre →
  all not_digit after = true →
  ∃ m, re_search (pre +:+ marker +:+ after) = Some m
     ∧ (group1 m = "" ∨ group1 m = ".")
     ∧ (group1 m = "." ↔
        ∃ ws rest, all is_space ws = true ∧ after = ws +:+ String "." rest)
     ∧ (stops is_dot (span is_space after).2 = true → group1 m = "")
     ∧ extract_time file_name (pre +:+ marker +:+ after)
       = inl (float_error (group1 m))
     ∧ extract_time file_name (pre +:+ marker +:+ after)
       ≠ inl (extract_error file_name).
Proof.
  intros Hfirst Hnd. exists (match_here after).
  split; [by apply re_search_first|].
  unfold extract_time. rewrite (re_search_first _ _ Hfirst).
  unfold match_here.
  destruct (span_spec is_space after) as (Hsplit & Hws & Hstop).
  destruct (span is_space after) as [ws s1] eqn:Hspan. cbn [fst snd] in *.
  assert (all not_digit s1 = true) as Hs1.
  { rewrite Hsplit, all_app in Hnd. by apply andb_true_iff in Hnd as [_ ?]. }
  assert (∀ ws' rest', all is_space ws' = true →
            after = ws' +:+ String "." rest' → s1 = String "." rest')
    as Hpoint.
  { intros ws' rest' Hws' Hafter. rewrite Hafter, span_app in Hspan by done.
    congruence. }
  rewrite (span_not_digit _ Hs1).
  destruct s1 as [|c r].
  - cbn. split; [by left|]. split; [|done]. split; [done|].
    intros (ws' & rest' & Hws' & Hafter).
    by specialize (Hpoint _ _ Hws' Hafter).
  - destruct (is_dot c) eqn:Hc.
    + apply is_dot_eq in Hc as ->. cbn [opt_dot].
      assert (all not_digit r = true) as Hr.
      { by cbn in Hs1. }
      rewrite (span_not_digit _ Hr). cbn.
      split; [by right|]. split; [|done]. split; [|done].
      intros _. by exists ws, r.
    + rewrite opt_dot_stops by (cbn; by rewrite Hc).
      rewrite (span_not_digit _ Hs1). cbn.
      split; [by left|]. split; [|done]. split; [done|].
      intros (ws' & rest' & Hws' & Hafter).
      specialize (Hpoint _ _ Hws' Hafter). injection Hpoint as -> _.
      discriminate Hc.
Qed.

Lemma search_without_digits_witness :
  (∃ m, re_search "run 3 done. Total time taken:   n/a" = Some m
      ∧ group1 m = ""
      ∧ extract_time "serial-L100-R3.out" "run 3 done. Total time taken:   n/a"
        = inl (ValueError "could not convert string to float: ''"))
  ∧ (∃ m, re_search "Total time taken: . s" = Some m ∧ group1 m = ".").
Proof.
  split.
  - destruct (search_without_digits "serial-L100-R3.out" "run 3 done. " "   n/a")
      as (m & Hm & _ & _ & Hempty & Herr & _).
    + apply first_marker_test. vm_compute. reflexivity.
    + reflexivity.
    + exists m. split; [exact Hm|]. split; [apply Hempty; reflexivity|].
      etransitivity; [exact Herr|]. rewrite (Hempty eq_refl). reflexivity.
  - destruct (search_without_digits "serial-L100-R3.out" "" " . s")
      as (m & Hm & _ & Hpoint & _).
    + apply first_marker_test. vm_compute. reflexivity.
    + reflexivity.
    + exists m. split; [exact Hm|]. apply Hpoint. by exists " ", " s".
Defined.

(** C3 as stated fails: after the marker, a decimal point with no digit
    is captured, so the match is not the empty string. *)
Lemma search_lone_point_not_empty :
  ¬ (∀ text,
       occurs marker text → all not_digit text = true →
       ∃ m, re_search text = Some m ∧ group1 m = "").
Proof.
  intros H.
  destruct (H "Total time taken: .") as (m & Hm & Hg).
  - by exists "", " .".
  - reflexivity.
  - vm_compute in Hm. injection Hm as <-. discriminate Hg.
Qed.
End NoDigitClaims.

(** ** The sum, the durations and the first failure *)

Section RunsPureFacts.
Context (fs : gmap string node) (name path : Z → string).

Lemma sum_times_durations (rs : list Z) (acc : float) :
  sum_times fs name path rs acc =
  match durations fs name path rs with
  | inr ds => inr (foldl fadd acc ds)
  | inl e => inl e
  end.
Proof.
  revert acc. induction rs as [|r rs IH]; intros acc; [done|]. cbn.
  destruct (read_result fs (name r) (path r)) as [e|t]; [done|].
  rewrite IH. by destruct (durations fs name path rs).
Qed.

Lemma durations_Forall2 (rs : list Z) (ds : list float) :
  durations fs name path rs = inr ds ↔
  Forall2 (λ r d, read_result fs (name r) (path r) = inr d) rs ds.
Proof.
  revert ds. induction rs as [|r rs IH]; intros ds; cbn.
  - split; [intros [= <-]; constructor|by intros ->%Forall2_nil_inv_l].
  - split.
    + destruct (read_result fs (name r) (path r)) as [e|t] eqn:Hr; [done|].
      destruct (durations fs name path rs) as [e|ts]; [done|].
      intros [= <-]. constructor; [done|]. by apply IH.
    + intros (d & ds' & Hd & Hds & ->)%Forall2_cons_inv_l.
      rewrite Hd. apply IH in Hds. by rewrite Hds.
Qed.

Lemma average_mean (rs : list Z) (a : float) :
  average fs name path rs = inr a ↔
  ∃ ds, Forall2 (λ r d, read_result fs (name r) (path r) = inr d) rs ds
        ∧ a = mean ds.
Proof.
  unfold average. rewrite sum_times_durations. split.
  - destruct (durations fs name path rs) as [e|ds] eqn:Hds; [done|].
    intros [= <-]. exists ds. split; [by apply durations_Forall2|done].
  - intros (ds & Hds%durations_Forall2 & ->). by rewrite Hds.
Qed.

Lemma average_failure (rs : list Z) :
  match average fs name path rs with inr _ => inr tt | inl e => inl e end =
  first_failure fs ((λ r, (name r, path r)) <$> rs).
Proof.
  unfold average. generalize (S754_zero false).
  induction rs as [|r rs IH]; intros acc; [done|]. cbn.
  destruct (read_result fs (name r) (path r)) as [e|t]; [done|]. apply IH.
Qed.
End RunsPureFacts.

Lemma first_failure_app (fs : gmap string node) (a b : list (string * string)) :
  first_failure fs (a ++ b) =
  match first_failure fs a with
  | inr _ => first_failure fs b
  | inl e => inl e
  end.
Proof.
  induction a as [|[n p] a IH]; [done|]. cbn.
  by destruct (read_result fs n p).
Qed.

Lemma bind_singleton_fmap {A B : Type} (g : A → B) (l : list A) :
  (x ← l; [g x]) = g <$> l.
Proof. induction l as [|x l IH]; [done|]. cbn. by rewrite IH. Qed.

(** A failure, and where it comes from: the files before it are fine. *)
Lemma first_failure_inl (fs : gmap string node)
    (req : list (string * string)) (e : exn) :
  first_failure fs req = inl e ↔
  ∃ before name path after,
    req = before ++ (name, path) :: after
    ∧ Forall (λ f, ∃ t, read_result fs f.1 f.2 = inr t) before
    ∧ read_result fs name path = inl e.
Proof.
  induction req as [|[n p] req IH]; cbn.
  - split; [done|]. intros (before & ? & ? & ? & H & _). by destruct before.
  - destruct (read_result fs n p) as [e'|t] eqn:Hnp.
    + split.
      * intros [= ->]. exists [], n, p, req. by repeat split.
      * intros ([|[n' p'] before] & name & path & after & Heq & Hall & He).
        -- injection Heq as -> -> ->. congruence.
        -- injection Heq as -> -> ->. apply Forall_cons in Hall as [[t Ht] _].
           cbn in Ht. congruence.
    + rewrite IH. split.
      * intros (before & name & path & after & -> & Hall & He).
        exists ((n, p) :: before), name, path, after.
        repeat split; [|done]. constructor; [by exists t|done].
      * intros ([|[n' p'] before] & name & path & after & Heq & Hall & He).
        -- injection Heq as -> -> ->. congruence.
        -- injection Heq as -> -> ->. apply Forall_cons in Hall as [_ Hall].
           by exists before, name, path, after.
Qed.

Lemma first_failure_inr (fs : gmap string node) (req : list (string * string)) :
  first_failure fs req = inr tt ↔
  Forall (λ f, ∃ t, read_result fs f.1 f.2 = inr t) req.
Proof.
  induction req as [|[n p] req IH]; cbn.
  - split; [constructor|done].
  - destruct (read_result fs n p) as [e'|t] eqn:Hnp.
    + split; [done|]. intros [[t Ht] _]%Forall_cons. cbn in Ht. congruence.
    + rewrite IH. split; [|by intros [_ ?]%Forall_cons].
      intros H. constructor; [by exists t|done].
Qed.


(** How one file fails. *)
Lemma read_result_inl (fs : gmap string node) (name path : string) (e : exn) :
  read_result fs name path = inl e ↔
  (∃ e0, read_node path (fs !! path) = inl e0 ∧ e = e0)
  ∨ (∃ text, fs !! path = Some (Text text) ∧ ¬ Str.occurs marker text
             ∧ e = extract_error name)
  ∨ (∃ text m, fs !! path = Some (Text text) ∧ re_search text = Some m
               ∧ float_of_str (group1 m) = inl e).
Proof.
  unfold read_result, extract_time.
  destruct (fs !! path) as [[text| | | |]|]; cbn [read_node];
    [|split;
      [intros [= <-]; left; by eexists
      |intros [(e0 & [= <-] & ->)|[(t & ? & _)|(t & m' & ? & _)]]; done]..].
  - destruct (re_search text) as [m|] eqn:Hm.
    + split.
      * intros He. right. right. by exists text, m.
      * intros [(? & ? & _)|[(t & [= <-] & Hno & _)
                            |(t & m' & [= <-] & Hm' & He)]].
        -- done.
        -- destruct Hno. apply re_search_occurs. by exists m.
        -- congruence.
    + split.
      * intros [= <-]. right. left. exists text.
        split; [done|]. split; [|done].
        intros [m Hm']%re_search_occurs. congruence.
      * intros [(? & ? & _)|[(t & [= <-] & _ & ->)
                            |(t & m' & [= <-] & Hm' & _)]].
        -- done.
        -- done.
        -- congruence.
Qed.

(** ** The loop over the sequence lengths, as a function of the files *)

Section LoopPureFacts.
Context (algo : string) (result : Z → list string * (exn + DataFrame)).

Let ok (s : Z) : Prop := ∃ df, (result s).2 = inr df.
Let write (t : gmap string Csv) (s : Z) : gmap string Csv :=
  write_summary algo result s t.

Lemma outcome_inr (ls : list Z) :
  outcome result ls = inr tt ↔ Forall ok ls.
Proof.
  induction ls as [|s ls IH]; cbn.
  - split; [constructor|done].
  - destruct ((result s).2) as [e|df] eqn:Hs.
    + split; [done|]. intros [[df Hdf] _]%Forall_cons. congruence.
    + rewrite IH. split; [|by intros [_ ?]%Forall_cons].
      intros H. constructor; [by exists df|done].
Qed.

Lemma completed_all (ls : list Z) : Forall ok ls → completed result ls = ls.
Proof.
  induction 1 as [|s ls [df Hs] _ IH]; cbn; [done|]. by rewrite Hs, IH.
Qed.

Lemma attempted_all (ls : list Z) : Forall ok ls → attempted result ls = ls.
Proof.
  induction 1 as [|s ls [df Hs] _ IH]; cbn; [done|]. by rewrite Hs, IH.
Qed.

Lemma loop_stops (before : list Z) (s : Z) (after : list Z) (e : exn) :
  Forall ok before → (result s).2 = inl e →
  outcome result (before ++ s :: after) = inl e
  ∧ completed result (before ++ s :: after) = before
  ∧ attempted result (before ++ s :: after) = before ++ [s].
Proof.
  intros Hok He. induction Hok as [|s' before [df Hs'] _ IH]; cbn.
  - by rewrite He.
  - rewrite Hs'. destruct IH as (-> & -> & ->). done.
Qed.

(** A loop that fails has a first sequence length that fails. *)
Lemma outcome_inl (ls : list Z) (e : exn) :
  outcome result ls = inl e →
  ∃ before s after,
    ls = before ++ s :: after ∧ Forall ok before ∧ (result s).2 = inl e.
Proof.
  induction ls as [|s ls IH]; cbn; [done|].
  destruct ((result s).2) as [e'|df] eqn:Hs.
  - intros [= ->]. exists [], s, ls. by repeat split.
  - intros (before & s' & after & -> & Hok & He)%IH.
    exists (s :: before), s', after. repeat split; [|done].
    constructor; [by exists df|done].
Qed.

Lemma first_bad (ls : list Z) (s : Z) (e : exn) :
  s ∈ ls → (result s).2 = inl e →
  ∃ before s' after e',
    ls = before ++ s' :: after ∧ Forall ok before ∧ (result s').2 = inl e'
    ∧ s ∈ s' :: after.
Proof.
  intros Hin He. induction ls as [|x ls IH]; [by apply elem_of_nil in Hin|].
  destruct ((result x).2) as [e'|df] eqn:Hx.
  - exists [], x, ls, e'. by repeat split.
  - apply elem_of_cons in Hin as [->|Hin]; [congruence|].
    destruct (IH Hin) as (before & s' & after & e' & -> & Hok & He' & Hs).
    exists (x :: before), s', after, e'. repeat split; [|done..].
    constructor; [by exists df|done].
Qed.

Lemma tables_untouched (ls : list Z) (t : gmap string Csv) (p : string) :
  (∀ s, s ∈ ls → out_path_of algo s ≠ p) →
  foldl write t ls !! p = t !! p.
Proof.
  revert t. induction ls as [|s ls IH]; intros t Hne; [done|]. cbn.
  rewrite IH by (intros s' Hs'; apply Hne; by right).
  unfold write, write_summary. destruct ((result s).2); [done|].
  apply lookup_insert_ne, Hne. by left.
Qed.

Lemma tables_written (ls : list Z) (t : gmap string Csv) (s : Z)
    (df : DataFrame) :
  (∀ s', s' ∈ ls → out_path_of algo s' = out_path_of algo s → s' = s) →
  s ∈ ls → (result s).2 = inr df →
  foldl write t ls !! out_path_of algo s = Some (csv_of df).
Proof.
  intros Hinj Hin Hs. revert t.
  induction ls as [|x ls IH] using rev_ind; intros t;
    [by apply elem_of_nil in Hin|].
  rewrite foldl_app. cbn. unfold write at 1, write_summary.
  destruct (decide (x = s)) as [->|Hx].
  - rewrite Hs. apply lookup_insert_eq.
  - assert (s ∈ ls) as Hin'.
    { apply elem_of_app in Hin as [?|Hin]; [done|].
      apply list_elem_of_singleton in Hin. congruence. }
    assert (out_path_of algo x ≠ out_path_of algo s) as Hp.
    { intros Heq. apply Hx, Hinj; [|done]. apply elem_of_app. right.
      by apply list_elem_of_singleton. }
    destruct ((result x).2); [|rewrite lookup_insert_ne by done];
      apply IH; try done; intros s' Hs'; apply Hinj, elem_of_app; by left.
Qed.
End LoopPureFacts.

(** ** The two modes *)

Ltac in_list H :=
  repeat (apply elem_of_cons in H as [->|H]); [..|by apply elem_of_nil in H].

Lemma serial_out_path_inj (s s' : Z) :
  s ∈ sequence_lengths → s' ∈ sequence_lengths →
  out_path_of Serial.algo s = out_path_of Serial.algo s' → s = s'.
Proof.
  intros Hs Hs' Heq. unfold sequence_lengths in *.
  in_list Hs; in_list Hs'; try reflexivity; vm_compute in Heq; discriminate Heq.
Qed.

Lemma distributed_out_path_inj (s s' : Z) :
  s ∈ sequence_lengths → s' ∈ sequence_lengths →
  out_path_of Distributed.algo s = out_path_of Distributed.algo s' → s = s'.
Proof.
  intros Hs Hs' Heq. unfold sequence_lengths in *.
  in_list Hs; in_list Hs'; try reflexivity; vm_compute in Heq; discriminate Heq.
Qed.

Lemma serial_result_inr (fs : gmap string node) (s : Z) (df : DataFrame) :
  (SerialPure.result fs s).2 = inr df ↔
  ∃ ds, Forall2 (λ r d, read_result fs (Serial.file_name s r)
                                    (Serial.input_path s r) = inr d) runs ds
        ∧ df = SerialPure.frame (mean ds).
Proof.
  unfold SerialPure.result, SerialPure.average_of. cbn [snd]. split.
  - destruct (average _ _ _ _) as [e|avg] eqn:Havg; [done|].
    intros [= <-]. apply average_mean in Havg as (ds & Hds & ->). eauto.
  - intros (ds & Hds & ->).
    assert (average fs (Serial.file_name s) (Serial.input_path s) runs
            = inr (mean ds)) as -> by (apply average_mean; eauto).
    done.
Qed.

Lemma distributed_averages (fs : gmap string node) (s : Z) (ps : list Z)
    (acc avgs : list float) :
  DistributedPure.averages fs s ps acc = inr avgs ↔
  ∃ l, avgs = acc ++ l
       ∧ Forall2 (λ p a, DistributedPure.average_of fs s p = inr a) ps l.
Proof.
  revert acc. induction ps as [|p ps IH]; intros acc; cbn.
  - split.
    + intros [= <-]. exists []. by rewrite app_nil_r.
    + intros (l & -> & ->%Forall2_nil_inv_l). by rewrite app_nil_r.
  - destruct (DistributedPure.average_of fs s p) as [e|a] eqn:Hp.
    + split; [done|].
      intros (l & _ & (a & l' & Ha & _ & _)%Forall2_cons_inv_l). congruence.
    + rewrite IH. split.
      * intros (l & -> & Hl). exists (a :: l).
        split; [by rewrite <- app_assoc|by constructor].
      * intros (l & -> & (a' & l' & Ha & Hl' & ->)%Forall2_cons_inv_l).
        exists l'. split; [|done]. rewrite <- app_assoc.
        by replace a' with a by congruence.
Qed.

Lemma distributed_result_inr (fs : gmap string node) (s : Z) (df : DataFrame) :
  (DistributedPure.result fs s).2 = inr df ↔
  ∃ avgs,
    Forall2 (λ p a, DistributedPure.average_of fs s p = inr a)
            Distributed.process_counts avgs
    ∧ df = DistributedPure.frame avgs.
Proof.
  unfold DistributedPure.result. cbn [snd]. split.
  - destruct (DistributedPure.averages _ _ _ _) as [e|avgs] eqn:Havgs; [done|].
    intros [= <-]. apply distributed_averages in Havgs as (l & -> & Hl).
    by exists l.
  - intros (avgs & Havgs & ->).
    assert (DistributedPure.averages fs s Distributed.process_counts [] = inr avgs)
      as -> by (apply distributed_averages; by exists avgs).
    done.
Qed.

(** What a successful run leaves behind. *)
Lemma serial_success (w : World) (s : Z) :
  (record_serial w).2 = inr tt → s ∈ sequence_lengths →
  ∃ df, (SerialPure.result (files w) s).2 = inr df
        ∧ tables (record_serial w).1 !! out_path_of Serial.algo s
          = Some (csv_of df).
Proof.
  rewrite record_serial_run. cbn [fst snd after_loop tables].
  intros Hok%outcome_inr Hs.
  destruct (proj1 (Forall_forall _ _) Hok s Hs) as [df Hdf].
  exists df. split; [done|]. rewrite completed_all by done.
  apply tables_written; try done.
  intros s' Hs' Heq. by apply serial_out_path_inj.
Qed.

Lemma distributed_success (w : World) (s : Z) :
  (record_distributed w).2 = inr tt → s ∈ sequence_lengths →
  ∃ df, (DistributedPure.result (files w) s).2 = inr df
        ∧ tables (record_distributed w).1 !! out_path_of Distributed.algo s
          = Some (csv_of df).
Proof.
  rewrite record_distributed_run. cbn [fst snd after_loop tables].
  intros Hok%outcome_inr Hs.
  destruct (proj1 (Forall_forall _ _) Hok s Hs) as [df Hdf].
  exists df. split; [done|]. rewrite completed_all by done.
  apply tables_written; try done.
  intros s' Hs' Heq. by apply distributed_out_path_inj.
Qed.

Lemma sample_serial_ok : (record_serial sample_world).2 = inr tt.
Proof. vm_compute. reflexivity. Qed.

Lemma sample_distributed_ok : (record_distributed sample_world).2 = inr tt.
Proof. vm_compute. reflexivity. Qed.

(** ** The report emitter *)

Lemma distributed_frame_rows (avgs : list float) :
  length avgs = 4%nat →
  ∃ a1 a2 a4 a8,
    avgs = [a1; a2; a4; a8]
    ∧ csv_of (DistributedPure.frame avgs) =
      {| header := ["n_processes"; "avg_execution_time"];
         rows := [[CInt 1; CFloat a1]; [CInt 2; CFloat a2];
                  [CInt 4; CFloat a4]; [CInt 8; CFloat a8]] |}.
Proof.
  intros Hlen. destruct avgs as [|a1 [|a2 [|a4 [|a8 [|]]]]]; try done.
  by exists a1, a2, a4, a8.
Qed.

(** C8.  After a successful run of a mode, the summary of every sequence
    length is stored at [data/<mode>/L<size>/<mode>-L<size>.csv]: a header
    row and the data rows.  The serial table has the one column
    [avg_execution_time] and one row; the distributed table has the
    columns [n_processes] and [avg_execution_time] and one row for each
    of the process counts 1, 2, 4, 8, in this order. *)
Theorem summary_persisted (w : World) (s : Z) :
  s ∈ sequence_lengths →
  ((record_serial w).2 = inr tt →
   ∃ avg,
     tables (record_serial w).1
       !! ("data/serial/L" +:+ str s +:+ "/serial-L" +:+ str s +:+ ".csv")
     = Some {| header := ["avg_execution_time"]; rows := [[CFloat avg]] |})
  ∧ ((record_distributed w).2 = inr tt →
     ∃ a1 a2 a4 a8,
       tables (record_distributed w).1
         !! ("data/distributed/L" +:+ str s +:+ "/distributed-L" +:+ str s
             +:+ ".csv")
       = Some {| header := ["n_processes"; "avg_execution_time"];
                 rows := [[CInt 1; CFloat a1]; [CInt 2; CFloat a2];
                          [CInt 4; CFloat a4]; [CInt 8; CFloat a8]] |}).
Proof.
  intros Hs. split; intros Hok.
  - destruct (serial_success w s Hok Hs) as (df & Hdf & Htab).
    apply serial_result_inr in Hdf as (ds & _ & ->).
    exists (mean ds).
    replace (_ +:+ _) with (out_path_of Serial.algo s); [by rewrite Htab|].
    unfold out_path_of, out_dir_of. by rewrite !StrFacts.app_assoc.
  - destruct (distributed_success w s Hok Hs) as (df & Hdf & Htab).
    apply distributed_result_inr in Hdf as (avgs & Havgs & ->).
    destruct (distributed_frame_rows avgs) as (a1 & a2 & a4 & a8 & _ & Hcsv).
    { by rewrite <- (Forall2_length _ _ _ Havgs). }
    exists a1, a2, a4, a8. rewrite <- Hcsv.
    replace (_ +:+ _) with (out_path_of Distributed.algo s); [by rewrite Htab|].
    unfold out_path_of, out_dir_of. by rewrite !StrFacts.app_assoc.
Qed.

Lemma summary_persisted_witness :
  (∃ avg,
     tables (record_serial sample_world).1 !! "data/serial/L1000/serial-L1000.csv"
     = Some {| header := ["avg_execution_time"]; rows := [[CFloat avg]] |})
  ∧ (∃ a1 a2 a4 a8,
       tables (record_distributed sample_world).1
         !! "data/distributed/L1000/distributed-L1000.csv"
       = Some {| header := ["n_processes"; "avg_execution_time"];
                 rows := [[CInt 1; CFloat a1]; [CInt 2; CFloat a2];
                          [CInt 4; CFloat a4]; [CInt 8; CFloat a8]] |}).
Proof.
  assert (1000 ∈ sequence_lengths) as Hs by (right; left).
  destruct (summary_persisted sample_world 1000 Hs) as [Hser Hdis].
  split.
  - apply Hser. vm_compute. reflexivity.
  - apply Hdis. vm_compute. reflexivity.
Defined.

(** ** The aggregator *)

Lemma runs_eq : runs = [1; 2; 3; 4; 5; 6; 7; 8].
Proof. reflexivity. Qed.

(** The row of a process count in the distributed table. *)
Lemma distributed_row (P : Z → float → Prop) (avgs : list float) (i : nat) (p : Z) :
  Forall2 P Distributed.process_counts avgs →
  Distributed.process_counts !! i = Some p →
  ∃ a, P p a
       ∧ rows (csv_of (DistributedPure.frame avgs)) !! i
         = Some [CInt p; CFloat a].
Proof.
  intros HF Hi. pose proof (Forall2_length _ _ _ HF) as Hlen.
  destruct avgs as [|a1 [|a2 [|a4 [|a8 [|]]]]]; try done.
  unfold Distributed.process_counts in *.
  apply Forall2_cons in HF as [H1 HF]. apply Forall2_cons in HF as [H2 HF].
  apply Forall2_cons in HF as [H4 HF]. apply Forall2_cons in HF as [H8 _].
  destruct i as [|[|[|[|i]]]]; cbn in Hi; try done;
    injection Hi as <-; eexists; (split; [eassumption|reflexivity]).
Qed.

(** C4.  In a successful run every reported average is the arithmetic
    mean of exactly the eight durations extracted from the files of the
    runs 1..8 of its configuration: their sum, accumulated from 0.0 in the
    order of the runs, divided by 8.0; no duration is left out.  For the
    durations 1.0, ..., 8.0 the average is exactly 4.5 = 9/2. *)
Theorem average_of_eight_runs (w : World) (s : Z) :
  s ∈ sequence_lengths →
  ((record_serial w).2 = inr tt →
   ∃ ds, length ds = 8%nat
     ∧ Forall2 (λ r d, read_result (files w) (Serial.file_name s r)
                                   (Serial.input_path s r) = inr d)
               [1; 2; 3; 4; 5; 6; 7; 8] ds
     ∧ tables (record_serial w).1 !! out_path_of Serial.algo s
       = Some {| header := ["avg_execution_time"];
                 rows := [[CFloat (fdiv (foldl fadd (S754_zero false) ds)
                                        (float_of_int 8))]] |})
  ∧ (∀ i p, Distributed.process_counts !! i = Some p →
     (record_distributed w).2 = inr tt →
     ∃ ds csv, length ds = 8%nat
       ∧ Forall2 (λ r d, read_result (files w) (Distributed.file_name s p r)
                                     (Distributed.input_path s p r) = inr d)
                 [1; 2; 3; 4; 5; 6; 7; 8] ds
       ∧ tables (record_distributed w).1 !! out_path_of Distributed.algo s
         = Some csv
       ∧ rows csv !! i
         = Some [CInt p; CFloat (fdiv (foldl fadd (S754_zero false) ds)
                                      (float_of_int 8))])
  ∧ fdiv (foldl fadd (S754_zero false)
                (float_of_int <$> [1; 2; 3; 4; 5; 6; 7; 8]))
         (float_of_int 8) = f4_5
  ∧ float_exact f4_5 9 2.
Proof.
  intros Hs. split; [|split; [|split; [by vm_compute|done]]].
  - intros Hok. destruct (serial_success w s Hok Hs) as (df & Hdf & Htab).
    apply serial_result_inr in Hdf as (ds & Hds & ->).
    exists ds. split; [by rewrite <- (Forall2_length _ _ _ Hds)|].
    split; [done|]. by rewrite Htab.
  - intros i p Hi Hok.
    destruct (distributed_success w s Hok Hs) as (df & Hdf & Htab).
    apply distributed_result_inr in Hdf as (avgs & Havgs & ->).
    destruct (distributed_row _ _ i p Havgs Hi) as (a & Ha & Hrow).
    apply average_mean in Ha as (ds & Hds & ->).
    exists ds, (csv_of (DistributedPure.frame avgs)).
    split; [by rewrite <- (Forall2_length _ _ _ Hds)|]. by repeat split.
Qed.

Lemma average_of_eight_runs_witness :
  (∃ ds, length ds = 8%nat
     ∧ tables (record_serial sample_world).1 !! out_path_of Serial.algo 100
       = Some {| header := ["avg_execution_time"];
                 rows := [[CFloat (fdiv (foldl fadd (S754_zero false) ds)
                                        (float_of_int 8))]] |})
  ∧ (∃ ds csv, length ds = 8%nat
       ∧ tables (record_distributed sample_world).1
           !! out_path_of Distributed.algo 100 = Some csv
       ∧ rows csv !! 1%nat
         = Some [CInt 2; CFloat (fdiv (foldl fadd (S754_zero false) ds)
                                      (float_of_int 8))]).
Proof.
  assert (100 ∈ sequence_lengths) as Hs by left.
  assert ((record_serial sample_world).2 = inr tt) as Hok1
    by (vm_compute; reflexivity).
  assert ((record_distributed sample_world).2 = inr tt) as Hok2
    by (vm_compute; reflexivity).
  pose proof (average_of_eight_runs sample_world 100 Hs) as (Hser & Hdis & _).
  specialize (Hser Hok1). specialize (Hdis 1%nat 2 eq_refl Hok2).
  destruct Hser as (ds & Hlen & _ & Htab).
  destruct Hdis as (ds' & csv & Hlen' & _ & Htab' & Hrow).
  split.
  - exists ds. split; [exact Hlen|exact Htab].
  - exists ds', csv. split; [exact Hlen'|]. split; [exact Htab'|exact Hrow].
Defined.

(** ** Independence of the configurations *)

Lemma average_ext (fs1 fs2 : gmap string node) (name path : Z → string)
    (rs : list Z) :
  (∀ r, r ∈ rs → fs1 !! path r = fs2 !! path r) →
  average fs1 name path rs = average fs2 name path rs.
Proof.
  intros Hext. unfold average. generalize (S754_zero false).
  induction rs as [|r rs IH]; intros acc; [done|]. cbn.
  unfold read_result. rewrite (Hext r) by left.
  destruct (read_node (path r) (fs2 !! path r)) as [e|text]; [done|].
  destruct (extract_time (name r) text); [done|].
  apply IH. intros r' Hr'. apply Hext. by right.
Qed.

Lemma average_constant (fs : gmap string node) (name path : Z → string)
    (text : string) (t : float) :
  (∀ r, r ∈ runs → fs !! path r = Some (Text text)) →
  (∀ r, extract_time (name r) text = inr t) →
  average fs name path runs = inr (mean (replicate 8 t)).
Proof.
  intros Hfs Ht. apply average_mean. exists (replicate 8 t). split; [|done].
  rewrite runs_eq in *. unfold read_result.
  repeat (constructor; [rewrite Hfs by set_solver; apply Ht|]). constructor.
Qed.

(** ** The file locator *)

(** C7.  The path of a result file is built from the mode, the sequence
    length, the parallelism degree (absent in serial mode) and the run
    index alone, by string concatenation, in the form
    [output/<mode>/L<len>/<mode>-L<len>[-<letter><degree>]-R<run>.out]
    with the letter [T] in parallel and [P] in distributed mode.  It is a
    function of these values: it does not look at the file system, and
    equal inputs give the same string.  The paths of the files that the
    serial and the distributed run read are pairwise distinct. *)
Theorem locator_matches_grammar (sequence_length degree run : Z) :
  Serial.input_path sequence_length run
    = locator_grammar "output" ModeSerial sequence_length None run
  ∧ Parallel.input_path sequence_length degree run
    = locator_grammar "output" ModeParallel sequence_length (Some degree) run
  ∧ Distributed.input_path sequence_length degree run
    = locator_grammar "output" ModeDistributed sequence_length (Some degree) run
  ∧ Serial.input_path 100 3 = "output/serial/L100/serial-L100-R3.out"
  ∧ Parallel.input_path 10000 2 1
    = "output/parallel/L10000/parallel-L10000-T2-R1.out"
  ∧ Distributed.input_path 1000 4 8
    = "output/distributed/L1000/distributed-L1000-P4-R8.out"
  ∧ NoDup (SerialPure.required.*2 ++ DistributedPure.required.*2).
Proof.
  unfold Serial.input_path, Parallel.input_path, Distributed.input_path,
    input_path_of, locator_grammar,
    Serial.file_name, Parallel.file_name, Distributed.file_name.
  cbn [mode_name degree_letter].
  do 6 (split; [rewrite ?StrFacts.app_assoc; reflexivity|]).
  apply (bool_decide_unpack _). vm_compute. reflexivity.
Qed.

(** ** Failures *)

Section TokenFacts.
Import Str StrFacts.

(** What the pattern captures is always a numeric token. *)
Lemma match_here_group1 (s : string) :
  ∃ ip frac,
    group1 (match_here s) = token ip frac
    ∧ all is_digit ip = true ∧ all is_digit (frac_digits frac) = true.
Proof.
  unfold match_here. destruct (span is_space s) as [ws s1].
  destruct (span_spec is_digit s1) as (_ & Hd1 & Hstop).
  destruct (span is_digit s1) as [d1 s2]. cbn [fst snd] in *.
  destruct s2 as [|c r].
  - exists d1, None. cbn. unfold token. by rewrite !app_nil_l.
  - destruct (is_dot c) eqn:Hc.
    + apply is_dot_eq in Hc as ->. cbn [opt_dot].
      destruct (span_spec is_digit r) as (_ & Hd2 & _).
      destruct (span is_digit r) as [d2 s4]. cbn [fst snd] in *.
      by exists d1, (Some d2).
    + rewrite opt_dot_stops by (cbn; by rewrite Hc).
      rewrite (span_stops is_digit (String c r)) by done.
      exists d1, None. cbn. unfold token. by rewrite !app_nil_l.
Qed.

Lemma float_of_str_inl (ip : string) (frac : option string) (e : exn) :
  all is_digit ip = true → all is_digit (frac_digits frac) = true →
  float_of_str (token ip frac) = inl e ↔
  (token ip frac = "" ∨ token ip frac = ".") ∧ e = float_error (token ip frac).
Proof.
  intros Hip Hd. destruct (decide (ip +:+ frac_digits frac = "")) as [He|Hne].
  - assert (ip = "") as -> by (by destruct ip).
    rewrite app_nil_l in He.
    destruct frac as [d|]; cbn in He; [subst d|]; cbn.
    + split; [intros [= <-]; split; [by right|done]|by intros [_ ->]].
    + split; [intros [= <-]; split; [by left|done]|by intros [_ ->]].
  - rewrite float_of_str_token by done. split; [done|].
    intros [[Htok|Htok] _]; destruct Hne; unfold token in Htok.
    + destruct ip; [|done]. by destruct frac.
    + destruct ip as [|c ip].
      * destruct frac as [d|]; [|done]. rewrite app_nil_l in Htok.
        by destruct d.
      * rewrite app_cons in Htok. injection Htok as -> Htok.
        cbn in Hip. done.
Qed.
End TokenFacts.

(** How one file fails: it is missing or cannot be read; or the marker
    does not occur in it; or the token after the first marker has no
    digit. *)
Lemma read_result_failure (fs : gmap string node) (name path : string) (e : exn) :
  read_result fs name path = inl e ↔ bad_file fs name path e.
Proof.
  rewrite read_result_inl. split.
  - intros [(e0 & He0 & ->)|[(text & Hf & Hno & ->)|(text & m & Hf & Hm & He)]].
    { destruct (fs !! path) as [[text| | | |]|] eqn:Hf; cbn in He0;
        simplify_eq; by constructor. }
    { by apply (bad_no_marker _ _ _ text). }
    cut ((group1 m = "" ∨ group1 m = ".") ∧ e = float_error (group1 m)).
    { intros [Hg ->]. by apply (bad_no_digit _ _ _ text m). }
    assert (∃ rest, m = match_here rest) as [rest ->].
    { clear -Hm. induction text as [|c text IH].
      - cbn in Hm. done.
      - rewrite re_search_eq in Hm.
        destruct (Str.strip_prefix marker (String c text)) as [r|].
        + injection Hm as <-. by exists r.
        + by apply IH. }
    destruct (match_here_group1 rest) as (ip & frac & Htok & Hip & Hd).
    rewrite Htok in *. by apply float_of_str_inl in He.
  - intros [Hf|Hf|Hf|Hf|Hf|text Hf Hno|text m Hf Hm Hg].
    1-5: left; eexists; split; [by rewrite Hf|done].
    + right. left. by exists text.
    + right. right. exists text, m. do 2 (split; [done|]).
      by destruct Hg as [-> | ->].
Qed.

Lemma serial_outcome (fs : gmap string node) (ls : list Z) :
  outcome (SerialPure.result fs) ls =
  first_failure fs
    (s ← ls; r ← runs; [(Serial.file_name s r, Serial.input_path s r)]).
Proof.
  induction ls as [|s ls IH]; [done|].
  rewrite bind_cons, first_failure_app, bind_singleton_fmap.
  rewrite <- (average_failure fs (Serial.file_name s) (Serial.input_path s)).
  cbn [outcome]. unfold SerialPure.result at 1, SerialPure.average_of.
  cbn [snd]. by destruct (average _ _ _ _).
Qed.

Lemma distributed_averages_failure (fs : gmap string node) (s : Z)
    (ps : list Z) (acc : list float) :
  match DistributedPure.averages fs s ps acc with
  | inr _ => inr tt
  | inl e => inl e
  end =
  first_failure fs
    (p ← ps; r ← runs;
     [(Distributed.file_name s p r, Distributed.input_path s p r)]).
Proof.
  revert acc. induction ps as [|p ps IH]; intros acc; [done|].
  rewrite bind_cons, first_failure_app, bind_singleton_fmap.
  rewrite <- (average_failure fs (Distributed.file_name s p)
                                 (Distributed.input_path s p)).
  cbn [DistributedPure.averages]. unfold DistributedPure.average_of.
  destruct (average _ _ _ _); [done|]. apply IH.
Qed.

Lemma distributed_outcome (fs : gmap string node) (ls : list Z) :
  outcome (DistributedPure.result fs) ls =
  first_failure fs
    (s ← ls; p ← Distributed.process_counts; r ← runs;
     [(Distributed.file_name s p r, Distributed.input_path s p r)]).
Proof.
  induction ls as [|s ls IH]; [done|].
  rewrite bind_cons, first_failure_app.
  rewrite <- (distributed_averages_failure fs s _ []).
  cbn [outcome]. unfold DistributedPure.result at 1. cbn [snd].
  by destruct (DistributedPure.averages _ _ _ _).
Qed.

Lemma record_serial_files (w : World) : files (record_serial w).1 = files w.
Proof. by rewrite record_serial_run. Qed.

Lemma record_distributed_files (w : World) :
  files (record_distributed w).1 = files w.
Proof. by rewrite record_distributed_run. Qed.



Section AverageFailure.
Context (fs : gmap string node) (name path : Z → string).

Lemma average_bad (rs : list Z) (r : Z) (e0 : exn) :
  r ∈ rs → read_result fs (name r) (path r) = inl e0 →
  ∃ e, average fs name path rs = inl e.
Proof.
  intros Hr Hbad. pose proof (average_failure fs name path rs) as Hff.
  destruct (average fs name path rs) as [e|a]; [by exists e|].
  symmetry in Hff. apply first_failure_inr in Hff.
  assert ((name r, path r) ∈ (λ r, (name r, path r)) <$> rs) as Hin.
  { apply list_elem_of_fmap. by exists r. }
  destruct (proj1 (Forall_forall _ _) Hff _ Hin) as [t Ht]. cbn in Ht.
  congruence.
Qed.

Lemma average_inl (rs : list Z) (e : exn) :
  average fs name path rs = inl e →
  ∃ r, r ∈ rs ∧ read_result fs (name r) (path r) = inl e.
Proof.
  intros Havg. pose proof (average_failure fs name path rs) as Hff.
  rewrite Havg in Hff. symmetry in Hff.
  apply first_failure_inl in Hff
    as (before & n & p & after & Heq & _ & Hbad).
  assert ((n, p) ∈ (λ r, (name r, path r)) <$> rs) as Hin.
  { rewrite Heq. apply elem_of_app. right. by left. }
  apply list_elem_of_fmap in Hin as (r & [= -> ->] & Hr). by exists r.
Qed.
End AverageFailure.

Lemma serial_result_bad (fs : gmap string node) (s r : Z) (e0 : exn) :
  r ∈ runs →
  read_result fs (Serial.file_name s r) (Serial.input_path s r) = inl e0 →
  ∃ e, (SerialPure.result fs s).2 = inl e.
Proof.
  intros Hr Hbad. unfold SerialPure.result, SerialPure.average_of. cbn [snd].
  destruct (average_bad fs _ _ runs r e0 Hr Hbad) as [e ->]. by exists e.
Qed.

Lemma serial_result_inl (fs : gmap string node) (s : Z) (e : exn) :
  (SerialPure.result fs s).2 = inl e →
  ∃ r, r ∈ runs
       ∧ read_result fs (Serial.file_name s r) (Serial.input_path s r) = inl e.
Proof.
  unfold SerialPure.result, SerialPure.average_of. cbn [snd].
  destruct (average _ _ _ _) as [e'|a] eqn:Havg; [|done].
  intros [= ->]. by apply average_inl in Havg.
Qed.

Lemma distributed_averages_bad (fs : gmap string node) (s : Z) (ps : list Z)
    (acc : list float) (p : Z) (e0 : exn) :
  p ∈ ps → DistributedPure.average_of fs s p = inl e0 →
  ∃ e, DistributedPure.averages fs s ps acc = inl e.
Proof.
  intros Hp Hbad.
  destruct (DistributedPure.averages fs s ps acc) as [e|avgs] eqn:Havgs;
    [by exists e|].
  apply distributed_averages in Havgs as (l & _ & HF).
  apply list_elem_of_lookup in Hp as [i Hi].
  destruct (Forall2_lookup_l _ _ _ _ _ HF Hi) as (a & _ & Ha). congruence.
Qed.

Lemma distributed_averages_inl (fs : gmap string node) (s : Z) (ps : list Z)
    (acc : list float) (e : exn) :
  DistributedPure.averages fs s ps acc = inl e →
  ∃ p, p ∈ ps ∧ DistributedPure.average_of fs s p = inl e.
Proof.
  revert acc. induction ps as [|p ps IH]; intros acc; cbn; [done|].
  destruct (DistributedPure.average_of fs s p) as [e'|a] eqn:Hp.
  - intros [= ->]. exists p. split; [by left|done].
  - intros (p' & Hp' & Hbad)%IH. exists p'. split; [by right|done].
Qed.

Lemma distributed_result_bad (fs : gmap string node) (s p r : Z) (e0 : exn) :
  p ∈ Distributed.process_counts → r ∈ runs →
  read_result fs (Distributed.file_name s p r) (Distributed.input_path s p r)
  = inl e0 →
  ∃ e, (DistributedPure.result fs s).2 = inl e.
Proof.
  intros Hp Hr Hbad. unfold DistributedPure.result. cbn [snd].
  destruct (average_bad fs _ _ runs r e0 Hr Hbad) as [e1 He1].
  destruct (distributed_averages_bad fs s Distributed.process_counts [] p e1 Hp He1)
    as [e ->].
  by exists e.
Qed.

Lemma distributed_result_inl (fs : gmap string node) (s : Z) (e : exn) :
  (DistributedPure.result fs s).2 = inl e →
  ∃ p r, p ∈ Distributed.process_counts ∧ r ∈ runs
         ∧ read_result fs (Distributed.file_name s p r)
                          (Distributed.input_path s p r) = inl e.
Proof.
  unfold DistributedPure.result. cbn [snd].
  destruct (DistributedPure.averages _ _ _ _) as [e'|a] eqn:Havgs; [|done].
  intros [= ->]. apply distributed_averages_inl in Havgs as (p & Hp & Havg).
  apply average_inl in Havg as (r & Hr & Hbad). by exists p, r.
Qed.

Section LoopFailureFacts.
Context (algo : string) (result : Z → list string * (exn + DataFrame)).
Context (ls : list Z).
Hypothesis ls_nodup : NoDup ls.
Hypothesis out_path_inj : ∀ x y,
  x ∈ ls → y ∈ ls → out_path_of algo x = out_path_of algo y → x = y.

Let write (t : gmap string Csv) (s : Z) : gmap string Csv :=
  write_summary algo result s t.

Lemma split_untouched (before : list Z) (s : Z) (after : list Z)
    (t : gmap string Csv) (x : Z) :
  ls = before ++ s :: after → x ∈ s :: after →
  foldl write t before !! out_path_of algo x = t !! out_path_of algo x.
Proof.
  intros Hls Hx. apply tables_untouched. intros y Hy Heq.
  assert (y = x) as ->.
  { apply out_path_inj; [| |done]; rewrite Hls; apply elem_of_app; auto. }
  rewrite Hls in ls_nodup. apply NoDup_app in ls_nodup as (_ & Hdisj & _).
  by apply (Hdisj x).
Qed.

Lemma split_written (before : list Z) (s : Z) (after : list Z)
    (t : gmap string Csv) (x : Z) (df : DataFrame) :
  ls = before ++ s :: after → x ∈ before → (result x).2 = inr df →
  foldl write t before !! out_path_of algo x = Some (csv_of df).
Proof.
  intros Hls Hx Hdf. apply tables_written; [|done..].
  intros y Hy Heq. apply out_path_inj; [| |done];
    rewrite Hls; apply elem_of_app; auto.
Qed.

(** A sequence length with a bad file: the loop fails and the summary
    of that length is not written. *)
Lemma bad_length_untouched (t : gmap string Csv) (s : Z) (e0 : exn) :
  s ∈ ls → (result s).2 = inl e0 →
  ∃ e, outcome result ls = inl e
       ∧ foldl write t (completed result ls) !! out_path_of algo s
         = t !! out_path_of algo s.
Proof.
  intros Hs Hbad.
  destruct (first_bad result ls s e0 Hs Hbad)
    as (before & s' & after & e & Hls & Hok & He & Hin).
  destruct (loop_stops result before s' after e Hok He) as (Hout & Hcomp & _).
  exists e. rewrite Hls at 1 2. rewrite Hout, Hcomp. split; [done|].
  by eapply split_untouched.
Qed.
End LoopFailureFacts.

Lemma sequence_lengths_nodup : NoDup sequence_lengths.
Proof. apply (bool_decide_unpack _). by vm_compute. Qed.

(** The exception of a failed run is that of its first bad file. *)
Lemma first_failure_bad (fs : gmap string node)
    (req : list (string * string)) (e : exn) :
  first_failure fs req = inl e →
  ∃ before name path after,
    req = before ++ (name, path) :: after
    ∧ Forall (λ f, ∃ t, read_result fs f.1 f.2 = inr t) before
    ∧ bad_file fs name path e.
Proof.
  intros (before & name & path & after & Hreq & Hall & He)%first_failure_inl.
  exists before, name, path, after. split; [done|]. split; [done|].
  by apply read_result_failure.
Qed.

(** C5 (amended).  When one of the eight result files of a configuration
    is bad (missing, not readable as text, without the marker, or with a
    token without digits after the first marker), the run of that mode
    ends with an exception.  The exception is that of the first bad
    required file in the order of processing, which need not be the file
    in question, and its kind follows the defect of that file:
    [FileNotFoundError] for a missing file, the exception of [open] or
    [read] for one that cannot be read, the [ValueError] of the matching
    step or of the float conversion otherwise.  The summary of the
    sequence length of the bad file is not written: what is stored at its
    path is what was there before the run. *)
Theorem bad_file_no_summary (w : World) (s : Z) :
  s ∈ sequence_lengths →
  (∀ r e0, r ∈ runs →
     bad_file (files w) (Serial.file_name s r) (Serial.input_path s r) e0 →
     ∃ e before name path after,
       (record_serial w).2 = inl e
       ∧ SerialPure.required = before ++ (name, path) :: after
       ∧ Forall (λ f, ∃ t, read_result (files w) f.1 f.2 = inr t) before
       ∧ bad_file (files w) name path e
       ∧ tables (record_serial w).1 !! out_path_of Serial.algo s
         = tables w !! out_path_of Serial.algo s)
  ∧ (∀ p r e0, p ∈ Distributed.process_counts → r ∈ runs →
       bad_file (files w) (Distributed.file_name s p r)
                (Distributed.input_path s p r) e0 →
       ∃ e before name path after,
         (record_distributed w).2 = inl e
         ∧ DistributedPure.required = before ++ (name, path) :: after
         ∧ Forall (λ f, ∃ t, read_result (files w) f.1 f.2 = inr t) before
         ∧ bad_file (files w) name path e
         ∧ tables (record_distributed w).1 !! out_path_of Distributed.algo s
           = tables w !! out_path_of Distributed.algo s).
Proof.
  intros Hs. split.
  - intros r e0 Hr Hbad%read_result_failure.
    destruct (serial_result_bad _ _ _ _ Hr Hbad) as [e1 He1].
    destruct (bad_length_untouched Serial.algo (SerialPure.result (files w))
                sequence_lengths sequence_lengths_nodup serial_out_path_inj
                (tables w) s e1 Hs He1) as (e & Hout & Htab).
    rewrite serial_outcome in Hout.
    destruct (first_failure_bad _ _ _ Hout)
      as (before & name & path & after & Hreq & Hall & He).
    exists e, before, name, path, after.
    rewrite record_serial_run. cbn [fst snd after_loop tables].
    rewrite serial_outcome.
    split; [exact Hout|]. split; [exact Hreq|]. split; [exact Hall|].
    split; [exact He|exact Htab].
  - intros p r e0 Hp Hr Hbad%read_result_failure.
    destruct (distributed_result_bad _ _ _ _ _ Hp Hr Hbad) as [e1 He1].
    destruct (bad_length_untouched Distributed.algo
                (DistributedPure.result (files w))
                sequence_lengths sequence_lengths_nodup distributed_out_path_inj
                (tables w) s e1 Hs He1) as (e & Hout & Htab).
    rewrite distributed_outcome in Hout.
    destruct (first_failure_bad _ _ _ Hout)
      as (before & name & path & after & Hreq & Hall & He).
    exists e, before, name, path, after.
    rewrite record_distributed_run. cbn [fst snd after_loop tables].
    rewrite distributed_outcome.
    split; [exact Hout|]. split; [exact Hreq|]. split; [exact Hall|].
    split; [exact He|exact Htab].
Qed.

Lemma bad_file_no_summary_witness :
  ∃ e name path,
    (record_distributed sample_world_missing).2 = inl e
    ∧ bad_file (files sample_world_missing) name path e
    ∧ tables (record_distributed sample_world_missing).1
        !! out_path_of Distributed.algo 1000 = None.
Proof.
  assert (1000 ∈ sequence_lengths) as Hs by (right; left).
  assert (4 ∈ Distributed.process_counts) as Hp by (right; right; left).
  assert (5 ∈ runs) as Hr by (do 4 right; left).
  assert (files sample_world_missing !! Distributed.input_path 1000 4 5 = None)
    as Hnone by (vm_compute; reflexivity).
  pose proof (proj2 (bad_file_no_summary sample_world_missing 1000 Hs)
                4 5 _ Hp Hr
                (bad_missing _ (Distributed.file_name 1000 4 5) _ Hnone)) as H.
  destruct H as (e & before & name & path & after & He & _ & _ & Hbad & Htab).
  exists e, name, path. split; [exact He|]. split; [exact Hbad|exact Htab].
Defined.

(** C5 as stated fails: when a required file is missing, the run does not
    end with the error of the extraction step but with
    [FileNotFoundError]. *)
Lemma missing_file_raises_file_not_found :
  ¬ (∀ w s p r e0,
       s ∈ sequence_lengths → p ∈ Distributed.process_counts → r ∈ runs →
       read_result (files w) (Distributed.file_name s p r)
                   (Distributed.input_path s p r) = inl e0 →
       ∃ file_name, (record_distributed w).2 = inl (extract_error file_name)).
Proof.
  intros H.
  assert ((record_distributed sample_world_missing).2
          = inl (FileNotFoundError
                   "output/distributed/L1000/distributed-L1000-P4-R5.out"))
    as Hrun by (vm_compute; reflexivity).
  destruct (H sample_world_missing 1000 4 5
              (FileNotFoundError (Distributed.input_path 1000 4 5)))
    as [file_name Hf].
  - right; left.
  - right; right; left.
  - do 4 right; left.
  - vm_compute. reflexivity.
  - rewrite Hrun in Hf. discriminate Hf.
Qed.

(** ** Partial results *)

Section FailedLoop.
Context (algo : string) (result : Z → list string * (exn + DataFrame)).
Context (ls : list Z).
Hypothesis ls_nodup : NoDup ls.
Hypothesis out_path_inj : ∀ x y,
  x ∈ ls → y ∈ ls → out_path_of algo x = out_path_of algo y → x = y.

Lemma failed_loop_split (t : gmap string Csv) (e : exn) :
  outcome result ls = inl e →
  ∃ before s after,
    ls = before ++ s :: after
    ∧ (result s).2 = inl e
    ∧ attempted result ls = before ++ [s]
    ∧ (∀ x, x ∈ before →
         ∃ df, (result x).2 = inr df
               ∧ foldl (λ t s, write_summary algo result s t) t
                       (completed result ls) !! out_path_of algo x
                 = Some (csv_of df))
    ∧ (∀ x, x ∈ s :: after →
         foldl (λ t s, write_summary algo result s t) t
               (completed result ls) !! out_path_of algo x
         = t !! out_path_of algo x).
Proof.
  intros (before & s & after & Hls & Hok & He)%outcome_inl.
  destruct (loop_stops result before s after e Hok He) as (_ & Hcomp & Hatt).
  rewrite <- Hls in Hcomp, Hatt.
  exists before, s, after. rewrite Hcomp, Hatt.
  do 3 (split; [done|]). split.
  - intros x Hx. destruct (proj1 (Forall_forall _ _) Hok x Hx) as [df Hdf].
    exists df. split; [done|]. by eapply split_written.
  - intros x Hx. by eapply split_untouched.
Qed.
End FailedLoop.

(** C6 (amended).  A run that fails stops at the first sequence length
    with a bad file, with the exception of that file: nothing is retried
    and no value is substituted.  The summaries of that sequence length
    and of all later ones are not written.  The summaries of the earlier
    sequence lengths have been written before, and each of their averages
    is over all eight runs. *)
Theorem failed_run_keeps_earlier_summaries (w : World) (e : exn) :
  ((record_serial w).2 = inl e →
   ∃ before s after r,
     sequence_lengths = before ++ s :: after ∧ r ∈ runs
     ∧ read_result (files w) (Serial.file_name s r) (Serial.input_path s r)
       = inl e
     ∧ (∀ x, x ∈ before →
          ∃ ds, length ds = 8%nat
            ∧ Forall2 (λ r d, read_result (files w) (Serial.file_name x r)
                                          (Serial.input_path x r) = inr d)
                      runs ds
            ∧ tables (record_serial w).1 !! out_path_of Serial.algo x
              = Some (csv_of (SerialPure.frame (mean ds))))
     ∧ (∀ x, x ∈ s :: after →
          tables (record_serial w).1 !! out_path_of Serial.algo x
          = tables w !! out_path_of Serial.algo x))
  ∧ ((record_distributed w).2 = inl e →
     ∃ before s after p r,
       sequence_lengths = before ++ s :: after
       ∧ p ∈ Distributed.process_counts ∧ r ∈ runs
       ∧ read_result (files w) (Distributed.file_name s p r)
                     (Distributed.input_path s p r) = inl e
       ∧ (∀ x, x ∈ before →
            ∃ csv,
              tables (record_distributed w).1 !! out_path_of Distributed.algo x
              = Some csv
              ∧ ∀ i q, Distributed.process_counts !! i = Some q →
                  ∃ ds, length ds = 8%nat
                    ∧ Forall2 (λ r d,
                         read_result (files w) (Distributed.file_name x q r)
                                     (Distributed.input_path x q r) = inr d)
                              runs ds
                    ∧ rows csv !! i = Some [CInt q; CFloat (mean ds)])
       ∧ (∀ x, x ∈ s :: after →
            tables (record_distributed w).1 !! out_path_of Distributed.algo x
            = tables w !! out_path_of Distributed.algo x)).
Proof.
  split.
  - rewrite record_serial_run. cbn [fst snd after_loop tables]. intros Hout.
    destruct (failed_loop_split Serial.algo (SerialPure.result (files w))
                sequence_lengths sequence_lengths_nodup serial_out_path_inj
                (tables w) e Hout)
      as (before & s & after & Hls & He & _ & Hbefore & Hafter).
    apply serial_result_inl in He as (r & Hr & Hbad).
    exists before, s, after, r. do 3 (split; [done|]). split; [|done].
    intros x Hx. destruct (Hbefore x Hx) as (df & Hdf & Htab).
    apply serial_result_inr in Hdf as (ds & Hds & ->).
    exists ds. split; [by rewrite <- (Forall2_length _ _ _ Hds)|done].
  - rewrite record_distributed_run. cbn [fst snd after_loop tables]. intros Hout.
    destruct (failed_loop_split Distributed.algo
                (DistributedPure.result (files w))
                sequence_lengths sequence_lengths_nodup distributed_out_path_inj
                (tables w) e Hout)
      as (before & s & after & Hls & He & _ & Hbefore & Hafter).
    apply distributed_result_inl in He as (p & r & Hp & Hr & Hbad).
    exists before, s, after, p, r. do 4 (split; [done|]). split; [|done].
    intros x Hx. destruct (Hbefore x Hx) as (df & Hdf & Htab).
    apply distributed_result_inr in Hdf as (avgs & Havgs & ->).
    exists (csv_of (DistributedPure.frame avgs)). split; [done|].
    intros i q Hi.
    destruct (distributed_row _ _ i q Havgs Hi) as (a & Ha & Hrow).
    apply average_mean in Ha as (ds & Hds & ->).
    exists ds. split; [by rewrite <- (Forall2_length _ _ _ Hds)|done].
Qed.

Lemma failed_run_keeps_earlier_summaries_witness :
  ∃ before s after,
    sequence_lengths = before ++ s :: after
    ∧ (∀ x, x ∈ before →
         ∃ csv, tables (record_distributed sample_world_missing).1
                  !! out_path_of Distributed.algo x = Some csv)
    ∧ (∀ x, x ∈ s :: after →
         tables (record_distributed sample_world_missing).1
           !! out_path_of Distributed.algo x = None).
Proof.
  assert ((record_distributed sample_world_missing).2
          = inl (FileNotFoundError (Distributed.input_path 1000 4 5))) as Hrun
    by (vm_compute; reflexivity).
  pose proof (proj2 (failed_run_keeps_earlier_summaries sample_world_missing _)
                Hrun) as H.
  destruct H as (before & s & after & p & r & Hls & _ & _ & _ & Hb & Ha).
  exists before, s, after. split; [exact Hls|]. split.
  - intros x Hx. destruct (Hb x Hx) as (csv & Hcsv & _). by exists csv.
  - intros x Hx. exact (Ha x Hx).
Defined.

(** C6 as stated fails: a run that fails at a later sequence length has
    already written the summary of an earlier one. *)
Lemma failed_run_emits_partial_results :
  ¬ (∀ w e s,
       (record_serial w).2 = inl e → s ∈ sequence_lengths →
       tables (record_serial w).1 !! out_path_of Serial.algo s
       = tables w !! out_path_of Serial.algo s).
Proof.
  intros H.
  assert (100 ∈ sequence_lengths) as Hs by left.
  assert ((record_serial sample_world_short).2
          = inl (FileNotFoundError "output/serial/L1000/serial-L1000-R1.out"))
    as Hrun by (vm_compute; reflexivity).
  specialize (H sample_world_short _ 100 Hrun Hs).
  vm_compute in H. discriminate H.
Qed.

(** ** Directories and the order of the calls *)

Lemma path_prefixes_from_last (acc s : string) :
  acc +:+ s ∈ path_prefixes_from acc s.
Proof.
  revert acc. induction s as [|c s IH]; intros acc; cbn.
  - rewrite StrFacts.app_nil_r. by left.
  - replace (acc +:+ String c s) with ((acc +:+ String c "") +:+ s)
      by (by rewrite StrFacts.app_assoc).
    case_decide as Hc.
    + subst c. right. apply IH.
    + apply IH.
Qed.

Lemma path_prefixes_self (path : string) : path ∈ path_prefixes path.
Proof. apply (path_prefixes_from_last "" path). Qed.

Lemma opened_subset (fs : gmap string node) (name path : Z → string)
    (rs : list Z) (p : string) :
  p ∈ opened fs name path rs → p ∈ path <$> rs.
Proof.
  induction rs as [|r rs IH]; cbn; [done|].
  intros [->|Hp]%elem_of_cons; [by left|]. right.
  destruct (read_result fs (name r) (path r)); [by apply elem_of_nil in Hp|auto].
Qed.

Lemma opened_counts_subset (fs : gmap string node) (s : Z) (ps : list Z)
    (p : string) :
  p ∈ DistributedPure.opened_counts fs s ps →
  p ∈ (q ← ps; Distributed.input_path s q <$> runs).
Proof.
  induction ps as [|q ps IH]; cbn; [done|].
  rewrite elem_of_app. intros [Hp|Hp]; apply elem_of_app.
  - left. by apply opened_subset in Hp.
  - right. destruct (DistributedPure.average_of fs s q);
      [by apply elem_of_nil in Hp|auto].
Qed.

Lemma disjoint_by_decide (l1 l2 : list string) (p : string) :
  bool_decide (Forall (λ p, p ∉ l2) l1) = true → p ∈ l1 → p ∈ l2 → False.
Proof.
  intros H%bool_decide_eq_true_1 H1 H2.
  by apply (proj1 (Forall_forall _ _) H p H1).
Qed.

Lemma serial_paths_inj (s s' : Z) (p : string) :
  s ∈ sequence_lengths → s' ∈ sequence_lengths →
  p ∈ serial_paths s → p ∈ serial_paths s' → s = s'.
Proof.
  intros Hs Hs' Hp Hp'. unfold sequence_lengths in *.
  in_list Hs; in_list Hs'; try reflexivity; exfalso;
    (eapply disjoint_by_decide; [|exact Hp|exact Hp']; vm_compute; reflexivity).
Qed.

Lemma distributed_paths_inj (s s' : Z) (p : string) :
  s ∈ sequence_lengths → s' ∈ sequence_lengths →
  p ∈ distributed_paths s → p ∈ distributed_paths s' → s = s'.
Proof.
  intros Hs Hs' Hp Hp'. unfold sequence_lengths in *.
  in_list Hs; in_list Hs'; try reflexivity; exfalso;
    (eapply disjoint_by_decide; [|exact Hp|exact Hp']; vm_compute; reflexivity).
Qed.

Section TraceFacts.
Context (algo : string) (result : Z → list string * (exn + DataFrame)).
Context (paths : Z → list string) (ls : list Z).
Hypothesis opened_paths : ∀ s p, p ∈ (result s).1 → p ∈ paths s.
Hypothesis paths_inj : ∀ s s' p,
  s ∈ ls → s' ∈ ls → p ∈ paths s → p ∈ paths s' → s = s'.

Lemma body_trace_open (s : Z) (pre : list event) (p : string)
    (post : list event) :
  body_trace algo result s = pre ++ EvOpen p :: post →
  p ∈ (result s).1 ∧ EvMakedirs (out_dir_of algo s) ∈ pre.
Proof.
  unfold body_trace. destruct pre as [|ev pre]; [done|].
  cbn. intros [= <- Heq]. split; [|by left].
  assert (EvOpen p ∈ (EvOpen <$> (result s).1) ++
            match (result s).2 with
            | inl _ => []
            | inr df => [EvPrint df; EvToCsv (out_path_of algo s)]
            end) as Hin.
  { rewrite Heq. apply elem_of_app. right. by left. }
  apply elem_of_app in Hin as [Hin|Hin].
  - apply list_elem_of_fmap in Hin as (q & [= ->] & Hq). done.
  - destruct ((result s).2); [by apply elem_of_nil in Hin|].
    apply elem_of_cons in Hin as [Hin|Hin]; [discriminate Hin|].
    apply elem_of_cons in Hin as [Hin|Hin]; [discriminate Hin|].
    by apply elem_of_nil in Hin.
Qed.

Lemma attempted_subset (l : list Z) (x : Z) :
  x ∈ attempted result l → x ∈ l.
Proof.
  induction l as [|y l IH]; cbn; [done|].
  intros [->|Hx]%elem_of_cons; [by left|]. right.
  destruct ((result y).2); [by apply elem_of_nil in Hx|auto].
Qed.

Lemma loop_trace_open (att : list Z) (pre : list event) (p : string)
    (post : list event) (s : Z) :
  (∀ x, x ∈ att → x ∈ ls) →
  (x ← att; body_trace algo result x) = pre ++ EvOpen p :: post →
  s ∈ ls → p ∈ paths s →
  EvMakedirs (out_dir_of algo s) ∈ pre.
Proof.
  intros Hatt Htr Hs Hp. revert pre Htr.
  induction att as [|x att IH]; intros pre Htr.
  - by destruct pre.
  - rewrite bind_cons in Htr.
    assert (∀ y, y ∈ att → y ∈ ls) as Hatt' by (intros y Hy; apply Hatt; by right).
    apply app_eq_inv in Htr as [(k & Hk & Hrest)|(k & Hk & Hrest)].
    + destruct k as [|ev k].
      * cbn in Hrest. specialize (IH Hatt' [] (eq_sym Hrest)).
        by apply elem_of_nil in IH.
      * cbn in Hrest. injection Hrest as <- _.
        apply body_trace_open in Hk as [Hopen Hmk].
        assert (x = s) as ->; [|done].
        apply (paths_inj x s p); [apply Hatt; by left|done|by apply opened_paths|done].
    + rewrite Hk. apply elem_of_app. right. by apply IH.
Qed.

Lemma attempted_dirs (l : list Z) (x : Z) (d : gset string) :
  x ∈ attempted result l →
  out_dir_of algo x
  ∈ d ∪ list_to_set (s ← attempted result l; path_prefixes (out_dir_of algo s)).
Proof.
  intros Hx. apply elem_of_union. right. apply elem_of_list_to_set.
  apply list_elem_of_bind. exists x. split; [apply path_prefixes_self|done].
Qed.
End TraceFacts.

Section RunDirs.
Context (algo : string) (result : Z → list string * (exn + DataFrame)).
Context (paths : Z → list string).
Hypothesis opened_paths : ∀ s p, p ∈ (result s).1 → p ∈ paths s.
Hypothesis paths_inj : ∀ s s' p,
  s ∈ sequence_lengths → s' ∈ sequence_lengths →
  p ∈ paths s → p ∈ paths s' → s = s'.

Let top : string := OUT_DIR +:+ "/" +:+ algo.
Let final (w : World) : World :=
  after_loop algo result sequence_lengths (makedirs top w).1.

Lemma run_trace (w : World) :
  ∃ tr, trace (final w) = trace w ++ tr ∧ reads_after_dirs algo paths tr.
Proof.
  exists (EvMakedirs top ::
          (x ← attempted result sequence_lengths; body_trace algo result x)).
  split; [unfold final; cbn; by rewrite <- app_assoc|].
  intros s p pre post Hs Hp Htr.
  destruct pre as [|ev pre]; [done|]. cbn in Htr. injection Htr as <- Htr.
  split; [by left|]. right.
  apply (loop_trace_open algo result paths sequence_lengths
           opened_paths paths_inj
           (attempted result sequence_lengths) pre p post s);
    [intros x; apply attempted_subset|exact Htr|exact Hs|exact Hp].
Qed.

Lemma run_dirs_top (w : World) : top ∈ dirs (final w).
Proof.
  unfold final. cbn. apply elem_of_union. left. apply elem_of_union. right.
  apply elem_of_list_to_set, path_prefixes_self.
Qed.

Lemma run_dirs_kept (w : World) : dirs w ⊆ dirs (final w).
Proof.
  unfold final. cbn. intros d Hd. apply elem_of_union. left.
  apply elem_of_union. by left.
Qed.

Lemma run_dirs_attempted (w : World) (s : Z) :
  s ∈ attempted result sequence_lengths → dirs_made algo s (final w).
Proof.
  intros Hs. split; [apply run_dirs_top|].
  unfold final. cbn [after_loop dirs]. by apply attempted_dirs.
Qed.

(** A failed run: the directories of the failing sequence length exist,
    its summary is not written. *)
Lemma run_failed_dirs (w : World) (e : exn) :
  (∀ x y, x ∈ sequence_lengths → y ∈ sequence_lengths →
          out_path_of algo x = out_path_of algo y → x = y) →
  outcome result sequence_lengths = inl e →
  ∃ s, s ∈ sequence_lengths ∧ (result s).2 = inl e
       ∧ dirs_made algo s (final w)
       ∧ tables (final w) !! out_path_of algo s
         = tables w !! out_path_of algo s.
Proof.
  intros Hinj Hout.
  destruct (failed_loop_split algo result sequence_lengths
              sequence_lengths_nodup Hinj (tables w) e Hout)
    as (before & s & after & Hls & He & Hatt & _ & Hafter).
  exists s. split; [rewrite Hls; apply elem_of_app; right; by left|].
  split; [done|]. split.
  - apply run_dirs_attempted. rewrite Hatt. apply elem_of_app. right. by left.
  - unfold final. cbn [after_loop tables makedirs fst log emit].
    apply Hafter. by left.
Qed.

Lemma run_ok_dirs (w : World) (s : Z) :
  outcome result sequence_lengths = inr tt → s ∈ sequence_lengths →
  dirs_made algo s (final w).
Proof.
  intros Hok%outcome_inr Hs. apply run_dirs_attempted.
  by rewrite attempted_all.
Qed.
End RunDirs.

Lemma serial_opened_paths (fs : gmap string node) (s : Z) (p : string) :
  p ∈ (SerialPure.result fs s).1 → p ∈ serial_paths s.
Proof. apply opened_subset. Qed.

Lemma distributed_opened_paths (fs : gmap string node) (s : Z) (p : string) :
  p ∈ (DistributedPure.result fs s).1 → p ∈ distributed_paths s.
Proof. apply opened_counts_subset. Qed.

Lemma makedirs_idempotent (path : string) (w : World) :
  (makedirs path w).2 = inr tt
  ∧ dirs w ⊆ dirs (makedirs path w).1
  ∧ dirs (makedirs path (makedirs path w).1).1 = dirs (makedirs path w).1.
Proof.
  cbn. split; [done|]. split.
  - intros d Hd. apply elem_of_union. by left.
  - by rewrite <- (assoc_L (∪)), (idemp_L (∪)).
Qed.

(** C10.  A run of a mode makes the output directory of the mode, and
    that of a sequence length, before it opens any result file of that
    sequence length; making a directory that exists is not an error and
    loses nothing.  So when the run fails on a file of a sequence length,
    the two directories exist afterwards although the summary of that
    sequence length is not written; after a run without failure they
    exist for every sequence length. *)
Theorem output_dirs_before_reads (w : World) :
  (∃ tr, trace (record_serial w).1 = trace w ++ tr
         ∧ reads_after_dirs Serial.algo serial_paths tr)
  ∧ (∃ tr, trace (record_distributed w).1 = trace w ++ tr
           ∧ reads_after_dirs Distributed.algo distributed_paths tr)
  ∧ (∀ e, (record_serial w).2 = inl e →
       ∃ s r, s ∈ sequence_lengths ∧ r ∈ runs
         ∧ read_result (files w) (Serial.file_name s r) (Serial.input_path s r)
           = inl e
         ∧ dirs_made Serial.algo s (record_serial w).1
         ∧ tables (record_serial w).1 !! out_path_of Serial.algo s
           = tables w !! out_path_of Serial.algo s)
  ∧ (∀ e, (record_distributed w).2 = inl e →
       ∃ s p r, s ∈ sequence_lengths ∧ p ∈ Distributed.process_counts ∧ r ∈ runs
         ∧ read_result (files w) (Distributed.file_name s p r)
                       (Distributed.input_path s p r) = inl e
         ∧ dirs_made Distributed.algo s (record_distributed w).1
         ∧ tables (record_distributed w).1 !! out_path_of Distributed.algo s
           = tables w !! out_path_of Distributed.algo s)
  ∧ ((record_serial w).2 = inr tt →
     ∀ s, s ∈ sequence_lengths → dirs_made Serial.algo s (record_serial w).1)
  ∧ ((record_distributed w).2 = inr tt →
     ∀ s, s ∈ sequence_lengths →
          dirs_made Distributed.algo s (record_distributed w).1)
  ∧ dirs w ⊆ dirs (record_serial w).1
  ∧ dirs w ⊆ dirs (record_distributed w).1
  ∧ (∀ path w0,
       (makedirs path w0).2 = inr tt
       ∧ dirs w0 ⊆ dirs (makedirs path w0).1
       ∧ dirs (makedirs path (makedirs path w0).1).1
         = dirs (makedirs path w0).1).
Proof.
  rewrite record_serial_run, record_distributed_run. cbn [fst snd].
  split; [apply run_trace; [apply serial_opened_paths|apply serial_paths_inj]|].
  split; [apply run_trace;
          [apply distributed_opened_paths|apply distributed_paths_inj]|].
  split.
  { intros e Hout.
    destruct (run_failed_dirs Serial.algo (SerialPure.result (files w)) w e
                serial_out_path_inj Hout) as (s & Hs & He & Hd & Ht).
    apply serial_result_inl in He as (r & Hr & Hbad).
    exists s, r. do 3 (split; [assumption|]). split; assumption. }
  split.
  { intros e Hout.
    destruct (run_failed_dirs Distributed.algo
                (DistributedPure.result (files w)) w e
                distributed_out_path_inj Hout) as (s & Hs & He & Hd & Ht).
    apply distributed_result_inl in He as (p & r & Hp & Hr & Hbad).
    exists s, p, r. do 4 (split; [assumption|]). split; assumption. }
  split; [intros Hok s Hs; by apply run_ok_dirs|].
  split; [intros Hok s Hs; by apply run_ok_dirs|].
  split; [apply run_dirs_kept|]. split; [apply run_dirs_kept|].
  intros path w0. apply makedirs_idempotent.
Qed.

(** * Further properties *)

(** ** Durations and averages are never NaN and never negative *)

Section RoundingSign.
Context (p e : Z).

Lemma shr_1_nonneg (mrs : shr_record) : 0 ≤ shr_m mrs → 0 ≤ shr_m (shr_1 mrs).
Proof.
  destruct mrs as [m r s]. cbn [shr_m].
  destruct m as [|[q|q|]|[q|q|]]; cbn; lia.
Qed.

Lemma iter_pos_invariant {A : Type} (P : A → Prop) (f : A → A) :
  (∀ x, P x → P (f x)) → ∀ n x, P x → P (SpecFloat.iter_pos f n x).
Proof.
  intros Hf. induction n as [n IH|n IH|]; intros x Hx; cbn; auto.
Qed.

Lemma shr_fexp_nonneg (m ex : Z) (l : location) :
  0 ≤ m → 0 ≤ shr_m (shr_fexp p e m ex l).1.
Proof.
  intros Hm. unfold shr_fexp, shr.
  assert (0 ≤ shr_m (shr_record_of_loc m l)) as H0 by (by destruct l as [|[]]).
  destruct (fexp p e (Zdigits2 m + ex) - ex) as [|n|n]; cbn [fst]; try done.
  by apply (iter_pos_invariant (λ r, 0 ≤ shr_m r)), H0; apply shr_1_nonneg.
Qed.

Lemma round_nearest_even_nonneg (m : Z) (l : location) :
  0 ≤ m → 0 ≤ round_nearest_even m l.
Proof.
  intros Hm. unfold round_nearest_even.
  destruct l as [|[]]; try done; [destruct (Z.even m)|]; lia.
Qed.

Lemma binary_round_aux_nonneg (m ex : Z) (l : location) :
  0 ≤ m → nonneg_float (binary_round_aux p e false m ex l) = true.
Proof.
  intros Hm. unfold binary_round_aux.
  pose proof (shr_fexp_nonneg m ex l Hm) as H1.
  destruct (shr_fexp p e m ex l) as [mrs' e']. cbn [fst] in H1.
  pose proof (shr_fexp_nonneg _ e' loc_Exact
                (round_nearest_even_nonneg _ (loc_of_shr_record mrs') H1)) as H2.
  destruct (shr_fexp p e _ e' loc_Exact) as [mrs'' e'']. cbn [fst] in H2.
  destruct (shr_m mrs'') as [|q|q]; [done| |lia].
  by destruct (e'' <=? e - p).
Qed.

Lemma binary_round_nonneg (m : positive) (ex : Z) :
  nonneg_float (binary_round p e false m ex) = true.
Proof.
  unfold binary_round. destruct (shl_align m ex _) as [mz ez].
  by apply binary_round_aux_nonneg.
Qed.

Lemma SFadd_nonneg (x y : float) :
  nonneg_float x = true → nonneg_float y = true →
  nonneg_float (SFadd p e x y) = true.
Proof.
  destruct x as [[]|[]| |[] mx ex], y as [[]|[]| |[] my ey]; try done.
  intros _ _. unfold SFadd, cond_Zopp, binary_normalize.
  destruct (shl_align mx ex _) as [a ?], (shl_align my ey _) as [b ?].
  cbn [fst Z.add]. apply binary_round_nonneg.
Qed.

Lemma SFdiv_nonneg (x : float) (my : positive) (ey : Z) :
  nonneg_float x = true →
  nonneg_float (SFdiv p e x (S754_finite false my ey)) = true.
Proof.
  destruct x as [[]|[]| |[] mx ex]; try done.
  intros _. unfold SFdiv, SFdiv_core_binary.
  set (s := ex - ey - _). set (m' := match s with Z0 => _ | _ => _ end).
  assert (0 ≤ m') as Hm'.
  { subst m'. destruct s; [done| |done]. by apply Z.shiftl_nonneg. }
  assert (0 ≤ (Z.div_eucl m' (Z.pos my)).1) as Hq.
  { change ((Z.div_eucl m' (Z.pos my)).1) with (m' / Z.pos my).
    apply Z.div_pos; lia. }
  destruct (Z.div_eucl m' (Z.pos my)) as [q r]. cbn [fst] in Hq.
  by apply binary_round_aux_nonneg.
Qed.
End RoundingSign.

Lemma fadd_nonneg (x y : float) :
  nonneg_float x = true → nonneg_float y = true → nonneg_float (fadd x y) = true.
Proof. apply SFadd_nonneg. Qed.

Lemma float_of_decimal_nonneg (m : Z) (k : nat) :
  nonneg_float (float_of_decimal m k) = true.
Proof.
  unfold float_of_decimal. destruct m; [done| |done]. by apply SFdiv_nonneg.
Qed.

Lemma float_of_str_nonneg (s : string) (v : float) :
  float_of_str s = inr v → nonneg_float v = true.
Proof.
  unfold float_of_str. destruct (Str.span is_digit s) as [ip r].
  destruct r as [|c fp].
  - case_decide; [done|]. intros [= <-]. apply float_of_decimal_nonneg.
  - destruct (_ && _); [|done]. intros [= <-]. apply float_of_decimal_nonneg.
Qed.

Lemma extract_time_nonneg (file_name text : string) (v : float) :
  extract_time file_name text = inr v → nonneg_float v = true.
Proof.
  unfold extract_time. destruct (re_search text) as [m|]; [|done].
  apply float_of_str_nonneg.
Qed.

Lemma read_result_nonneg (fs : gmap string node) (name path : string)
    (v : float) :
  read_result fs name path = inr v → nonneg_float v = true.
Proof.
  unfold read_result.
  destruct (read_node path (fs !! path)) as [e|text]; [done|].
  apply extract_time_nonneg.
Qed.

Lemma float_of_int_n_runs :
  float_of_int n_runs = S754_finite false 4503599627370496 (-49).
Proof. vm_compute. reflexivity. Qed.

Lemma mean_nonneg (ds : list float) :
  Forall (λ d, nonneg_float d = true) ds → nonneg_float (mean ds) = true.
Proof.
  intros Hds. unfold mean, fdiv. rewrite float_of_int_n_runs.
  apply SFdiv_nonneg.
  assert (nonneg_float (S754_zero false) = true) as Hacc by done.
  revert Hacc. generalize (S754_zero false).
  induction Hds as [|d ds Hd _ IH]; intros acc Hacc; [done|].
  cbn [foldl]. apply IH. by apply fadd_nonneg.
Qed.

Lemma durations_nonneg (fs : gmap string node) (name path : Z → string)
    (rs : list Z) (ds : list float) :
  Forall2 (λ r d, read_result fs (name r) (path r) = inr d) rs ds →
  Forall (λ d, nonneg_float d = true) ds.
Proof.
  induction 1 as [|r d rs ds Hd _ IH]; constructor; [|done].
  by eapply read_result_nonneg.
Qed.

(** X1.  A duration that is extracted is zero, positive or plus infinity:
    never NaN and never negative.  The same holds for every average that
    a successful run stores: the sum of such numbers and its division by
    8.0 cannot produce NaN. *)
Theorem reported_averages_not_nan (w : World) (s : Z) :
  s ∈ sequence_lengths →
  (∀ file_name text v,
     extract_time file_name text = inr v → nonneg_float v = true)
  ∧ ((record_serial w).2 = inr tt →
     ∃ avg, tables (record_serial w).1 !! out_path_of Serial.algo s
            = Some {| header := ["avg_execution_time"];
                      rows := [[CFloat avg]] |}
            ∧ nonneg_float avg = true)
  ∧ ((record_distributed w).2 = inr tt →
     ∃ csv, tables (record_distributed w).1 !! out_path_of Distributed.algo s
            = Some csv
            ∧ ∀ i q, Distributed.process_counts !! i = Some q →
                ∃ avg, rows csv !! i = Some [CInt q; CFloat avg]
                       ∧ nonneg_float avg = true).
Proof.
  intros Hs. split; [apply extract_time_nonneg|]. split.
  - intros Hok. destruct (serial_success w s Hok Hs) as (df & Hdf & Htab).
    apply serial_result_inr in Hdf as (ds & Hds & ->).
    exists (mean ds). split; [exact Htab|].
    by eapply mean_nonneg, durations_nonneg.
  - intros Hok. destruct (distributed_success w s Hok Hs) as (df & Hdf & Htab).
    apply distributed_result_inr in Hdf as (avgs & Havgs & ->).
    exists (csv_of (DistributedPure.frame avgs)). split; [exact Htab|].
    intros i q Hi.
    destruct (distributed_row _ _ i q Havgs Hi) as (a & Ha & Hrow).
    exists a. split; [exact Hrow|].
    apply average_mean in Ha as (ds & Hds & ->).
    by eapply mean_nonneg, durations_nonneg.
Qed.

Lemma reported_averages_not_nan_witness :
  ∃ avg, tables (record_serial sample_world).1 !! out_path_of Serial.algo 10000
         = Some {| header := ["avg_execution_time"]; rows := [[CFloat avg]] |}
         ∧ nonneg_float avg = true.
Proof.
  assert (10000 ∈ sequence_lengths) as Hs by (right; right; left).
  assert ((record_serial sample_world).2 = inr tt) as Hok
    by (vm_compute; reflexivity).
  pose proof (reported_averages_not_nan sample_world 10000 Hs) as (_ & H & _).
  exact (H Hok).
Defined.

(** ** The outcomes of the extraction *)

Section ExtractionOutcomes.
Import Str StrFacts.

Lemma first_marker_empty : first_marker "".
Proof. apply first_marker_test. reflexivity. Qed.

Lemma first_marker_cons (c : ascii) (pre rest : string) :
  strip_prefix marker (String c (pre +:+ marker +:+ rest)) = None →
  first_marker pre → first_marker (String c pre).
Proof.
  intros Hnone Hpre [|k a] b Hab.
  - rewrite app_nil_l in Hab.
    assert (strip_prefix marker (String c (pre +:+ marker +:+ rest))
            = Some (b +:+ rest)) as Hsome.
    { apply strip_prefix_Some.
      rewrite <- app_cons, <- !app_assoc, Hab. by rewrite !app_assoc. }
    congruence.
  - rewrite !app_cons in Hab. injection Hab as _ Hab. by apply (Hpre a b).
Qed.

(** A successful search has found the first occurrence of the marker. *)
Lemma re_search_Some (text : string) (m : Match) :
  re_search text = Some m →
  ∃ pre rest, text = pre +:+ marker +:+ rest ∧ first_marker pre
              ∧ m = match_here rest.
Proof.
  induction text as [|c text IH]; rewrite re_search_eq.
  - destruct (strip_prefix marker "") eqn:Hs; [|done].
    apply strip_prefix_Some in Hs. intros [= <-].
    exists "", s. split; [by rewrite app_nil_l|]. split; [|done].
    apply first_marker_empty.
  - destruct (strip_prefix marker (String c text)) as [r|] eqn:Hs.
    + apply strip_prefix_Some in Hs. intros [= <-].
      exists "", r. split; [by rewrite app_nil_l|]. split; [|done].
      apply first_marker_empty.
    + intros (pre & rest & -> & Hfirst & ->)%IH.
      exists (String c pre), rest. split; [by rewrite app_cons|].
      split; [|done]. by eapply first_marker_cons.
Qed.

(** What the pattern consumes at the head of a text. *)
Lemma match_here_split (s : string) :
  ∃ ws ip frac rest,
    s = ws +:+ token ip frac +:+ rest
    ∧ all is_space ws = true ∧ all is_digit ip = true
    ∧ all is_digit (frac_digits frac) = true
    ∧ token_ends frac rest = true
    ∧ stops is_space (token ip frac +:+ rest) = true
    ∧ group1 (match_here s) = token ip frac.
Proof.
  destruct (span_spec is_space s) as (Hs & Hws & Hstop1).
  destruct (span is_space s) as [ws s1] eqn:Hsp1. cbn [fst snd] in *.
  destruct (span_spec is_digit s1) as (Hs1 & Hd1 & Hstop2).
  destruct (span is_digit s1) as [d1 s2] eqn:Hsp2. cbn [fst snd] in *.
  destruct s2 as [|c r].
  - exists ws, d1, None, "". unfold match_here. rewrite Hsp1, Hsp2.
    unfold token. cbn. rewrite !app_nil_l, !app_nil_r.
    rewrite app_nil_r in Hs1. subst s1. by repeat split.
  - destruct (is_dot c) eqn:Hc.
    + apply is_dot_eq in Hc as ->.
      destruct (span_spec is_digit r) as (Hr & Hd2 & Hstop3).
      destruct (span is_digit r) as [d2 s4] eqn:Hsp3. cbn [fst snd] in *.
      exists ws, d1, (Some d2), s4. unfold match_here.
      rewrite Hsp1, Hsp2. cbn [opt_dot]. rewrite Hsp3.
      unfold token. cbn [frac_digits token_ends group1].
      assert (s1 = (d1 +:+ "." +:+ d2) +:+ s4) as Hs1'.
      { rewrite Hs1, !app_assoc, app_cons, app_nil_l. by rewrite <- Hr. }
      rewrite <- Hs1'. by repeat split.
    + exists ws, d1, None, (String c r). unfold match_here.
      rewrite Hsp1, Hsp2, opt_dot_stops by (cbn; by rewrite Hc).
      rewrite (span_stops is_digit (String c r)) by done.
      unfold token. cbn [frac_digits token_ends group1].
      rewrite !app_nil_l, !app_nil_r, <- Hs1.
      repeat split; try done. cbn in *. by rewrite Hc, orb_false_r.
Qed.

(** X2.  Extraction succeeds exactly on the texts in which the first
    occurrence of the marker is followed by whitespace and a numeric
    token with at least one digit; the value is then that of the token,
    taken as long as possible.  Nothing else in the text matters, and the
    file name plays no part in the value. *)
Theorem extract_time_succeeds_iff (file_name text : string) (v : float) :
  extract_time file_name text = inr v ↔
  ∃ pre ws ip frac rest,
    text = pre +:+ marker +:+ ws +:+ token ip frac +:+ rest
    ∧ first_marker pre
    ∧ all is_space ws = true ∧ all is_digit ip = true
    ∧ all is_digit (frac_digits frac) = true
    ∧ ip +:+ frac_digits frac ≠ ""
    ∧ token_ends frac rest = true
    ∧ v = float_of_decimal (digits_value 0 (ip +:+ frac_digits frac))
                           (String.length (frac_digits frac)).
Proof.
  unfold extract_time. split.
  - destruct (re_search text) as [m|] eqn:Hm; [|done].
    apply re_search_Some in Hm as (pre & rest0 & -> & Hfirst & ->).
    destruct (match_here_split rest0)
      as (ws & ip & frac & rest & -> & Hws & Hip & Hd & Hend & _ & ->).
    intros Hv. exists pre, ws, ip, frac, rest.
    do 5 (split; [done|]).
    destruct (decide (ip +:+ frac_digits frac = "")) as [He|Hne].
    + exfalso. assert (ip = "") as -> by (by destruct ip).
      rewrite app_nil_l in He. destruct frac as [d|]; cbn in He; [subst d|];
        cbn in Hv; discriminate Hv.
    + split; [done|]. split; [done|].
      rewrite float_of_str_token in Hv by done. congruence.
  - intros (pre & ws & ip & frac & rest & -> & Hfirst & Hws & Hip & Hd
            & Hne & Hend & ->).
    rewrite (re_search_first _ _ Hfirst).
    rewrite match_here_token; try done.
    + cbn [group1]. by apply float_of_str_token.
    + destruct ip as [|c ip].
      * destruct frac as [d|]; [|done]. unfold token.
        by rewrite app_nil_l, app_cons.
      * unfold token. rewrite !app_cons. cbn in *.
        apply andb_true_iff in Hip as [Hc _].
        by rewrite (digit_not_space _ Hc).
Qed.

(** X3.  The error that names the file, "Could not extract execution
    time for ...", is raised exactly when the marker occurs nowhere in
    the text.  Whenever the marker occurs, the outcome is a value or the
    error of the float conversion, whatever follows the marker. *)
Theorem extract_error_iff_no_marker (file_name text : string) :
  (extract_time file_name text = inl (extract_error file_name)
   ↔ ¬ occurs marker text)
  ∧ (occurs marker text →
     ∃ m, re_search text = Some m
          ∧ ((∃ v, extract_time file_name text = inr v)
             ∨ (extract_time file_name text = inl (float_error (group1 m))
                ∧ (group1 m = "" ∨ group1 m = ".")))).
Proof.
  unfold extract_time. split.
  - split.
    + intros He [m Hm]%re_search_occurs. rewrite Hm in He.
      apply re_search_Some in Hm as (_ & rest & _ & _ & ->).
      destruct (match_here_group1 rest) as (ip & frac & Htok & Hip & Hd).
      rewrite Htok in He. apply float_of_str_inl in He as [_ He]; [|done..].
      discriminate He.
    + intros Hno. destruct (re_search text) as [m|] eqn:Hm; [|done].
      destruct Hno. apply re_search_occurs. by exists m.
  - intros [m Hm]%re_search_occurs. exists m. split; [done|]. rewrite Hm.
    apply re_search_Some in Hm as (_ & rest & _ & _ & ->).
    destruct (match_here_group1 rest) as (ip & frac & Htok & Hip & Hd).
    rewrite Htok. destruct (float_of_str (token ip frac)) as [e|v] eqn:Hf.
    + right. apply float_of_str_inl in Hf as [Hshape ->]; done.
    + left. by exists v.
Qed.
End ExtractionOutcomes.

(** ** Distinct run identifiers have distinct paths *)

Section LocatorInjective.
Import Str StrFacts.

Lemma str_inj (n n' : Z) : str n = str n' → n = n'.
Proof.
  unfold str. intros H. apply DecimalZ.to_int_inj.
  assert (∀ z, Z.to_int z ≠ Decimal.Pos Decimal.Nil
               ∧ Z.to_int z ≠ Decimal.Neg Decimal.Nil) as Hnil.
  { intros [|q|q]; cbn; split; try done; intros [= Hq];
      by apply DecimalPos.Unsigned.to_uint_nonnil in Hq. }
  apply (f_equal NilZero.int_of_string) in H.
  rewrite !NilZero.isi in H by apply Hnil. congruence.
Qed.

Lemma uint_chars (d : Decimal.uint) :
  all is_digit (NilEmpty.string_of_uint d) = true.
Proof. induction d; cbn; done. Qed.

Lemma all_impl (f g : ascii → bool) (s : string) :
  (∀ c, f c = true → g c = true) → all f s = true → all g s = true.
Proof.
  intros Hfg. induction s as [|c s IH]; [done|]. cbn.
  intros [Hc Hs]%andb_true_iff. by rewrite (Hfg c Hc), IH.
Qed.

Lemma str_chars (n : Z) : all sign_or_digit (str n) = true.
Proof.
  assert (∀ d, all sign_or_digit (NilZero.string_of_uint d) = true) as Hu.
  { intros d. apply (all_impl is_digit).
    - intros c Hc. unfold sign_or_digit. by rewrite Hc.
    - destruct d; try apply uint_chars. done. }
  unfold str. destruct (Z.to_int n) as [d|d]; cbn [NilZero.string_of_int].
  - apply Hu.
  - cbn. apply Hu.
Qed.

Lemma str_lacks (c : ascii) (n : Z) :
  sign_or_digit c = false → lacks c (str n) = true.
Proof.
  intros Hc. apply (all_impl sign_or_digit); [|apply str_chars].
  intros k Hk. apply negb_true_iff, Ascii.eqb_neq. congruence.
Qed.

(** Two texts cut at the first occurrence of a separator. *)
Lemma app_sep_inj (c : ascii) (a a' x x' : string) :
  lacks c a = true → lacks c a' = true →
  a +:+ String c x = a' +:+ String c x' → a = a' ∧ x = x'.
Proof.
  revert a'. induction a as [|k a IH]; intros [|k' a'] Ha Ha' Heq.
  - rewrite !app_nil_l in Heq. by injection Heq as ->.
  - rewrite app_nil_l, app_cons in Heq. injection Heq as <- _.
    cbn in Ha'. by rewrite Ascii.eqb_refl in Ha'.
  - rewrite app_nil_l, app_cons in Heq. injection Heq as -> _.
    cbn in Ha. by rewrite Ascii.eqb_refl in Ha.
  - rewrite !app_cons in Heq. injection Heq as -> Heq.
    cbn in Ha, Ha'. apply andb_true_iff in Ha as [_ Ha], Ha' as [_ Ha'].
    by destruct (IH a' Ha Ha' Heq) as [-> ->].
Qed.

Lemma lacks_app (c : ascii) (a b : string) :
  lacks c a = true → lacks c b = true → lacks c (a +:+ b) = true.
Proof. unfold lacks. rewrite all_app. by intros -> ->. Qed.

Lemma str_sep_inj (c : ascii) (n n' : Z) (x x' : string) :
  sign_or_digit c = false →
  str n +:+ String c x = str n' +:+ String c x' → n = n' ∧ x = x'.
Proof.
  intros Hc Heq.
  destruct (app_sep_inj c _ _ _ _ (str_lacks c n Hc) (str_lacks c n' Hc) Heq)
    as [Hn ->].
  by apply str_inj in Hn.
Qed.

(** The same with the separator ["-R"]: a printed integer may start with
    the minus sign, so the cut is made at the letter. *)
Lemma str_dash_sep_inj (c : ascii) (n n' : Z) (x x' : string) :
  sign_or_digit c = false →
  str n +:+ String "-" (String c x) = str n' +:+ String "-" (String c x') →
  n = n' ∧ x = x'.
Proof.
  intros Hc Heq.
  assert (lacks c "-" = true) as Hdash.
  { unfold lacks. cbn [all]. rewrite andb_true_r.
    apply negb_true_iff, Ascii.eqb_neq. intros <-. done. }
  assert (∀ m y, str m +:+ String "-" (String c y)
                 = (str m +:+ "-") +:+ String c y) as Hassoc.
  { intros m y. by rewrite app_assoc. }
  rewrite !Hassoc in Heq.
  apply app_sep_inj in Heq as [Hn ->];
    [|by apply lacks_app; [apply str_lacks|]..].
  split; [|done]. apply str_inj.
  apply (f_equal (λ s, String.length s)) in Hn as Hlen.
  rewrite !app_length in Hlen. cbn in Hlen.
  revert Hn Hlen. generalize (str n) (str n'). clear.
  induction s as [|k s IH]; intros [|k' s'] Heq Hlen; cbn in Hlen; try lia.
  - done.
  - rewrite !app_cons in Heq. injection Heq as -> Heq. f_equal.
    apply IH; [done|lia].
Qed.
End LocatorInjective.

Section LocatorInjectiveTheorem.
Import Str StrFacts.

Lemma string_app_inv_head (a b c : string) : a +:+ b = a +:+ c → b = c.
Proof.
  induction a as [|x a IH]; [done|]. rewrite !app_cons. intros [= H]. auto.
Qed.

Lemma serial_path_form (s r : Z) :
  Serial.input_path s r =
  "output/serial/L" +:+ str s +:+ String "/" ("serial-L" +:+ str s +:+
    String "-" (String "R" (str r +:+ String "." "out"))).
Proof.
  unfold Serial.input_path, input_path_of, Serial.file_name.
  rewrite ?app_assoc. reflexivity.
Qed.

Lemma parallel_path_form (s t r : Z) :
  Parallel.input_path s t r =
  "output/parallel/L" +:+ str s +:+ String "/" ("parallel-L" +:+ str s +:+
    String "-" (String "T" (str t +:+
      String "-" (String "R" (str r +:+ String "." "out"))))).
Proof.
  unfold Parallel.input_path, input_path_of, Parallel.file_name.
  rewrite ?app_assoc. reflexivity.
Qed.

Lemma distributed_path_form (s p r : Z) :
  Distributed.input_path s p r =
  "output/distributed/L" +:+ str s +:+ String "/" ("distributed-L" +:+ str s +:+
    String "-" (String "P" (str p +:+
      String "-" (String "R" (str r +:+ String "." "out"))))).
Proof.
  unfold Distributed.input_path, input_path_of, Distributed.file_name.
  rewrite ?app_assoc. reflexivity.
Qed.

Lemma out_path_form (algo : string) (s : Z) :
  out_path_of algo s =
  "data/" +:+ algo +:+ "/L" +:+ str s +:+
    String "/" (algo +:+ "-L" +:+ str s +:+ ".csv").
Proof.
  unfold out_path_of, out_dir_of. rewrite ?app_assoc. reflexivity.
Qed.

(** X4.  The path of a result file determines the run identifier: in each
    mode, equal paths come from equal sequence length, parallelism degree
    and run index, for all integers; paths of different modes differ.
    The path of a summary determines the sequence length, and no summary
    is ever written to the path of a result file. *)
Theorem locator_injective :
  (∀ s r s' r',
     Serial.input_path s r = Serial.input_path s' r' → s = s' ∧ r = r')
  ∧ (∀ s t r s' t' r',
       Parallel.input_path s t r = Parallel.input_path s' t' r' →
       s = s' ∧ t = t' ∧ r = r')
  ∧ (∀ s p r s' p' r',
       Distributed.input_path s p r = Distributed.input_path s' p' r' →
       s = s' ∧ p = p' ∧ r = r')
  ∧ (∀ s r s' t' r', Serial.input_path s r ≠ Parallel.input_path s' t' r')
  ∧ (∀ s r s' p' r', Serial.input_path s r ≠ Distributed.input_path s' p' r')
  ∧ (∀ s t r s' p' r',
       Parallel.input_path s t r ≠ Distributed.input_path s' p' r')
  ∧ (∀ algo s s', out_path_of algo s = out_path_of algo s' → s = s')
  ∧ (∀ algo s s' r', out_path_of algo s ≠ Serial.input_path s' r')
  ∧ (∀ algo s s' t' r', out_path_of algo s ≠ Parallel.input_path s' t' r')
  ∧ (∀ algo s s' p' r', out_path_of algo s ≠ Distributed.input_path s' p' r').
Proof.
  assert (sign_or_digit "/" = false ∧ sign_or_digit "." = false
          ∧ sign_or_digit "R" = false ∧ sign_or_digit "P" = false
          ∧ sign_or_digit "T" = false) as (Hsl & Hdot & HR & HP & HT) by done.
  split.
  { intros s r s' r'. rewrite !serial_path_form.
    intros H%string_app_inv_head.
    apply (str_sep_inj _ _ _ _ _ Hsl) in H as [<- H].
    apply string_app_inv_head in H.
    apply (str_dash_sep_inj _ _ _ _ _ HR) in H as [_ H].
    by apply (str_sep_inj _ _ _ _ _ Hdot) in H as [<- _]. }
  split.
  { intros s t r s' t' r'. rewrite !parallel_path_form.
    intros H%string_app_inv_head.
    apply (str_sep_inj _ _ _ _ _ Hsl) in H as [<- H].
    apply string_app_inv_head in H.
    apply (str_dash_sep_inj _ _ _ _ _ HT) in H as [_ H].
    apply (str_dash_sep_inj _ _ _ _ _ HR) in H as [<- H].
    by apply (str_sep_inj _ _ _ _ _ Hdot) in H as [<- _]. }
  split.
  { intros s p r s' p' r'. rewrite !distributed_path_form.
    intros H%string_app_inv_head.
    apply (str_sep_inj _ _ _ _ _ Hsl) in H as [<- H].
    apply string_app_inv_head in H.
    apply (str_dash_sep_inj _ _ _ _ _ HP) in H as [_ H].
    apply (str_dash_sep_inj _ _ _ _ _ HR) in H as [<- H].
    by apply (str_sep_inj _ _ _ _ _ Hdot) in H as [<- _]. }
  split.
  { intros s r s' t' r'. rewrite serial_path_form, parallel_path_form.
    intros H. discriminate H. }
  split.
  { intros s r s' p' r'. rewrite serial_path_form, distributed_path_form.
    intros H. discriminate H. }
  split.
  { intros s t r s' p' r'. rewrite parallel_path_form, distributed_path_form.
    intros H. discriminate H. }
  split.
  { intros algo s s'. rewrite !out_path_form.
    intros H%string_app_inv_head%string_app_inv_head%string_app_inv_head.
    by apply (str_sep_inj _ _ _ _ _ Hsl) in H as [<- _]. }
  split.
  { intros algo s s' r'. rewrite out_path_form, serial_path_form.
    intros H. discriminate H. }
  split.
  { intros algo s s' t' r'. rewrite out_path_form, parallel_path_form.
    intros H. discriminate H. }
  intros algo s s' p' r'. rewrite out_path_form, distributed_path_form.
  intros H. discriminate H.
Qed.
End LocatorInjectiveTheorem.

(** ** The files that a run opens *)

Lemma opens_app (a b : list event) : opens (a ++ b) = opens a ++ opens b.
Proof. apply omap_app. Qed.

Lemma opens_EvOpen (ps : list string) : opens (EvOpen <$> ps) = ps.
Proof.
  induction ps as [|p ps IH]; [done|].
  change (opens (EvOpen <$> p :: ps)) with (p :: opens (EvOpen <$> ps)).
  by rewrite IH.
Qed.

Lemma read_prefix_app (fs : gmap string node) (a b : list (string * string)) :
  read_prefix fs (a ++ b) =
  read_prefix fs a ++
  match first_failure fs a with
  | inr _ => read_prefix fs b
  | inl _ => []
  end.
Proof.
  induction a as [|[n p] a IH]; [done|]. cbn.
  destruct (read_result fs n p); [done|]. by rewrite IH.
Qed.

Lemma opened_read_prefix (fs : gmap string node) (name path : Z → string)
    (rs : list Z) :
  opened fs name path rs = read_prefix fs ((λ r, (name r, path r)) <$> rs).
Proof.
  induction rs as [|r rs IH]; [done|]. cbn.
  destruct (read_result fs (name r) (path r)); [done|]. by rewrite IH.
Qed.

Lemma read_prefix_spec (fs : gmap string node) (req : list (string * string))
    (tr : list event) :
  opens tr = read_prefix fs req →
  reads_until_failure fs req tr (first_failure fs req).
Proof.
  intros Hop. unfold reads_until_failure. rewrite Hop. clear Hop.
  induction req as [|[n p] req IH]; [done|]. cbn.
  destruct (read_result fs n p) as [e|t] eqn:Hnp.
  - exists [], n, p, req. by repeat split.
  - destruct (first_failure fs req) as [e|[]].
    + destruct IH as (before & name & path & after & -> & Hpre & Hall & He).
      exists ((n, p) :: before), name, path, after. cbn. rewrite Hpre.
      repeat split; [|done]. constructor; [by exists t|done].
    + by rewrite IH.
Qed.

Section LoopOpens.
Context (algo : string) (result : Z → list string * (exn + DataFrame)).

Lemma opens_body_trace (s : Z) :
  opens (body_trace algo result s) = (result s).1.
Proof.
  unfold body_trace. cbn. rewrite opens_app, opens_EvOpen.
  destruct ((result s).2); cbn; by rewrite app_nil_r.
Qed.

Lemma opens_loop (l : list Z) :
  opens (s ← l; body_trace algo result s) = (s ← l; (result s).1).
Proof.
  induction l as [|s l IH]; [done|].
  by rewrite !bind_cons, opens_app, opens_body_trace, IH.
Qed.
End LoopOpens.

Lemma serial_loop_opens (fs : gmap string node) (ls : list Z) :
  (s ← attempted (SerialPure.result fs) ls; (SerialPure.result fs s).1) =
  read_prefix fs
    (s ← ls; r ← runs; [(Serial.file_name s r, Serial.input_path s r)]).
Proof.
  induction ls as [|s ls IH]; [done|].
  cbn [attempted]. rewrite !bind_cons, read_prefix_app, bind_singleton_fmap.
  rewrite <- (average_failure fs (Serial.file_name s) (Serial.input_path s)).
  rewrite <- opened_read_prefix, <- IH.
  change (opened fs (Serial.file_name s) (Serial.input_path s) runs)
    with ((SerialPure.result fs s).1).
  f_equal.
  pose proof (eq_refl : (SerialPure.result fs s).2
                        = match SerialPure.average_of fs s with
                          | inr avg => inr (SerialPure.frame avg)
                          | inl e => inl e
                          end) as Hr.
  unfold SerialPure.average_of in Hr.
  destruct (average fs (Serial.file_name s) (Serial.input_path s) runs);
    by rewrite Hr.
Qed.

Lemma opened_counts_read_prefix (fs : gmap string node) (s : Z) (ps : list Z) :
  DistributedPure.opened_counts fs s ps =
  read_prefix fs
    (p ← ps; r ← runs;
     [(Distributed.file_name s p r, Distributed.input_path s p r)]).
Proof.
  induction ps as [|p ps IH]; [done|].
  cbn [DistributedPure.opened_counts].
  rewrite bind_cons, read_prefix_app, bind_singleton_fmap.
  rewrite <- (average_failure fs (Distributed.file_name s p)
                                 (Distributed.input_path s p)).
  rewrite <- opened_read_prefix, <- IH. f_equal.
  unfold DistributedPure.average_of.
  by destruct (average _ _ _ _).
Qed.

Lemma distributed_loop_opens (fs : gmap string node) (ls : list Z) :
  (s ← attempted (DistributedPure.result fs) ls;
   (DistributedPure.result fs s).1) =
  read_prefix fs
    (s ← ls; p ← Distributed.process_counts; r ← runs;
     [(Distributed.file_name s p r, Distributed.input_path s p r)]).
Proof.
  induction ls as [|s ls IH]; [done|].
  cbn [attempted]. rewrite !bind_cons, read_prefix_app.
  rewrite <- (distributed_averages_failure fs s _ []).
  rewrite <- opened_counts_read_prefix, <- IH.
  change (DistributedPure.opened_counts fs s Distributed.process_counts)
    with ((DistributedPure.result fs s).1).
  f_equal.
  pose proof (eq_refl : (DistributedPure.result fs s).2
                        = match DistributedPure.averages fs s
                                  Distributed.process_counts [] with
                          | inr avgs => inr (DistributedPure.frame avgs)
                          | inl e => inl e
                          end) as Hr.
  destruct (DistributedPure.averages fs s Distributed.process_counts []);
    by rewrite Hr.
Qed.

Lemma opens_makedirs (path : string) (tr : list event) :
  opens (EvMakedirs path :: tr) = opens tr.
Proof. reflexivity. Qed.

(** The calls of a run, and the files it opens. *)
Lemma record_serial_trace (w : World) :
  ∃ tr, trace (record_serial w).1 = trace w ++ tr
        ∧ opens tr = read_prefix (files w) SerialPure.required.
Proof.
  rewrite record_serial_run.
  exists (EvMakedirs (OUT_DIR +:+ "/" +:+ Serial.algo) ::
          (s ← attempted (SerialPure.result (files w)) sequence_lengths;
           body_trace Serial.algo (SerialPure.result (files w)) s)).
  split; [cbn; by rewrite <- app_assoc|].
  rewrite opens_makedirs, opens_loop. apply serial_loop_opens.
Qed.

Lemma record_distributed_trace (w : World) :
  ∃ tr, trace (record_distributed w).1 = trace w ++ tr
        ∧ opens tr = read_prefix (files w) DistributedPure.required.
Proof.
  rewrite record_distributed_run.
  exists (EvMakedirs (OUT_DIR +:+ "/" +:+ Distributed.algo) ::
          (s ← attempted (DistributedPure.result (files w)) sequence_lengths;
           body_trace Distributed.algo (DistributedPure.result (files w)) s)).
  split; [cbn; by rewrite <- app_assoc|].
  rewrite opens_makedirs, opens_loop. apply distributed_loop_opens.
Qed.

Lemma record_serial_outcome (w : World) :
  (record_serial w).2 = first_failure (files w) SerialPure.required.
Proof. rewrite record_serial_run. apply serial_outcome. Qed.

Lemma record_distributed_outcome (w : World) :
  (record_distributed w).2 = first_failure (files w) DistributedPure.required.
Proof. rewrite record_distributed_run. apply distributed_outcome. Qed.

Lemma main_trace (w : World) :
  ∃ tr, trace (main w).1 = trace w ++ tr
        ∧ opens tr = read_prefix (files w)
                       (SerialPure.required ++ DistributedPure.required)
        ∧ (main w).2 = first_failure (files w)
                         (SerialPure.required ++ DistributedPure.required).
Proof.
  destruct (record_serial_trace w) as (tr1 & Htr1 & Hop1).
  pose proof (record_serial_outcome w) as Hout1.
  pose proof (record_serial_files w) as Hfiles.
  unfold main. rewrite bind_run, read_prefix_app, first_failure_app, <- Hout1.
  destruct (record_serial w) as [w1 [e|[]]]; cbn [fst snd] in *.
  - exists tr1. by rewrite app_nil_r.
  - destruct (record_distributed_trace w1) as (tr2 & Htr2 & Hop2).
    exists (tr1 ++ tr2). rewrite Htr2, Htr1, opens_app, Hop1, Hop2, Hfiles.
    rewrite record_distributed_outcome, Hfiles.
    by rewrite <- app_assoc.
Qed.

(** X5.  A run opens its required result files in the order of the loops,
    each once, and stops at the first file that fails: the files opened
    are exactly those before the failing file and the failing file
    itself; no later file is opened.  A run without failure opens every
    required file.  The pipeline reads the serial files, then the
    distributed ones, under the same rule. *)
Theorem reads_stop_at_first_bad_file (w : World) :
  (∃ tr, trace (record_serial w).1 = trace w ++ tr
         ∧ reads_until_failure (files w) SerialPure.required tr
                               (record_serial w).2)
  ∧ (∃ tr, trace (record_distributed w).1 = trace w ++ tr
           ∧ reads_until_failure (files w) DistributedPure.required tr
                                 (record_distributed w).2)
  ∧ (∃ tr, trace (main w).1 = trace w ++ tr
           ∧ reads_until_failure (files w)
               (SerialPure.required ++ DistributedPure.required) tr (main w).2).
Proof.
  split; [|split].
  - destruct (record_serial_trace w) as (tr & Htr & Hop). exists tr.
    split; [exact Htr|]. rewrite record_serial_outcome.
    by apply read_prefix_spec.
  - destruct (record_distributed_trace w) as (tr & Htr & Hop). exists tr.
    split; [exact Htr|]. rewrite record_distributed_outcome.
    by apply read_prefix_spec.
  - destruct (main_trace w) as (tr & Htr & Hop & Hout). exists tr.
    split; [exact Htr|]. rewrite Hout. by apply read_prefix_spec.
Qed.

(** ** The parallel mode *)

Lemma parallel_count_body_run (s p : Z) (avgs : list float) (w : World) :
  Parallel.count_body s avgs p w =
  (emit (EvOpen <$> opened (files w) (Parallel.file_name s p)
                           (Parallel.input_path s p) runs) w,
   match ParallelPure.average_of (files w) s p with
   | inr avg => inr (avgs ++ [avg])
   | inl e => inl e
   end).
Proof.
  unfold Parallel.count_body, Parallel.run_body.
  rewrite bind_run, for_fold_runs.
  unfold ParallelPure.average_of, average. fold runs.
  by destruct (sum_times _ _ _ _ _).
Qed.

Lemma parallel_counts_run (s : Z) (ps : list Z) (avgs : list float)
    (w : World) :
  for_fold ps avgs (Parallel.count_body s) w =
  (emit (EvOpen <$> ParallelPure.opened_counts (files w) s ps) w,
   ParallelPure.averages (files w) s ps avgs).
Proof.
  revert avgs w. induction ps as [|p ps IH]; intros avgs w; cbn.
  - by rewrite emit_nil.
  - rewrite bind_run, parallel_count_body_run.
    destruct (ParallelPure.average_of (files w) s p) as [e|avg].
    + by rewrite app_nil_r.
    + rewrite IH. cbn. by rewrite emit_emit, fmap_app.
Qed.

Lemma parallel_compute_run (s : Z) (w : World) :
  parallel_compute s w =
  (emit (EvOpen <$> (ParallelPure.result (files w) s).1) w,
   (ParallelPure.result (files w) s).2).
Proof.
  unfold parallel_compute. rewrite bind_run, parallel_counts_run.
  unfold ParallelPure.result. cbn [fst snd].
  by destruct (ParallelPure.averages _ _ _ _).
Qed.

Lemma parallel_length_body_eq (s : Z) (w : World) :
  Parallel.length_body s w =
  length_loop_body Parallel.algo parallel_compute s w.
Proof.
  unfold Parallel.length_body, length_loop_body, parallel_compute.
  rewrite !bind_run. destruct (makedirs _ w) as [w1 [e|[]]]; [done|].
  rewrite !bind_run.
  by destruct (for_fold _ _ _ w1) as [w2 [e|t]].
Qed.

Lemma record_parallel_run (w : World) :
  record_parallel w =
  (after_loop Parallel.algo (ParallelPure.result (files w))
     sequence_lengths
     (makedirs (OUT_DIR +:+ "/" +:+ Parallel.algo) w).1,
   outcome (ParallelPure.result (files w)) sequence_lengths).
Proof.
  rewrite <- (record_with_run _ _ _ parallel_compute_run).
  unfold record_parallel, record_with. rewrite !bind_run.
  destruct (makedirs _ w) as [w1 [e|[]]]; [done|].
  apply for_each_ext, parallel_length_body_eq.
Qed.

Lemma parallel_averages (fs : gmap string node) (s : Z) (ps : list Z)
    (acc avgs : list float) :
  ParallelPure.averages fs s ps acc = inr avgs ↔
  ∃ l, avgs = acc ++ l
       ∧ Forall2 (λ p a, ParallelPure.average_of fs s p = inr a) ps l.
Proof.
  revert acc. induction ps as [|p ps IH]; intros acc; cbn.
  - split.
    + intros [= <-]. exists []. by rewrite app_nil_r.
    + intros (l & -> & ->%Forall2_nil_inv_l). by rewrite app_nil_r.
  - destruct (ParallelPure.average_of fs s p) as [e|a] eqn:Hp.
    + split; [done|].
      intros (l & _ & (a & l' & Ha & _ & _)%Forall2_cons_inv_l). congruence.
    + rewrite IH. split.
      * intros (l & -> & Hl). exists (a :: l).
        split; [by rewrite <- app_assoc|by constructor].
      * intros (l & -> & (a' & l' & Ha & Hl' & ->)%Forall2_cons_inv_l).
        exists l'. split; [|done]. rewrite <- app_assoc.
        by replace a' with a by congruence.
Qed.

Lemma parallel_result_inr (fs : gmap string node) (s : Z) (df : DataFrame) :
  (ParallelPure.result fs s).2 = inr df ↔
  ∃ avgs,
    Forall2 (λ p a, ParallelPure.average_of fs s p = inr a)
            Parallel.thread_counts avgs
    ∧ df = ParallelPure.frame avgs.
Proof.
  unfold ParallelPure.result. cbn [snd]. split.
  - destruct (ParallelPure.averages _ _ _ _) as [e|avgs] eqn:Havgs; [done|].
    intros [= <-]. apply parallel_averages in Havgs as (l & -> & Hl).
    by exists l.
  - intros (avgs & Havgs & ->).
    assert (ParallelPure.averages fs s Parallel.thread_counts [] = inr avgs)
      as -> by (apply parallel_averages; by exists avgs).
    done.
Qed.

Lemma parallel_row (P : Z → float → Prop) (avgs : list float) (i : nat) (p : Z) :
  Forall2 P Parallel.thread_counts avgs →
  Parallel.thread_counts !! i = Some p →
  ∃ a, P p a
       ∧ rows (csv_of (ParallelPure.frame avgs)) !! i
         = Some [CInt p; CFloat a].
Proof.
  intros HF Hi. pose proof (Forall2_length _ _ _ HF) as Hlen.
  destruct avgs as [|a1 [|a2 [|a4 [|a8 [|]]]]]; try done.
  unfold Parallel.thread_counts in *.
  apply Forall2_cons in HF as [H1 HF]. apply Forall2_cons in HF as [H2 HF].
  apply Forall2_cons in HF as [H4 HF]. apply Forall2_cons in HF as [H8 _].
  destruct i as [|[|[|[|i]]]]; cbn in Hi; try done;
    injection Hi as <-; eexists; (split; [eassumption|reflexivity]).
Qed.

Lemma parallel_averages_failure (fs : gmap string node) (s : Z)
    (ps : list Z) (acc : list float) :
  match ParallelPure.averages fs s ps acc with
  | inr _ => inr tt
  | inl e => inl e
  end =
  first_failure fs
    (p ← ps; r ← runs;
     [(Parallel.file_name s p r, Parallel.input_path s p r)]).
Proof.
  revert acc. induction ps as [|p ps IH]; intros acc; [done|].
  rewrite bind_cons, first_failure_app, bind_singleton_fmap.
  rewrite <- (average_failure fs (Parallel.file_name s p)
                                 (Parallel.input_path s p)).
  cbn [ParallelPure.averages]. unfold ParallelPure.average_of.
  destruct (average _ _ _ _); [done|]. apply IH.
Qed.

Lemma parallel_outcome (fs : gmap string node) (ls : list Z) :
  outcome (ParallelPure.result fs) ls =
  first_failure fs
    (s ← ls; p ← Parallel.thread_counts; r ← runs;
     [(Parallel.file_name s p r, Parallel.input_path s p r)]).
Proof.
  induction ls as [|s ls IH]; [done|].
  rewrite bind_cons, first_failure_app.
  rewrite <- (parallel_averages_failure fs s _ []).
  cbn [outcome]. unfold ParallelPure.result at 1. cbn [snd].
  by destruct (ParallelPure.averages _ _ _ _).
Qed.

Lemma parallel_averages_inl (fs : gmap string node) (s : Z) (ps : list Z)
    (acc : list float) (e : exn) :
  ParallelPure.averages fs s ps acc = inl e →
  ∃ p, p ∈ ps ∧ ParallelPure.average_of fs s p = inl e.
Proof.
  revert acc. induction ps as [|p ps IH]; intros acc; cbn; [done|].
  destruct (ParallelPure.average_of fs s p) as [e'|a] eqn:Hp.
  - intros [= ->]. exists p. split; [by left|done].
  - intros (p' & Hp' & Hbad)%IH. exists p'. split; [by right|done].
Qed.

Lemma parallel_result_inl (fs : gmap string node) (s : Z) (e : exn) :
  (ParallelPure.result fs s).2 = inl e →
  ∃ p r, p ∈ Parallel.thread_counts ∧ r ∈ runs
         ∧ read_result fs (Parallel.file_name s p r)
                          (Parallel.input_path s p r) = inl e.
Proof.
  unfold ParallelPure.result. cbn [snd].
  destruct (ParallelPure.averages _ _ _ _) as [e'|a] eqn:Havgs; [|done].
  intros [= ->]. apply parallel_averages_inl in Havgs as (p & Hp & Havg).
  apply average_inl in Havg as (r & Hr & Hbad). by exists p, r.
Qed.

Lemma parallel_opened_counts_read_prefix (fs : gmap string node) (s : Z) (ps : list Z) :
  ParallelPure.opened_counts fs s ps =
  read_prefix fs
    (p ← ps; r ← runs;
     [(Parallel.file_name s p r, Parallel.input_path s p r)]).
Proof.
  induction ps as [|p ps IH]; [done|].
  cbn [ParallelPure.opened_counts].
  rewrite bind_cons, read_prefix_app, bind_singleton_fmap.
  rewrite <- (average_failure fs (Parallel.file_name s p)
                                 (Parallel.input_path s p)).
  rewrite <- opened_read_prefix, <- IH. f_equal.
  unfold ParallelPure.average_of.
  by destruct (average _ _ _ _).
Qed.

Lemma parallel_loop_opens (fs : gmap string node) (ls : list Z) :
  (s ← attempted (ParallelPure.result fs) ls;
   (ParallelPure.result fs s).1) =
  read_prefix fs
    (s ← ls; p ← Parallel.thread_counts; r ← runs;
     [(Parallel.file_name s p r, Parallel.input_path s p r)]).
Proof.
  induction ls as [|s ls IH]; [done|].
  cbn [attempted]. rewrite !bind_cons, read_prefix_app.
  rewrite <- (parallel_averages_failure fs s _ []).
  rewrite <- parallel_opened_counts_read_prefix, <- IH.
  change (ParallelPure.opened_counts fs s Parallel.thread_counts)
    with ((ParallelPure.result fs s).1).
  f_equal.
  pose proof (eq_refl : (ParallelPure.result fs s).2
                        = match ParallelPure.averages fs s
                                  Parallel.thread_counts [] with
                          | inr avgs => inr (ParallelPure.frame avgs)
                          | inl e => inl e
                          end) as Hr.
  destruct (ParallelPure.averages fs s Parallel.thread_counts []);
    by rewrite Hr.
Qed.

Lemma out_path_of_inj (algo : string) (s s' : Z) :
  out_path_of algo s = out_path_of algo s' → s = s'.
Proof.
  rewrite !out_path_form.
  intros H%string_app_inv_head%string_app_inv_head%string_app_inv_head.
  by apply (str_sep_inj "/") in H as [<- _].
Qed.

Lemma parallel_success (w : World) (s : Z) :
  (record_parallel w).2 = inr tt → s ∈ sequence_lengths →
  ∃ df, (ParallelPure.result (files w) s).2 = inr df
        ∧ tables (record_parallel w).1 !! out_path_of Parallel.algo s
          = Some (csv_of df).
Proof.
  rewrite record_parallel_run. cbn [fst snd after_loop tables].
  intros Hok%outcome_inr Hs.
  destruct (proj1 (Forall_forall _ _) Hok s Hs) as [df Hdf].
  exists df. split; [done|]. rewrite completed_all by done.
  apply tables_written; try done.
  intros s' Hs' Heq. by apply out_path_of_inj in Heq.
Qed.

(** X6.  The parallel mode, which the pipeline does not call, behaves as
    the distributed one with threads for processes.  [record_parallel]
    fails with the exception of the first of its required files that
    fails.  After a run without failure the summary of every sequence
    length is stored at [data/parallel/L<size>/parallel-L<size>.csv] with
    the columns [n_threads] and [avg_execution_time] and one row for each
    of the thread counts 1, 2, 4, 8, whose average is the mean of the
    eight durations of the runs 1..8 of that thread count. *)
Theorem record_parallel_summary (w : World) (s : Z) :
  s ∈ sequence_lengths →
  (record_parallel w).2 = first_failure (files w) ParallelPure.required
  ∧ ((record_parallel w).2 = inr tt →
     ∃ csv,
       tables (record_parallel w).1
         !! ("data/parallel/L" +:+ str s +:+ "/parallel-L" +:+ str s +:+ ".csv")
       = Some csv
       ∧ header csv = ["n_threads"; "avg_execution_time"]
       ∧ length (rows csv) = 4%nat
       ∧ ∀ i t, [1; 2; 4; 8] !! i = Some t →
           ∃ ds, length ds = 8%nat
             ∧ Forall2 (λ r d, read_result (files w) (Parallel.file_name s t r)
                                           (Parallel.input_path s t r) = inr d)
                       [1; 2; 3; 4; 5; 6; 7; 8] ds
             ∧ rows csv !! i = Some [CInt t; CFloat (mean ds)]).
Proof.
  intros Hs. split.
  { rewrite record_parallel_run. apply parallel_outcome. }
  intros Hok. destruct (parallel_success w s Hok Hs) as (df & Hdf & Htab).
  apply parallel_result_inr in Hdf as (avgs & Havgs & ->).
  exists (csv_of (ParallelPure.frame avgs)). split.
  { replace (_ +:+ _) with (out_path_of Parallel.algo s); [exact Htab|].
    unfold out_path_of, out_dir_of. by rewrite !StrFacts.app_assoc. }
  split; [done|]. split.
  { pose proof (Forall2_length _ _ _ Havgs) as Hlen.
    destruct avgs as [|a1 [|a2 [|a4 [|a8 [|]]]]]; done. }
  intros i t Hi.
  destruct (parallel_row _ _ i t Havgs Hi) as (a & Ha & Hrow).
  apply average_mean in Ha as (ds & Hds & ->).
  exists ds. split; [by rewrite <- (Forall2_length _ _ _ Hds)|]. by split.
Qed.

Lemma record_parallel_summary_witness :
  ∃ csv,
    tables (record_parallel sample_world_parallel).1
      !! ("data/parallel/L" +:+ str 1000 +:+ "/parallel-L" +:+ str 1000
          +:+ ".csv") = Some csv
    ∧ header csv = ["n_threads"; "avg_execution_time"]
    ∧ length (rows csv) = 4%nat.
Proof.
  assert (1000 ∈ sequence_lengths) as Hs by (right; left).
  assert ((record_parallel sample_world_parallel).2 = inr tt) as Hok
    by (vm_compute; reflexivity).
  pose proof (record_parallel_summary sample_world_parallel 1000 Hs)
    as [_ H].
  specialize (H Hok). destruct H as (csv & Hcsv & Hh & Hr & _).
  exists csv. split; [exact Hcsv|]. split; [exact Hh|exact Hr].
Defined.

(** ** How the runs compose *)

Section TablesFacts.
Context (algo : string) (result : Z → list string * (exn + DataFrame)).

Let write (t : gmap string Csv) (s : Z) : gmap string Csv :=
  write_summary algo result s t.

Lemma foldl_write_agree (ls : list Z) (t t' : gmap string Csv) (p : string) :
  t !! p = t' !! p → foldl write t ls !! p = foldl write t' ls !! p.
Proof.
  revert t t'. induction ls as [|s ls IH]; intros t t' Heq; [done|].
  cbn. apply IH. unfold write, write_summary.
  destruct ((result s).2); [done|].
  destruct (decide (out_path_of algo s = p)) as [->|Hne].
  - by rewrite !lookup_insert_eq.
  - by rewrite !lookup_insert_ne.
Qed.

Lemma foldl_write_union (ls : list Z) (t : gmap string Csv) :
  foldl write t ls = foldl write ∅ ls ∪ t.
Proof.
  revert t. induction ls as [|s ls IH]; intros t; cbn.
  - by rewrite (left_id_L ∅ (∪)).
  - rewrite (IH (write t s)), (IH (write ∅ s)).
    unfold write, write_summary. destruct ((result s).2).
    + by rewrite (right_id_L ∅ (∪)).
    + by rewrite !insert_union_singleton_l, (right_id_L ∅ (∪)),
        (assoc_L (∪)).
Qed.

Lemma other_mode_untouched (ls : list Z) (w : World) (p : string) :
  (∀ s, out_path_of algo s ≠ p) →
  tables (after_loop algo result ls w) !! p = tables w !! p.
Proof. intros Hne. cbn. apply tables_untouched. auto. Qed.
End TablesFacts.

Lemma out_path_modes (s s' : Z) :
  out_path_of Serial.algo s ≠ out_path_of Distributed.algo s'
  ∧ out_path_of Serial.algo s ≠ out_path_of Parallel.algo s'
  ∧ out_path_of Distributed.algo s ≠ out_path_of Parallel.algo s'.
Proof.
  rewrite !out_path_form. repeat split; intros H; discriminate H.
Qed.

Lemma record_serial_other_tables (w : World) (p : string) :
  (∀ s, out_path_of Serial.algo s ≠ p) →
  tables (record_serial w).1 !! p = tables w !! p.
Proof.
  intros Hne. rewrite record_serial_run. cbn [fst].
  by rewrite other_mode_untouched.
Qed.

Lemma record_distributed_other_tables (w : World) (p : string) :
  (∀ s, out_path_of Distributed.algo s ≠ p) →
  tables (record_distributed w).1 !! p = tables w !! p.
Proof.
  intros Hne. rewrite record_distributed_run. cbn [fst].
  by rewrite other_mode_untouched.
Qed.

(** The summaries of the distributed run do not depend on the tables it
    starts from. *)
Lemma record_distributed_tables_agree (w w' : World) (p : string) :
  files w = files w' → tables w !! p = tables w' !! p →
  tables (record_distributed w).1 !! p = tables (record_distributed w').1 !! p.
Proof.
  intros Hf Ht. rewrite !record_distributed_run. cbn [fst after_loop tables].
  rewrite Hf. by apply foldl_write_agree.
Qed.

(** X7.  The pipeline is the serial run followed, only when the serial
    run did not fail, by the distributed run.  When a serial file is bad
    the pipeline ends in the state the serial run leaves, so that no
    distributed summary is written, whatever the distributed files hold.
    Otherwise its outcome is that of the distributed run, and it leaves
    the summaries of both runs: the two modes write to different paths
    and do not disturb each other. *)
Theorem main_composes_runs (w : World) :
  (∀ e, (record_serial w).2 = inl e →
     main w = record_serial w
     ∧ ∀ s, tables (main w).1 !! out_path_of Distributed.algo s
            = tables w !! out_path_of Distributed.algo s)
  ∧ ((record_serial w).2 = inr tt →
     main w = record_distributed (record_serial w).1
     ∧ (main w).2 = (record_distributed w).2
     ∧ (∀ s, tables (main w).1 !! out_path_of Serial.algo s
             = tables (record_serial w).1 !! out_path_of Serial.algo s)
     ∧ (∀ s, tables (main w).1 !! out_path_of Distributed.algo s
             = tables (record_distributed w).1
                 !! out_path_of Distributed.algo s)).
Proof.
  split.
  - intros e He.
    assert (main w = record_serial w) as Hmain.
    { unfold main. rewrite bind_run.
      destruct (record_serial w) as [w1 [e'|[]]]; [done|]. discriminate He. }
    split; [exact Hmain|]. intros s. rewrite Hmain.
    apply record_serial_other_tables. intros s'. apply out_path_modes.
  - intros Hok.
    assert (main w = record_distributed (record_serial w).1) as Hmain.
    { unfold main. rewrite bind_run.
      destruct (record_serial w) as [w1 [e'|[]]]; [discriminate Hok|done]. }
    split; [exact Hmain|]. rewrite Hmain.
    pose proof (record_serial_files w) as Hfiles.
    split; [by rewrite !record_distributed_outcome, Hfiles|]. split.
    + intros s. apply record_distributed_other_tables.
      intros s' Heq. by apply (out_path_modes s s').
    + intros s. apply record_distributed_tables_agree; [done|].
      apply record_serial_other_tables. intros s'. apply out_path_modes.
Qed.

(** ** Running twice *)

Lemma acts_rerun (m : M unit) (fs : gmap string node) (ds : gset string)
    (ts : gmap string Csv) (r : exn + unit) (w : World) :
  acts m fs ds ts r → files w = fs → rerun_same m w.
Proof.
  intros Hm Hw. destruct (Hm w Hw) as (Hf1 & Hd1 & Ht1 & Hr1).
  destruct (Hm (m w).1 Hf1) as (Hf2 & Hd2 & Ht2 & Hr2).
  unfold rerun_same. rewrite Hr2, Hr1, Hd2, Hd1, Ht2, Ht1, Hf2.
  split; [done|]. split; [|split; [|done]].
  - by rewrite <- (assoc_L (∪)), (idemp_L (∪) ds).
  - by rewrite (assoc_L (∪)), (idemp_L (∪) ts).
Qed.

Section LoopActs.
Context (algo : string) (result : Z → list string * (exn + DataFrame)).

Lemma after_loop_acts (w : World) :
  let w' := after_loop algo result sequence_lengths
              (makedirs (OUT_DIR +:+ "/" +:+ algo) w).1 in
  files w' = files w ∧ dirs w' = dirs w ∪ made_dirs algo result
  ∧ tables w' = summaries algo result ∪ tables w.
Proof.
  cbn. split; [done|]. split.
  - unfold made_dirs. by rewrite (assoc_L (∪)).
  - apply foldl_write_union.
Qed.
End LoopActs.

Lemma record_serial_acts (fs : gmap string node) :
  acts record_serial fs
       (made_dirs Serial.algo (SerialPure.result fs))
       (summaries Serial.algo (SerialPure.result fs))
       (outcome (SerialPure.result fs) sequence_lengths).
Proof.
  intros w <-. rewrite record_serial_run. cbn [fst snd].
  destruct (after_loop_acts Serial.algo (SerialPure.result (files w)) w)
    as (Hf & Hd & Ht).
  by rewrite Hf, Hd, Ht.
Qed.

Lemma record_distributed_acts (fs : gmap string node) :
  acts record_distributed fs
       (made_dirs Distributed.algo (DistributedPure.result fs))
       (summaries Distributed.algo (DistributedPure.result fs))
       (outcome (DistributedPure.result fs) sequence_lengths).
Proof.
  intros w <-. rewrite record_distributed_run. cbn [fst snd].
  destruct (after_loop_acts Distributed.algo
              (DistributedPure.result (files w)) w) as (Hf & Hd & Ht).
  by rewrite Hf, Hd, Ht.
Qed.

Lemma record_parallel_acts (fs : gmap string node) :
  acts record_parallel fs
       (made_dirs Parallel.algo (ParallelPure.result fs))
       (summaries Parallel.algo (ParallelPure.result fs))
       (outcome (ParallelPure.result fs) sequence_lengths).
Proof.
  intros w <-. rewrite record_parallel_run. cbn [fst snd].
  destruct (after_loop_acts Parallel.algo (ParallelPure.result (files w)) w)
    as (Hf & Hd & Ht).
  by rewrite Hf, Hd, Ht.
Qed.

(** Two computations in sequence, when the first does not fail. *)
Lemma acts_seq (m1 m2 : M unit) (fs : gmap string node)
    (ds1 ds2 : gset string) (ts1 ts2 : gmap string Csv) (r : exn + unit) :
  acts m1 fs ds1 ts1 (inr tt) → acts m2 fs ds2 ts2 r →
  acts (m1;; m2) fs (ds1 ∪ ds2) (ts2 ∪ ts1) r.
Proof.
  intros H1 H2 w Hw. destruct (H1 w Hw) as (Hf1 & Hd1 & Ht1 & Hr1).
  rewrite bind_run. destruct (m1 w) as [w1 [e|[]]]; cbn [fst snd] in *;
    [discriminate Hr1|].
  destruct (H2 w1 Hf1) as (Hf2 & Hd2 & Ht2 & Hr2).
  rewrite Hf2, Hd2, Hd1, Ht2, Ht1, Hr2.
  by rewrite !(assoc_L (∪)).
Qed.

Lemma acts_seq_fail (m1 m2 : M unit) (fs : gmap string node)
    (ds1 : gset string) (ts1 : gmap string Csv) (e : exn) :
  acts m1 fs ds1 ts1 (inl e) → acts (m1;; m2) fs ds1 ts1 (inl e).
Proof.
  intros H1 w Hw. destruct (H1 w Hw) as (Hf1 & Hd1 & Ht1 & Hr1).
  rewrite bind_run. destruct (m1 w) as [w1 [e'|[]]]; cbn [fst snd] in *;
    [|discriminate Hr1].
  by rewrite Hf1, Hd1, Ht1, Hr1.
Qed.

(** X8.  Running a mode, or the pipeline, a second time on unchanged
    result files ends in the same way and changes neither the directories
    nor the stored summaries: each summary is replaced by an equal one,
    nothing accumulates. *)
Theorem rerun_changes_nothing (w : World) :
  rerun_same record_serial w
  ∧ rerun_same record_parallel w
  ∧ rerun_same record_distributed w
  ∧ rerun_same main w.
Proof.
  split; [by eapply acts_rerun; [apply record_serial_acts|]|].
  split; [by eapply acts_rerun; [apply record_parallel_acts|]|].
  split; [by eapply acts_rerun; [apply record_distributed_acts|]|].
  pose proof (record_serial_acts (files w)) as Hs.
  destruct (outcome (SerialPure.result (files w)) sequence_lengths)
    as [e|[]] eqn:Hout.
  - eapply acts_rerun; [|reflexivity]. unfold main.
    apply acts_seq_fail. exact Hs.
  - eapply acts_rerun; [|reflexivity]. unfold main.
    eapply acts_seq; [exact Hs|apply record_distributed_acts].
Qed.

(** ** The footprint of a run *)

Lemma read_prefix_subset (fs : gmap string node)
    (req : list (string * string)) (p : string) :
  p ∈ read_prefix fs req → p ∈ req.*2.
Proof.
  induction req as [|[n q] req IH]; cbn; [done|].
  intros [->|Hp]%elem_of_cons; [by left|]. right.
  destruct (read_result fs n q); [by apply elem_of_nil in Hp|auto].
Qed.

Lemma record_parallel_trace (w : World) :
  ∃ tr, trace (record_parallel w).1 = trace w ++ tr
        ∧ opens tr = read_prefix (files w) ParallelPure.required.
Proof.
  rewrite record_parallel_run.
  exists (EvMakedirs (OUT_DIR +:+ "/" +:+ Parallel.algo) ::
          (s ← attempted (ParallelPure.result (files w)) sequence_lengths;
           body_trace Parallel.algo (ParallelPure.result (files w)) s)).
  split; [cbn; by rewrite <- app_assoc|].
  rewrite opens_makedirs, opens_loop. apply parallel_loop_opens.
Qed.

Section Footprint.
Context (algo : string) (result : Z → list string * (exn + DataFrame)).

Lemma completed_subset (l : list Z) (x : Z) :
  x ∈ completed result l → x ∈ l.
Proof.
  induction l as [|y l IH]; cbn; [done|].
  destruct ((result y).2); [by intros ?%elem_of_nil|].
  intros [->|Hx]%elem_of_cons; [by left|]. right. auto.
Qed.

Lemma made_dirs_elem (d : string) :
  d ∈ made_dirs algo result →
  d ∈ path_prefixes (OUT_DIR +:+ "/" +:+ algo)
  ∨ ∃ s, s ∈ sequence_lengths ∧ d ∈ path_prefixes (out_dir_of algo s).
Proof.
  unfold made_dirs.
  intros [Hd%elem_of_list_to_set|Hd%elem_of_list_to_set]%elem_of_union;
    [by left|]. right.
  apply list_elem_of_bind in Hd as (s & Hd & Hs). exists s.
  split; [by eapply attempted_subset|done].
Qed.

Lemma summaries_untouched (t : gmap string Csv) (p : string) :
  (∀ s, s ∈ sequence_lengths → p ≠ out_path_of algo s) →
  (summaries algo result ∪ t) !! p = t !! p.
Proof.
  intros Hne. rewrite lookup_union. unfold summaries.
  rewrite tables_untouched, lookup_empty; [by rewrite (left_id_L None _)|].
  intros s Hs%completed_subset Heq. by apply (Hne s).
Qed.
End Footprint.

(** The directories above an output directory. *)
Lemma mode_dirs (algo : string) :
  algo ∈ [Serial.algo; Parallel.algo; Distributed.algo] →
  (∀ d, d ∈ path_prefixes (OUT_DIR +:+ "/" +:+ algo) →
        d = OUT_DIR ∨ d = OUT_DIR +:+ "/" +:+ algo)
  ∧ ∀ s d, s ∈ sequence_lengths → d ∈ path_prefixes (out_dir_of algo s) →
      d = OUT_DIR ∨ d = OUT_DIR +:+ "/" +:+ algo ∨ d = out_dir_of algo s.
Proof.
  intros Halgo. split.
  - intros d Hd.
    repeat (apply elem_of_cons in Halgo as [->|Halgo]);
      [| | |by apply elem_of_nil in Halgo];
      vm_compute in Hd;
      repeat (apply elem_of_cons in Hd as [->|Hd]);
      try (by apply elem_of_nil in Hd);
      first [by left|by right].
  - intros s d Hs Hd.
    repeat (apply elem_of_cons in Halgo as [->|Halgo]);
      [| | |by apply elem_of_nil in Halgo];
      (repeat (apply elem_of_cons in Hs as [->|Hs]);
       [| | |by apply elem_of_nil in Hs]);
      vm_compute in Hd;
      repeat (apply elem_of_cons in Hd as [->|Hd]);
      try (by apply elem_of_nil in Hd);
      first [by left|by right; left|by right; right].
Qed.

Lemma acts_confined (algo : string)
    (result : Z → list string * (exn + DataFrame)) (m : M unit)
    (inputs : list string) (r : exn + unit) (w : World) :
  algo ∈ [Serial.algo; Parallel.algo; Distributed.algo] →
  acts m (files w) (made_dirs algo result) (summaries algo result) r →
  (∃ tr, trace (m w).1 = trace w ++ tr ∧ ∀ p, p ∈ opens tr → p ∈ inputs) →
  confined algo inputs w (m w).1.
Proof.
  intros Halgo Hm Htr. destruct (Hm w eq_refl) as (Hf & Hd & Ht & _).
  destruct (mode_dirs algo Halgo) as [Htop Hlen].
  split; [exact Hf|]. split; [|split; [|exact Htr]].
  - intros p Hp. rewrite Ht. by apply summaries_untouched.
  - intros d. rewrite Hd. intros [Hin|Hin%made_dirs_elem]%elem_of_union;
      [by left|]. right.
    destruct Hin as [Hin|(s & Hs & Hin)].
    + destruct (Htop d Hin) as [->| ->]; [by left|by right; left].
    + destruct (Hlen s d Hs Hin) as [->|[->| ->]];
        [by left|by right; left|]. right. right. by exists s.
Qed.

Lemma record_serial_confined (w : World) :
  confined Serial.algo SerialPure.required.*2 w (record_serial w).1.
Proof.
  eapply acts_confined; [by left|apply record_serial_acts|].
  destruct (record_serial_trace w) as (tr & Htr & Hop). exists tr.
  split; [exact Htr|]. rewrite Hop. apply read_prefix_subset.
Qed.

Lemma record_parallel_confined (w : World) :
  confined Parallel.algo ParallelPure.required.*2 w (record_parallel w).1.
Proof.
  eapply acts_confined; [by right; left|apply record_parallel_acts|].
  destruct (record_parallel_trace w) as (tr & Htr & Hop). exists tr.
  split; [exact Htr|]. rewrite Hop. apply read_prefix_subset.
Qed.

Lemma record_distributed_confined (w : World) :
  confined Distributed.algo DistributedPure.required.*2 w
           (record_distributed w).1.
Proof.
  eapply acts_confined; [by right; right; left|apply record_distributed_acts|].
  destruct (record_distributed_trace w) as (tr & Htr & Hop). exists tr.
  split; [exact Htr|]. rewrite Hop. apply read_prefix_subset.
Qed.

(** X9.  A run of a mode has a bounded footprint.  It never changes a
    text file; the only tables it can change are the summaries of its own
    mode for the three sequence lengths; the only directories it can add
    are [data], [data/<mode>] and [data/<mode>/L<size>] for these
    lengths; and it opens no file other than the required result files of
    its mode. *)
Theorem run_footprint (w : World) :
  confined Serial.algo SerialPure.required.*2 w (record_serial w).1
  ∧ confined Parallel.algo ParallelPure.required.*2 w (record_parallel w).1
  ∧ confined Distributed.algo DistributedPure.required.*2 w
             (record_distributed w).1.
Proof.
  split; [apply record_serial_confined|].
  split; [apply record_parallel_confined|apply record_distributed_confined].
Qed.

(** ** What the pipeline leaves out *)

Lemma out_dir_form (algo : string) (s : Z) :
  out_dir_of algo s = "data/" +:+ algo +:+ "/L" +:+ str s.
Proof. unfold out_dir_of. rewrite ?StrFacts.app_assoc. reflexivity. Qed.

Lemma serial_required_paths (p : string) :
  p ∈ SerialPure.required.*2 → ∃ s r, p = Serial.input_path s r.
Proof.
  intros (x & -> & Hx)%list_elem_of_fmap. unfold SerialPure.required in Hx.
  apply list_elem_of_bind in Hx as (s & Hx & _).
  apply list_elem_of_bind in Hx as (r & Hx & _).
  apply list_elem_of_singleton in Hx as ->. by exists s, r.
Qed.

Lemma distributed_required_paths (p : string) :
  p ∈ DistributedPure.required.*2 →
  ∃ s q r, p = Distributed.input_path s q r.
Proof.
  intros (x & -> & Hx)%list_elem_of_fmap.
  unfold DistributedPure.required in Hx.
  apply list_elem_of_bind in Hx as (s & Hx & _).
  apply list_elem_of_bind in Hx as (q & Hx & _).
  apply list_elem_of_bind in Hx as (r & Hx & _).
  apply list_elem_of_singleton in Hx as ->. by exists s, q, r.
Qed.

Lemma parallel_dir_not_serial (d : string) :
  d = OUT_DIR +:+ "/" +:+ Parallel.algo ∨ (∃ s, d = out_dir_of Parallel.algo s) →
  ¬ (d = OUT_DIR ∨ d = OUT_DIR +:+ "/" +:+ Serial.algo
     ∨ ∃ s, s ∈ sequence_lengths ∧ d = out_dir_of Serial.algo s).
Proof.
  intros [->|[s ->]] [H|[H|(s' & _ & H)]];
    rewrite ?out_dir_form in H; discriminate H.
Qed.

Lemma parallel_dir_not_distributed (d : string) :
  d = OUT_DIR +:+ "/" +:+ Parallel.algo ∨ (∃ s, d = out_dir_of Parallel.algo s) →
  ¬ (d = OUT_DIR ∨ d = OUT_DIR +:+ "/" +:+ Distributed.algo
     ∨ ∃ s, s ∈ sequence_lengths ∧ d = out_dir_of Distributed.algo s).
Proof.
  intros [->|[s ->]] [H|[H|(s' & _ & H)]];
    rewrite ?out_dir_form in H; discriminate H.
Qed.

(** X10.  The pipeline leaves the parallel mode out.  [main] opens only
    result files of the serial and the distributed mode, never one of the
    parallel mode; it stores no summary of the parallel mode; and it makes
    neither [data/parallel] nor a directory below it.  The text files are
    never changed. *)
Theorem main_skips_parallel (w : World) :
  files (main w).1 = files w
  ∧ (∀ s, tables (main w).1 !! out_path_of Parallel.algo s
          = tables w !! out_path_of Parallel.algo s)
  ∧ (∀ d, d = OUT_DIR +:+ "/" +:+ Parallel.algo
          ∨ (∃ s, d = out_dir_of Parallel.algo s) →
          d ∈ dirs (main w).1 → d ∈ dirs w)
  ∧ ∃ tr, trace (main w).1 = trace w ++ tr
      ∧ (∀ p, p ∈ opens tr →
              (∃ s r, p = Serial.input_path s r)
              ∨ ∃ s q r, p = Distributed.input_path s q r)
      ∧ ∀ s t r, Parallel.input_path s t r ∉ opens tr.
Proof.
  assert (∀ tr, opens tr = read_prefix (files w)
                  (SerialPure.required ++ DistributedPure.required) →
          ∀ p, p ∈ opens tr →
            (∃ s r, p = Serial.input_path s r)
            ∨ ∃ s q r, p = Distributed.input_path s q r) as Hopens.
  { intros tr -> p Hp%read_prefix_subset. rewrite fmap_app in Hp.
    apply elem_of_app in Hp as [Hp|Hp].
    - left. by apply serial_required_paths.
    - right. by apply distributed_required_paths. }
  assert (∃ tr, trace (main w).1 = trace w ++ tr
            ∧ (∀ p, p ∈ opens tr →
                 (∃ s r, p = Serial.input_path s r)
                 ∨ ∃ s q r, p = Distributed.input_path s q r)
            ∧ ∀ s t r, Parallel.input_path s t r ∉ opens tr) as Htrace.
  { destruct (main_trace w) as (tr & Htr & Hop & _). exists tr.
    split; [exact Htr|]. split; [by apply Hopens|].
    intros s t r Hin. apply (Hopens tr Hop) in Hin.
    destruct Hin as [(s' & r' & H)|(s' & q' & r' & H)].
    - rewrite parallel_path_form, serial_path_form in H. discriminate H.
    - rewrite parallel_path_form, distributed_path_form in H.
      discriminate H. }
  destruct (record_serial_confined w) as (Hf1 & Ht1 & Hd1 & _).
  pose proof (λ w1, record_distributed_confined w1) as Hdist.
  unfold main in *. rewrite bind_run in *.
  destruct (record_serial w) as [w1 [e|[]]]; cbn [fst snd] in *.
  - split; [exact Hf1|]. split; [|split; [|exact Htrace]].
    + intros s. apply Ht1. intros s' _ Heq.
      by apply (out_path_modes s' s).
    + intros d Hpar [Hd|Hd]%Hd1; [done|].
      by apply parallel_dir_not_serial in Hpar.
  - destruct (Hdist w1) as (Hf2 & Ht2 & Hd2 & _).
    split; [by rewrite Hf2|]. split; [|split; [|exact Htrace]].
    + intros s. rewrite Ht2.
      * apply Ht1. intros s' _ Heq. by apply (out_path_modes s' s).
      * intros s' _ Heq. by apply (out_path_modes s' s).
    + intros d Hpar [Hd|Hd]%Hd2.
      * apply Hd1 in Hd as [Hd|Hd]; [done|].
        by apply parallel_dir_not_serial in Hpar.
      * by apply parallel_dir_not_distributed in Hpar.
Qed.

(** ** Printing and writing *)

Lemma split_after {A : Type} (l1 l2 pre post : list A) (e : A) :
  e ∉ l1 → l1 ++ l2 = pre ++ e :: post →
  ∃ k, pre = l1 ++ k ∧ l2 = k ++ e :: post.
Proof.
  intros Hnot [(k & H1 & H2)|(k & H1 & H2)]%app_eq_inv.
  - destruct k as [|x k].
    + exists []. rewrite app_nil_r in *. by split.
    + injection H2 as <- _. exfalso. apply Hnot. rewrite H1.
      apply elem_of_app. right. by left.
  - by exists k.
Qed.

Lemma cons_inv {A : Type} (x y : A) (l k : list A) :
  x :: l = y :: k → x = y ∧ l = k.
Proof. by intros [= -> ->]. Qed.

Section Outputs.
Context (algo : string) (result : Z → list string * (exn + DataFrame)).

Lemma body_trace_head (s : Z) (ev : event) :
  (∀ p, ev ≠ EvOpen p) → (∀ d, ev ≠ EvMakedirs d) →
  ev ∉ EvMakedirs (out_dir_of algo s) :: (EvOpen <$> (result s).1).
Proof.
  intros Hop Hmk [Hin|Hin]%elem_of_cons; [by eapply Hmk|].
  apply list_elem_of_fmap in Hin as (q & Hq & _). by apply (Hop q).
Qed.

Lemma body_trace_tail (s : Z) (ev : event) (pre post : list event) :
  (∀ p, ev ≠ EvOpen p) → (∀ d, ev ≠ EvMakedirs d) →
  body_trace algo result s = pre ++ ev :: post →
  ∃ df k, (result s).2 = inr df
    ∧ pre = EvMakedirs (out_dir_of algo s) :: (EvOpen <$> (result s).1) ++ k
    ∧ [EvPrint df; EvToCsv (out_path_of algo s)] = k ++ ev :: post.
Proof.
  intros Hop Hmk Heq. unfold body_trace in Heq.
  change (EvMakedirs (out_dir_of algo s) :: (EvOpen <$> (result s).1) ++ ?t)
    with ((EvMakedirs (out_dir_of algo s) :: (EvOpen <$> (result s).1)) ++ t)
    in Heq.
  apply split_after in Heq as (k & Hpre & Htail);
    [|by apply body_trace_head].
  destruct ((result s).2) as [e|df].
  - by destruct k.
  - by exists df, k.
Qed.

Lemma body_trace_write (s : Z) (p : string) (pre post : list event) :
  body_trace algo result s = pre ++ EvToCsv p :: post →
  ∃ df, (result s).2 = inr df ∧ p = out_path_of algo s
    ∧ pre = (EvMakedirs (out_dir_of algo s) :: (EvOpen <$> (result s).1))
            ++ [EvPrint df].
Proof.
  intros (df & k & Hdf & Hpre & Htail)%body_trace_tail; [|done..].
  exists df. split; [exact Hdf|].
  destruct k as [|x [|y [|z k]]]; simplify_eq/=; try done; by destruct k.
Qed.

Lemma body_trace_print (s : Z) (df : DataFrame) (pre post : list event) :
  body_trace algo result s = pre ++ EvPrint df :: post →
  post = [EvToCsv (out_path_of algo s)].
Proof.
  intros (df' & k & Hdf & Hpre & Htail)%body_trace_tail; [|done..].
  destruct k as [|x [|y [|z k]]]; simplify_eq/=; try done; by destruct k.
Qed.

Lemma loop_trace_write (att : list Z) (p : string) (pre post : list event) :
  (s ← att; body_trace algo result s) = pre ++ EvToCsv p :: post →
  ∃ pre' df s,
    pre = pre' ++ [EvPrint df] ∧ s ∈ att ∧ (result s).2 = inr df
    ∧ p = out_path_of algo s ∧ EvMakedirs (out_dir_of algo s) ∈ pre'.
Proof.
  revert pre. induction att as [|s0 att IH]; intros pre Heq.
  - by destruct pre.
  - change (body_trace algo result s0 ++ (s ← att; body_trace algo result s)
            = pre ++ EvToCsv p :: post) in Heq.
    apply app_eq_inv in Heq as [(k & H1 & H2)|(k & H1 & H2)].
    + destruct k as [|x k].
      * destruct (IH [] (eq_sym H2)) as (pre' & df & s & Hnil & _).
        by destruct pre'.
      * injection H2 as <- _.
        apply body_trace_write in H1 as (df & Hdf & -> & ->).
        eexists _, df, s0. split; [reflexivity|]. split; [by left|].
        split; [exact Hdf|]. split; [reflexivity|]. by left.
    + destruct (IH k H2) as (pre' & df & s & -> & Hs & Hdf & -> & Hmk).
      exists (body_trace algo result s0 ++ pre'), df, s.
      split; [by rewrite H1, app_assoc|]. split; [by right|].
      split; [exact Hdf|]. split; [reflexivity|].
      apply elem_of_app. by right.
Qed.

Lemma loop_trace_print (att : list Z) (df : DataFrame)
    (pre post : list event) :
  (s ← att; body_trace algo result s) = pre ++ EvPrint df :: post →
  ∃ p post', post = EvToCsv p :: post'.
Proof.
  revert pre. induction att as [|s0 att IH]; intros pre Heq.
  - by destruct pre.
  - change (body_trace algo result s0 ++ (s ← att; body_trace algo result s)
            = pre ++ EvPrint df :: post) in Heq.
    apply app_eq_inv in Heq as [(k & H1 & H2)|(k & H1 & H2)].
    + destruct k as [|x k].
      * by apply (IH []).
      * injection H2 as <- ->.
        apply body_trace_print in H1 as ->. by eexists _, _.
    + by apply (IH k).
Qed.

Lemma attempted_completed (l : list Z) (x : Z) (df : DataFrame) :
  x ∈ attempted result l → (result x).2 = inr df → x ∈ completed result l.
Proof.
  intros Hx Hdf. induction l as [|y l IH]; cbn in *; [done|].
  apply elem_of_cons in Hx as [->|Hx].
  - rewrite Hdf. by left.
  - destruct ((result y).2); [by apply elem_of_nil in Hx|]. right. auto.
Qed.

Lemma run_written_after_print (w : World) :
  written_after_print algo w
    (after_loop algo result sequence_lengths
       (makedirs (OUT_DIR +:+ "/" +:+ algo) w).1).
Proof.
  exists (EvMakedirs (OUT_DIR +:+ "/" +:+ algo) ::
          (x ← attempted result sequence_lengths; body_trace algo result x)).
  split; [cbn; by rewrite <- app_assoc|]. split.
  - intros pre p post Heq. destruct pre as [|ev pre]; [done|].
    apply cons_inv in Heq as [<- Heq].
    apply loop_trace_write in Heq
      as (pre' & df & s & -> & Hs & Hdf & -> & Hmk).
    exists (EvMakedirs (OUT_DIR +:+ "/" +:+ algo) :: pre'), df, s.
    split; [done|]. split; [by eapply attempted_subset|].
    split; [done|]. split; [by right|].
    cbn [after_loop tables]. apply tables_written; [|  |exact Hdf].
    + intros s' _ Hp. by apply out_path_of_inj in Hp.
    + by eapply attempted_completed.
  - intros pre df post Heq. destruct pre as [|ev pre]; [done|].
    apply cons_inv in Heq as [<- Heq]. by apply loop_trace_print in Heq.
Qed.
End Outputs.

(** X11.  In every mode a summary is written right after it has been
    printed, once its directory has been made, to the path of one of the
    three sequence lengths; the table found there after the run is the
    printed one, also when the run fails later; and nothing is printed
    without being written next. *)
Theorem summaries_printed_then_written (w : World) :
  written_after_print Serial.algo w (record_serial w).1
  ∧ written_after_print Parallel.algo w (record_parallel w).1
  ∧ written_after_print Distributed.algo w (record_distributed w).1.
Proof.
  rewrite record_serial_run, record_parallel_run, record_distributed_run.
  split; [apply run_written_after_print|].
  split; apply run_written_after_print.
Qed.

(** ** Independence of the configurations: the rows that are written *)

Lemma loop_wrote (algo : string)
    (result : Z → list string * (exn + DataFrame)) (att : list Z) (s : Z) :
  EvToCsv (out_path_of algo s) ∈ (x ← att; body_trace algo result x) →
  s ∈ att ∧ ∃ df, (result s).2 = inr df.
Proof.
  intros (pre & post & Heq)%list_elem_of_split.
  apply loop_trace_write in Heq as (_ & df & s' & _ & Hs' & Hdf & Hp & _).
  apply out_path_of_inj in Hp as ->. split; [done|]. by exists df.
Qed.

Lemma calls_record_distributed (w : World) :
  calls record_distributed w =
  EvMakedirs (OUT_DIR +:+ "/" +:+ Distributed.algo) ::
  (s ← attempted (DistributedPure.result (files w)) sequence_lengths;
   body_trace Distributed.algo (DistributedPure.result (files w)) s).
Proof.
  unfold calls. rewrite record_distributed_run. cbn [fst].
  change (trace (after_loop ?a ?r ?l (makedirs ?top w).1))
    with ((trace w ++ [EvMakedirs top]) ++ (s ← attempted r l; body_trace a r s)).
  rewrite <- app_assoc. apply drop_app_length.
Qed.

(** A summary that the run writes is the frame computed from the files. *)
Lemma distributed_wrote (w : World) (s : Z) :
  EvToCsv (out_path_of Distributed.algo s) ∈ calls record_distributed w →
  ∃ df, (DistributedPure.result (files w) s).2 = inr df
        ∧ tables (record_distributed w).1 !! out_path_of Distributed.algo s
          = Some (csv_of df).
Proof.
  rewrite calls_record_distributed.
  intros [Hin|Hin]%elem_of_cons; [discriminate Hin|].
  apply loop_wrote in Hin as [Hs [df Hdf]]. exists df. split; [exact Hdf|].
  rewrite record_distributed_run. cbn [fst after_loop tables].
  apply tables_written; [| |exact Hdf].
  - intros s' _ Hp. by apply out_path_of_inj in Hp.
  - by eapply attempted_completed.
Qed.

Lemma distributed_success_wrote (w : World) (s : Z) :
  s ∈ sequence_lengths → (record_distributed w).2 = inr tt →
  EvToCsv (out_path_of Distributed.algo s) ∈ calls record_distributed w.
Proof.
  intros Hs. rewrite record_distributed_run, calls_record_distributed.
  cbn [snd]. intros Hok%outcome_inr. right.
  rewrite attempted_all by done.
  destruct (proj1 (Forall_forall _ _) Hok s Hs) as [df Hdf].
  apply list_elem_of_bind. exists s. split; [|done].
  unfold body_trace. rewrite Hdf. right. apply elem_of_app. right.
  right. by left.
Qed.

(** C9 (amended).  The row of a process count in the distributed summary
    of a sequence length is computed from the eight result files of that
    configuration only: when two runs on file systems that agree on these
    eight files both write the summary of that sequence length, they
    report the same average in that row, whatever the other files hold
    and whether or not the runs fail later.  When each of the eight files
    reads ["Total time taken: 10.0"], the average is exactly 10.0.  A run
    without failure writes the summary of every sequence length. *)
Theorem distributed_row_independent (w1 w2 : World) (s p : Z) (i : nat) :
  Distributed.process_counts !! i = Some p →
  (∀ r, r ∈ runs →
     files w1 !! Distributed.input_path s p r
     = files w2 !! Distributed.input_path s p r) →
  (EvToCsv (out_path_of Distributed.algo s) ∈ calls record_distributed w1 →
   EvToCsv (out_path_of Distributed.algo s) ∈ calls record_distributed w2 →
   ∃ avg csv1 csv2,
     tables (record_distributed w1).1 !! out_path_of Distributed.algo s
     = Some csv1
     ∧ tables (record_distributed w2).1 !! out_path_of Distributed.algo s
       = Some csv2
     ∧ rows csv1 !! i = Some [CInt p; CFloat avg]
     ∧ rows csv2 !! i = Some [CInt p; CFloat avg]
     ∧ ((∀ r, r ∈ runs →
           files w1 !! Distributed.input_path s p r
           = Some (Text "Total time taken: 10.0")) →
        avg = f10 ∧ float_exact f10 10 1))
  ∧ (∀ w, s ∈ sequence_lengths → (record_distributed w).2 = inr tt →
          EvToCsv (out_path_of Distributed.algo s)
          ∈ calls record_distributed w).
Proof.
  intros Hi Hagree. split; [|intros w; apply distributed_success_wrote].
  intros Hw1 Hw2.
  destruct (distributed_wrote w1 s Hw1) as (df1 & Hdf1 & Htab1).
  destruct (distributed_wrote w2 s Hw2) as (df2 & Hdf2 & Htab2).
  apply distributed_result_inr in Hdf1 as (avgs1 & Havgs1 & ->).
  apply distributed_result_inr in Hdf2 as (avgs2 & Havgs2 & ->).
  destruct (distributed_row _ _ i p Havgs1 Hi) as (a1 & Ha1 & Hrow1).
  destruct (distributed_row _ _ i p Havgs2 Hi) as (a2 & Ha2 & Hrow2).
  assert (a2 = a1) as ->.
  { unfold DistributedPure.average_of in *.
    rewrite (average_ext _ (files w2)) in Ha1 by done. congruence. }
  exists a1, (csv_of (DistributedPure.frame avgs1)),
         (csv_of (DistributedPure.frame avgs2)).
  do 4 (split; [done|]).
  intros Hten. unfold DistributedPure.average_of in Ha1.
  rewrite (average_constant _ _ _ "Total time taken: 10.0" f10) in Ha1.
  - assert (a1 = mean (replicate 8 f10)) as -> by congruence.
    split; vm_compute; reflexivity.
  - exact Hten.
  - intros r. vm_compute. reflexivity.
Qed.

Lemma distributed_row_independent_witness :
  ∃ csv1 csv2,
    tables (record_distributed sample_world).1
      !! out_path_of Distributed.algo 1000 = Some csv1
    ∧ tables (record_distributed sample_world_other).1
        !! out_path_of Distributed.algo 1000 = Some csv2
    ∧ rows csv1 !! 2%nat = Some [CInt 4; CFloat f10]
    ∧ rows csv2 !! 2%nat = Some [CInt 4; CFloat f10].
Proof.
  assert (∀ r, r ∈ runs →
            files sample_world !! Distributed.input_path 1000 4 r
            = files sample_world_other !! Distributed.input_path 1000 4 r)
    as Hagree.
  { intros r Hr. unfold runs, range in Hr. cbn in Hr.
    in_list Hr; vm_compute; reflexivity. }
  assert (∀ r, r ∈ runs →
            files sample_world !! Distributed.input_path 1000 4 r
            = Some (Text "Total time taken: 10.0")) as Hall.
  { intros r Hr. unfold runs, range in Hr. cbn in Hr.
    in_list Hr; vm_compute; reflexivity. }
  assert (EvToCsv (out_path_of Distributed.algo 1000)
          ∈ calls record_distributed sample_world) as Hw1.
  { apply (list_elem_of_lookup_2 _ 70). vm_compute. reflexivity. }
  assert (EvToCsv (out_path_of Distributed.algo 1000)
          ∈ calls record_distributed sample_world_other) as Hw2.
  { apply (list_elem_of_lookup_2 _ 70). vm_compute. reflexivity. }
  pose proof (proj1 (distributed_row_independent sample_world
                       sample_world_other 1000 4 2 eq_refl Hagree) Hw1 Hw2)
    as H.
  destruct H as (avg & csv1 & csv2 & H1 & H2 & Hr1 & Hr2 & Hten).
  pose proof (proj1 (Hten Hall)) as Havg.
  exists csv1, csv2. rewrite <- Havg.
  split; [exact H1|]. split; [exact H2|]. split; [exact Hr1|exact Hr2].
Defined.

(** C9 as stated fails: whether the row is reported at all depends on the
    files of the other process counts.  With the file of run 1 of
    (1000, 2 processes) missing, the run fails before the summary of
    size 1000 is written, so the row of 4 processes is reported in one
    run and not in the other, although the two file systems differ only
    in a file of 2 processes. *)
Lemma distributed_row_needs_other_files :
  ¬ (∀ w1 w2 s p i row,
       s ∈ sequence_lengths → Distributed.process_counts !! i = Some p →
       (∀ path, files w1 !! path ≠ files w2 !! path →
          ∃ s' q r, q ≠ p ∧ path = Distributed.input_path s' q r) →
       (∃ csv, tables (record_distributed w1).1
                 !! out_path_of Distributed.algo s = Some csv
               ∧ rows csv !! i = Some row) →
       ∃ csv, tables (record_distributed w2).1
                !! out_path_of Distributed.algo s = Some csv
              ∧ rows csv !! i = Some row).
Proof.
  intros H.
  assert (tables (record_distributed sample_world_gap).1
            !! out_path_of Distributed.algo 1000 = None) as Hnone
    by (vm_compute; reflexivity).
  assert (tables (record_distributed sample_world).1
            !! out_path_of Distributed.algo 1000
          = Some {| header := ["n_processes"; "avg_execution_time"];
                    rows := [[CInt 1; CFloat f10]; [CInt 2; CFloat f10];
                             [CInt 4; CFloat f10]; [CInt 8; CFloat f10]] |})
    as Hsome by (vm_compute; reflexivity).
  destruct (H sample_world sample_world_gap 1000 4 2%nat [CInt 4; CFloat f10])
    as (csv & Htab & _).
  - right; left.
  - reflexivity.
  - intros path Hne. exists 1000, 2, 1. split; [done|].
    destruct (decide (path = Distributed.input_path 1000 2 1)) as [->|Hp];
      [done|].
    destruct Hne. cbn [files sample_world sample_world_gap].
    by rewrite lookup_delete_ne.
  - eexists. split; [exact Hsome|reflexivity].
  - rewrite Hnone in Htab. discriminate Htab.
Qed.
